(** * Streaming core of clauchat: a shallow embedding in Rocq

    The development embeds the parts of [src/api.rs], [src/app.rs] and
    [src/price.rs] that the streaming pipeline, the send gate, the pricing
    loader and the cost estimator consist of.

    - Rust strings are [string] (UTF-8 bytes as [ascii] characters).
    - [anyhow::Error] values are kept as their display text ([string]).
    - [f64] is the binary64 specification [spec_float] of [SpecFloat]
      (prec = 53, emax = 1024), whose operations are the correctly rounded
      IEEE operations Rust's [f64] performs.
    - [usize] is the 64-bit unsigned integer of the target, kept as [Z]. *)

From Stdlib Require Import ZArith Lia List Bool.
From Stdlib Require Import Strings.String Strings.Ascii.
From Stdlib Require Import Floats.SpecFloat.
From Stdlib Require Import QArith Qpower Lqa.
Close Scope Q_scope.
Import ListNotations.

Open Scope bool_scope.
Set Warnings "-register-all -abstract-large-number".

(** ** Rust prelude: [Result], characters and the [str] methods used *)
Module Rust.

Inductive result (A E : Type) : Type :=
| Ok (a : A)
| Err (e : E).
Arguments Ok {A E} a.
Arguments Err {A E} e.

Definition ascii_eqb (a b : ascii) : bool := Ascii.eqb a b.

(** [char::is_whitespace] on the ASCII range: tab, line feed, vertical
    tab, form feed, carriage return and space. *)
Definition is_whitespace (c : ascii) : bool :=
  let n := nat_of_ascii c in
  ((9 <=? n) && (n <=? 13))%nat || (n =? 32)%nat.

Fixpoint starts_with (p s : string) : bool :=
  match p, s with
  | EmptyString, _ => true
  | String a p', String b s' => ascii_eqb a b && starts_with p' s'
  | String _ _, EmptyString => false
  end.

(** [str::strip_prefix] *)
Fixpoint strip_prefix (p s : string) : option string :=
  match p, s with
  | EmptyString, _ => Some s
  | String a p', String b s' =>
      if ascii_eqb a b then strip_prefix p' s' else None
  | String _ _, EmptyString => None
  end.

Definition ends_with_char (c : ascii) (s : string) : bool :=
  match list_ascii_of_string s with
  | [] => false
  | l => ascii_eqb (last l c) c
  end.

Fixpoint trim_start (s : string) : string :=
  match s with
  | String c s' => if is_whitespace c then trim_start s' else s
  | EmptyString => EmptyString
  end.

Definition rev_string (s : string) : string :=
  string_of_list_ascii (rev (list_ascii_of_string s)).

(** [str::trim] *)
Definition trim (s : string) : string :=
  rev_string (trim_start (rev_string (trim_start s))).

(** [str::trim_end_matches(c)] for a character pattern *)
Definition trim_end_matches (c : ascii) (s : string) : string :=
  let fix drop (l : list ascii) : list ascii :=
    match l with
    | d :: l' => if ascii_eqb d c then drop l' else l
    | [] => []
    end in
  string_of_list_ascii (rev (drop (rev (list_ascii_of_string s)))).

(** [str::replace(c, "")] for a character pattern *)
Fixpoint remove_char (c : ascii) (s : string) : string :=
  match s with
  | String d s' => if ascii_eqb d c then remove_char c s' else String d (remove_char c s')
  | EmptyString => EmptyString
  end.

(** [str::to_lowercase] on the ASCII range *)
Definition to_lower (c : ascii) : ascii :=
  let n := nat_of_ascii c in
  if ((65 <=? n) && (n <=? 90))%nat then ascii_of_nat (n + 32) else c.

Fixpoint to_lowercase (s : string) : string :=
  match s with
  | String c s' => String (to_lower c) (to_lowercase s')
  | EmptyString => EmptyString
  end.

Definition is_digit (c : ascii) : bool :=
  let n := nat_of_ascii c in ((48 <=? n) && (n <=? 57))%nat.

Definition digit_val (c : ascii) : Z := Z.of_nat (nat_of_ascii c - 48).

(** The decimal display of a non-negative integer ([u16], [usize], ...). *)
Fixpoint digits_of_nat (fuel : nat) (n : Z) (acc : string) : string :=
  match fuel with
  | O => acc
  | S f =>
      let d := String (ascii_of_nat (48 + Z.to_nat (n mod 10))) acc in
      if n <? 10 then d else digits_of_nat f (n / 10) d
  end%Z.

Definition display_Z (n : Z) : string := digits_of_nat 64 n EmptyString.

Definition usize_MAX : Z := 2 ^ 64 - 1.
Definition u32_MAX : Z := 2 ^ 32 - 1.

End Rust.
Import Rust.

(** ** [serde_json::from_str]: the JSON text grammar

    The payload of a [data:] line is read by [serde_json::from_str]. The
    parser below follows serde_json's reader: whitespace is space, tab, line
    feed and carriage return; strings reject raw control characters and lone
    surrogate escapes; nesting deeper than serde_json's recursion limit
    (128) is an error; only whitespace may follow the value. A number keeps
    what the typed deserializer needs: [JNum (Some n)] for a non-negative
    integer literal that fits [u64] (serde_json reads it as [u64]),
    [JNum None] for every other number (read as [i64] or [f64]). *)
Module Json.

Inductive json : Type :=
| JNull
| JBool (b : bool)
| JNum (u : option Z)
| JStr (s : string)
| JArr (l : list json)
| JObj (l : list (string * json)).

Definition chr (n : nat) : ascii := ascii_of_nat n.

Fixpoint skip_ws (l : list ascii) : list ascii :=
  match l with
  | c :: l' =>
      let n := nat_of_ascii c in
      if ((n =? 32) || (n =? 9) || (n =? 10) || (n =? 13))%nat then skip_ws l' else l
  | [] => []
  end.

Definition hex_val (c : ascii) : option Z :=
  let n := nat_of_ascii c in
  if ((48 <=? n) && (n <=? 57))%nat then Some (Z.of_nat (n - 48))
  else if ((97 <=? n) && (n <=? 102))%nat then Some (Z.of_nat (n - 87))
  else if ((65 <=? n) && (n <=? 70))%nat then Some (Z.of_nat (n - 55))
  else None.

Definition hex4 (l : list ascii) : option (Z * list ascii) :=
  match l with
  | a :: b :: c :: d :: r =>
      match hex_val a, hex_val b, hex_val c, hex_val d with
      | Some a', Some b', Some c', Some d' =>
          Some (((a' * 16 + b') * 16 + c') * 16 + d', r)%Z
      | _, _, _, _ => None
      end
  | _ => None
  end.

(** UTF-8 encoding of a code point, bytes in reverse order (the string
    accumulator is built reversed). *)
Definition utf8_rev (cp : Z) : list ascii :=
  let b (z : Z) := chr (Z.to_nat z) in
  if (cp <? 128)%Z then [b cp]
  else if (cp <? 2048)%Z then
    [b (128 + cp mod 64)%Z; b (192 + cp / 64)%Z]
  else if (cp <? 65536)%Z then
    [b (128 + cp mod 64)%Z; b (128 + (cp / 64) mod 64)%Z; b (224 + cp / 4096)%Z]
  else
    [b (128 + cp mod 64)%Z; b (128 + (cp / 64) mod 64)%Z;
     b (128 + (cp / 4096) mod 64)%Z; b (240 + cp / 262144)%Z].

(** The body of a string literal, after its opening quote. *)
Fixpoint parse_str (fuel : nat) (l : list ascii) (acc : list ascii)
  : option (string * list ascii) :=
  match fuel with
  | O => None
  | S f =>
      match l with
      | [] => None
      | c :: r =>
          let n := nat_of_ascii c in
          if (n =? 34)%nat then Some (string_of_list_ascii (rev acc), r)
          else if (n =? 92)%nat then
            match r with
            | [] => None
            | e :: r' =>
                let m := nat_of_ascii e in
                if ((m =? 34) || (m =? 92) || (m =? 47))%nat then parse_str f r' (e :: acc)
                else if (m =? 98)%nat then parse_str f r' (chr 8 :: acc)
                else if (m =? 102)%nat then parse_str f r' (chr 12 :: acc)
                else if (m =? 110)%nat then parse_str f r' (chr 10 :: acc)
                else if (m =? 114)%nat then parse_str f r' (chr 13 :: acc)
                else if (m =? 116)%nat then parse_str f r' (chr 9 :: acc)
                else if (m =? 117)%nat then
                  match hex4 r' with
                  | None => None
                  | Some (cp, r2) =>
                      if ((55296 <=? cp) && (cp <=? 56319))%Z then
                        match r2 with
                        | b1 :: b2 :: r3 =>
                            if ((nat_of_ascii b1 =? 92) && (nat_of_ascii b2 =? 117))%nat then
                              match hex4 r3 with
                              | Some (lo, r4) =>
                                  if ((56320 <=? lo) && (lo <=? 57343))%Z then
                                    parse_str f r4
                                      (utf8_rev (65536 + (cp - 55296) * 1024 + (lo - 56320))%Z ++ acc)
                                  else None
                              | None => None
                              end
                            else None
                        | _ => None
                        end
                      else if ((56320 <=? cp) && (cp <=? 57343))%Z then None
                      else parse_str f r2 (utf8_rev cp ++ acc)
                  end
                else None
            end
          else if (n <? 32)%nat then None
          else parse_str f r (c :: acc)
      end
  end.

Fixpoint take_digits (l : list ascii) : list ascii * list ascii :=
  match l with
  | c :: r => if is_digit c then let (d, r') := take_digits r in (c :: d, r') else ([], l)
  | [] => ([], [])
  end.

Definition digits_value (d : list ascii) : Z :=
  fold_left (fun acc c => acc * 10 + digit_val c)%Z d 0%Z.

(** A number literal: [-? (0 | [1-9][0-9]* ) (. [0-9]+)? ([eE] [+-]? [0-9]+)?] *)
Definition parse_num (l : list ascii) : option (json * list ascii) :=
  let (neg, l1) := match l with
                   | c :: r => if (nat_of_ascii c =? 45)%nat then (true, r) else (false, l)
                   | [] => (false, l)
                   end in
  let int_part :=
    match l1 with
    | c :: r => if (nat_of_ascii c =? 48)%nat then Some ([c], r)
                else if is_digit c then let (d, r') := take_digits r in Some (c :: d, r')
                else None
    | [] => None
    end in
  match int_part with
  | None => None
  | Some (ds, l2) =>
      let frac :=
        match l2 with
        | c :: r => if (nat_of_ascii c =? 46)%nat then
                      match take_digits r with
                      | ([], _) => None
                      | (_, r') => Some (true, r')
                      end
                    else Some (false, l2)
        | [] => Some (false, l2)
        end in
      match frac with
      | None => None
      | Some (has_frac, l3) =>
          let exp :=
            match l3 with
            | c :: r => if ((nat_of_ascii c =? 101) || (nat_of_ascii c =? 69))%nat then
                          let r1 := match r with
                                    | s :: r' => if ((nat_of_ascii s =? 43) || (nat_of_ascii s =? 45))%nat
                                                 then r' else r
                                    | [] => r
                                    end in
                          match take_digits r1 with
                          | ([], _) => None
                          | (_, r') => Some (true, r')
                          end
                        else Some (false, l3)
            | [] => Some (false, l3)
            end in
          match exp with
          | None => None
          | Some (has_exp, l4) =>
              let v := digits_value ds in
              if negb neg && negb has_frac && negb has_exp && (v <=? usize_MAX)%Z
              then Some (JNum (Some v), l4)
              else Some (JNum None, l4)
          end
      end
  end.

Definition lit_is (w : string) (l : list ascii) : option (list ascii) :=
  let fix go (w : list ascii) (l : list ascii) :=
    match w, l with
    | [], _ => Some l
    | a :: w', b :: l' => if ascii_eqb a b then go w' l' else None
    | _ :: _, [] => None
    end in
  go (list_ascii_of_string w) l.

(** A JSON value; [depth] is serde_json's remaining recursion budget,
    [fuel] bounds the recursion (one character is consumed per level). *)
Fixpoint parse_value (fuel depth : nat) (l : list ascii) : option (json * list ascii) :=
  match fuel with
  | O => None
  | S f =>
      match skip_ws l with
      | [] => None
      | c :: r =>
          let n := nat_of_ascii c in
          if (n =? 110)%nat then option_map (fun r' => (JNull, r')) (lit_is "ull" r)
          else if (n =? 116)%nat then option_map (fun r' => (JBool true, r')) (lit_is "rue" r)
          else if (n =? 102)%nat then option_map (fun r' => (JBool false, r')) (lit_is "alse" r)
          else if (n =? 34)%nat then
            option_map (fun p => (JStr (fst p), snd p)) (parse_str (List.length r) r [])
          else if (n =? 45)%nat || is_digit c then parse_num (c :: r)
          else if (n =? 91)%nat then
            if (depth <=? 1)%nat then None else
            match skip_ws r with
            | c' :: r' => if (nat_of_ascii c' =? 93)%nat then Some (JArr [], r') else
                (fix elems (g : nat) (acc : list json) (r : list ascii) :=
                   match g with
                   | O => None
                   | S g' =>
                       match parse_value f (depth - 1) r with
                       | None => None
                       | Some (v, r1) =>
                           match skip_ws r1 with
                           | d :: r2 =>
                               if (nat_of_ascii d =? 44)%nat then elems g' (v :: acc) r2
                               else if (nat_of_ascii d =? 93)%nat then Some (JArr (rev (v :: acc)), r2)
                               else None
                           | [] => None
                           end
                       end
                   end) f [] r
            | [] => None
            end
          else if (n =? 123)%nat then
            if (depth <=? 1)%nat then None else
            match skip_ws r with
            | c' :: r' => if (nat_of_ascii c' =? 125)%nat then Some (JObj [], r') else
                (fix members (g : nat) (acc : list (string * json)) (r : list ascii) :=
                   match g with
                   | O => None
                   | S g' =>
                       match skip_ws r with
                       | q :: rk =>
                           if (nat_of_ascii q =? 34)%nat then
                             match parse_str (List.length rk) rk [] with
                             | None => None
                             | Some (k, r1) =>
                                 match skip_ws r1 with
                                 | col :: r2 =>
                                     if (nat_of_ascii col =? 58)%nat then
                                       match parse_value f (depth - 1) r2 with
                                       | None => None
                                       | Some (v, r3) =>
                                           match skip_ws r3 with
                                           | d :: r4 =>
                                               if (nat_of_ascii d =? 44)%nat then members g' ((k, v) :: acc) r4
                                               else if (nat_of_ascii d =? 125)%nat then
                                                 Some (JObj (rev ((k, v) :: acc)), r4)
                                               else None
                                           | [] => None
                                           end
                                       end
                                     else None
                                 | [] => None
                                 end
                             end
                           else None
                       | [] => None
                       end
                   end) f [] r
            | [] => None
            end
          else None
      end
  end.

(** [serde_json::from_str::<Value>]: one value, then only whitespace. *)
Definition parse_json (s : string) : option json :=
  let l := list_ascii_of_string s in
  match parse_value (S (List.length l)) 128 l with
  | Some (v, rest) => match skip_ws rest with [] => Some v | _ => None end
  | None => None
  end.

End Json.
Import Json.

(** ** [f64] as IEEE binary64 *)
Module F64.

Definition f64 := spec_float.

(** [z as f64]: the integer rounded to nearest, ties to even. *)
Definition of_Z (z : Z) : f64 := binary_normalize 53 1024 z 0 false.

Definition mul : f64 -> f64 -> f64 := SFmul 53 1024.
Definition div : f64 -> f64 -> f64 := SFdiv 53 1024.
Definition add : f64 -> f64 -> f64 := SFadd 53 1024.
Definition leb : f64 -> f64 -> bool := SFleb.
Definition ltb : f64 -> f64 -> bool := SFltb.

Definition zero : f64 := S754_zero false.

(** [f64::is_finite]. *)
Definition is_finite (x : f64) : bool :=
  match x with S754_zero _ | S754_finite _ _ _ => true | _ => false end.
Definition neg_one : f64 := of_Z (-1).
Definition million : f64 := of_Z 1000000.

End F64.

(** ** [price.rs]: the pricing record *)
Module Pricing.

Record ModelPricing : Type := mkModelPricing {
  model_name : string;
  input_cost_per_million : F64.f64;
  output_cost_per_million : F64.f64;
  max_prompt_tokens : Z;
  max_output_tokens : Z
}.

(** The [HashMap<String, ModelPricing>] built by [parse_pricing_table],
    as an association list whose keys are distinct. *)
Definition PricingTable := list (string * ModelPricing).

Definition table_get (m : PricingTable) (k : string) : option ModelPricing :=
  match find (fun p => String.eqb (fst p) k) m with
  | Some (_, v) => Some v
  | None => None
  end.

End Pricing.
Import Pricing.

(** ** [api.rs]: messages, stream events and the streaming client *)
Module Api.

Inductive Role := User | Assistant | System.

Definition role_eqb (a b : Role) : bool :=
  match a, b with
  | User, User | Assistant, Assistant | System, System => true
  | _, _ => false
  end.

Record Message : Type := mkMessage { role : Role; content : string }.

Record ResponseUsage : Type := mkUsage { input_tokens : Z; output_tokens : Z }.

Record ContentBlock : Type := mkContentBlock { content_type : string; cb_text : string }.

Record StreamMessage : Type := mkStreamMessage {
  sm_id : string; message_type : string; sm_role : string;
  sm_content : list ContentBlock; sm_usage : option ResponseUsage }.

Record Delta : Type := mkDelta { delta_type : string; text : string }.

Record MessageDelta : Type := mkMessageDelta {
  stop_reason : option string; stop_sequence : option string }.

Record StreamError : Type := mkStreamError { message : string }.

Inductive StreamEvent : Type :=
| MessageStart (m : StreamMessage)
| ContentBlockStart (index : Z) (content_block : ContentBlock)
| ContentBlockDelta (index : Z) (delta : Delta)
| ContentBlockStop (index : Z)
| MessageDeltaEv (delta : MessageDelta) (usage : option ResponseUsage)
| MessageStop
| Ping
| ErrorEv (error : StreamError).

(** [StreamingBuffer] as api.rs declares it: text and completion flag. *)
Record StreamingBuffer : Type := mkBuffer { sb_content : string; sb_is_complete : bool }.

(** *** [#[derive(Deserialize)]] for the event types

    A struct is read from a JSON object: every declared field must occur
    at most once (serde's duplicate-field error), unknown keys are
    ignored, a missing or [null] [Option] field is [None], a missing
    required field is an error. serde also reads a struct from a JSON
    array of its fields in order; no claim involves that form and it is
    not modelled (such payloads count as parse failures here). *)

Definition occurrences (k : string) (obj : list (string * json)) : list json :=
  map snd (filter (fun p => String.eqb (fst p) k) obj).

Definition de_field {A} (f : json -> option A) (k : string) (obj : list (string * json))
  : option A :=
  match occurrences k obj with
  | [v] => f v
  | _ => None
  end.

Definition de_opt_field {A} (f : json -> option A) (k : string) (obj : list (string * json))
  : option (option A) :=
  match occurrences k obj with
  | [] => Some None
  | [JNull] => Some None
  | [v] => option_map Some (f v)
  | _ => None
  end.

Definition de_string (j : json) : option string :=
  match j with JStr s => Some s | _ => None end.

Definition de_usize (j : json) : option Z :=
  match j with JNum (Some n) => if (n <=? usize_MAX)%Z then Some n else None | _ => None end.

Definition de_u32 (j : json) : option Z :=
  match j with JNum (Some n) => if (n <=? u32_MAX)%Z then Some n else None | _ => None end.

Definition de_obj (j : json) : option (list (string * json)) :=
  match j with JObj l => Some l | _ => None end.

Definition de_usage (j : json) : option ResponseUsage :=
  match de_obj j with
  | Some o =>
      match de_field de_u32 "input_tokens" o, de_field de_u32 "output_tokens" o with
      | Some i, Some t => Some (mkUsage i t)
      | _, _ => None
      end
  | None => None
  end.

Definition de_content_block (j : json) : option ContentBlock :=
  match de_obj j with
  | Some o =>
      match de_field de_string "type" o, de_field de_string "text" o with
      | Some t, Some x => Some (mkContentBlock t x)
      | _, _ => None
      end
  | None => None
  end.

Fixpoint de_all {A} (f : json -> option A) (l : list json) : option (list A) :=
  match l with
  | [] => Some []
  | x :: r => match f x, de_all f r with
              | Some a, Some b => Some (a :: b)
              | _, _ => None
              end
  end.

Definition de_vec {A} (f : json -> option A) (j : json) : option (list A) :=
  match j with JArr l => de_all f l | _ => None end.

Definition de_stream_message (j : json) : option StreamMessage :=
  match de_obj j with
  | Some o =>
      match de_field de_string "id" o, de_field de_string "type" o,
            de_field de_string "role" o, de_field (de_vec de_content_block) "content" o,
            de_opt_field de_usage "usage" o with
      | Some i, Some t, Some r, Some c, Some u => Some (mkStreamMessage i t r c u)
      | _, _, _, _, _ => None
      end
  | None => None
  end.

Definition de_delta (j : json) : option Delta :=
  match de_obj j with
  | Some o =>
      match de_field de_string "type" o, de_field de_string "text" o with
      | Some t, Some x => Some (mkDelta t x)
      | _, _ => None
      end
  | None => None
  end.

Definition de_message_delta (j : json) : option MessageDelta :=
  match de_obj j with
  | Some o =>
      match de_opt_field de_string "stop_reason" o, de_opt_field de_string "stop_sequence" o with
      | Some r, Some s => Some (mkMessageDelta r s)
      | _, _ => None
      end
  | None => None
  end.

Definition de_stream_error (j : json) : option StreamError :=
  match de_obj j with
  | Some o => option_map mkStreamError (de_field de_string "message" o)
  | None => None
  end.

(** [#[serde(tag = "type", rename_all = "snake_case")]]: the object's
    ["type"] entry (exactly one) names the variant, by its snake_case name
    or by its index; the other entries are the variant's fields. The unit
    variants [MessageStop] and [Ping] ignore the other entries. *)
Definition variant_index (j : json) : option nat :=
  match j with
  | JStr s =>
      if String.eqb s "message_start" then Some 0%nat
      else if String.eqb s "content_block_start" then Some 1%nat
      else if String.eqb s "content_block_delta" then Some 2%nat
      else if String.eqb s "content_block_stop" then Some 3%nat
      else if String.eqb s "message_delta" then Some 4%nat
      else if String.eqb s "message_stop" then Some 5%nat
      else if String.eqb s "ping" then Some 6%nat
      else if String.eqb s "error" then Some 7%nat
      else None
  | JNum (Some n) => if (n <? 8)%Z then Some (Z.to_nat n) else None
  | _ => None
  end.

Definition de_stream_event (j : json) : option StreamEvent :=
  match de_obj j with
  | None => None
  | Some o =>
      let fields := filter (fun p => negb (String.eqb (fst p) "type")) o in
      match de_field variant_index "type" o with
      | Some 0%nat => option_map MessageStart (de_field de_stream_message "message" fields)
      | Some 1%nat =>
          match de_field de_usize "index" fields, de_field de_content_block "content_block" fields with
          | Some i, Some b => Some (ContentBlockStart i b)
          | _, _ => None
          end
      | Some 2%nat =>
          match de_field de_usize "index" fields, de_field de_delta "delta" fields with
          | Some i, Some d => Some (ContentBlockDelta i d)
          | _, _ => None
          end
      | Some 3%nat => option_map ContentBlockStop (de_field de_usize "index" fields)
      | Some 4%nat =>
          match de_field de_message_delta "delta" fields, de_opt_field de_usage "usage" fields with
          | Some d, Some u => Some (MessageDeltaEv d u)
          | _, _ => None
          end
      | Some 5%nat => Some MessageStop
      | Some 6%nat => Some Ping
      | Some 7%nat => option_map ErrorEv (de_field de_stream_error "error" fields)
      | _ => None
      end
  end.

(** [serde_json::from_str::<StreamEvent>(data)], [None] for an error. *)
Definition from_str (data : string) : option StreamEvent :=
  match parse_json data with
  | Some j => de_stream_event j
  | None => None
  end.

(** *** [send_message_streaming]

    The closure given to [filter_map] over the lines of the body. A line
    is the item of [LinesStream]: the text of the line, or the display
    text of the I/O error that reading it raised. *)
Definition event_step (line_result : result string string)
  : option (result StreamingBuffer string) :=
  match line_result with
  | Err e => Some (Err ("Error reading stream line " ++ e)%string)
  | Ok line =>
      if String.eqb line "" then None
      else if starts_with "event: " line then None
      else if starts_with "data: " line then
        let data := match strip_prefix "data: " line with Some d => d | None => EmptyString end in
        match from_str data with
        | Some (ContentBlockDelta _ delta) =>
            if String.eqb (delta_type delta) "text_delta"
            then Some (Ok (mkBuffer (text delta) false))
            else None
        | Some MessageStop => Some (Ok (mkBuffer EmptyString true))
        | _ => None
        end
      else None
  end.

(** [event_stream]: [lines_stream.filter_map(...)]. *)
Definition event_stream (lines : list (result string string))
  : list (result StreamingBuffer string) :=
  flat_map (fun l => match event_step l with Some x => [x] | None => [] end) lines.

(** What the HTTP exchange of one streaming request yields: either
    [.send().await] fails (its error text), or a response arrives with a
    status code, the status' canonical reason, the outcome of reading the
    whole body as text (used on a non-success status) and the lines of the
    body (used on success). *)
Inductive HttpOutcome : Type :=
| SendFailed (e : string)
| Responded (status : Z) (reason : string) (body_text : result string string)
            (lines : list (result string string)).

Definition is_success (status : Z) : bool := ((200 <=? status) && (status <? 300))%Z.

Definition send_message_streaming (r : HttpOutcome)
  : result (list (result StreamingBuffer string)) string :=
  match r with
  | SendFailed e => Err e
  | Responded status reason body lines =>
      if negb (is_success status) then
        match body with
        | Err e => Err e
        | Ok error_text =>
            Err ("API error (" ++ display_Z status ++ " " ++ reason ++ "): " ++ error_text)%string
        end
      else Ok (event_stream lines)
  end.

End Api.
Import Api.

(** ** [app.rs]: the spawned streaming task and the conversation state *)
Module App.

(** Modelled from the spec: [AppMessageDelta], which app.rs imports from
    [crate::api] and which api.rs does not define. The spec's
    StreamingDelta: cumulative [content], [is_complete], optional [usage];
    [AppMessageDelta::default()] is empty, incomplete, without usage. *)
Record AppMessageDelta : Type := mkAppDelta {
  d_content : string; d_is_complete : bool; d_usage : option ResponseUsage }.

Definition default_delta : AppMessageDelta := mkAppDelta EmptyString false None.

(** ["Err\u{274}r:"]: U+0274 is the two UTF-8 bytes C9 B4. *)
Definition STREAM_ERROR_TOKEN : string :=
  ("Err" ++ String (ascii_of_nat 201) (String (ascii_of_nat 180) "r:"))%string.

(** [format!("{} {}", STREAM_ERROR_TOKEN, e)] *)
Definition error_content (e : string) : string :=
  (STREAM_ERROR_TOKEN ++ " " ++ e)%string.

(** [buffer.usage]: [StreamingBuffer] in api.rs has no usage field; no
    buffer the event stream yields carries a usage. *)
Definition buffer_usage (b : StreamingBuffer) : option ResponseUsage := None.

(** The [while let Some(chunk_result) = stream.next().await] loop: the
    deltas it sends on [tx], in order. [content_delta] is the task's
    accumulator. *)
Fixpoint drain (stream : list (result StreamingBuffer string))
  (content_delta : AppMessageDelta) : list AppMessageDelta :=
  match stream with
  | [] => []
  | Ok buffer :: rest =>
      let cd := mkAppDelta (d_content content_delta ++ sb_content buffer)
                           (sb_is_complete buffer) (buffer_usage buffer) in
      cd :: (if d_is_complete cd then [] else drain rest cd)
  | Err e :: _ =>
      [mkAppDelta (error_content e) true (d_usage content_delta)]
  end.

(** The task given to [self.runtime.spawn]: everything it sends on [tx]. *)
Definition stream_task (r : HttpOutcome) : list AppMessageDelta :=
  let content_delta := default_delta in
  match send_message_streaming r with
  | Ok stream => drain stream content_delta
  | Err e => [mkAppDelta (error_content e) true (d_usage content_delta)]
  end.

(** The client is [Some] when an API key is configured. *)
Record AnthropicClient : Type := mkClient { api_key : string; client_model : string }.

(** The fields of [ClauChatApp] the send path, the stream path and the
    cost display read or write. [stream_receiver] holds the items sent on
    the channel and not yet received ([None]: no channel).
    [total_cost] is [ui_state.total_cost]. *)
Record ClauChatApp : Type := mkApp {
  input : string;
  messages : list Message;
  is_sending : bool;
  config_api_key : string;
  client : option AnthropicClient;
  stream_receiver : option (list AppMessageDelta);
  error : option string;
  model : string;
  pricing_data : option PricingTable;
  total_cost : F64.f64
}.

Definition set_error (a : ClauChatApp) (e : option string) : ClauChatApp :=
  mkApp (input a) (messages a) (is_sending a) (config_api_key a) (client a)
        (stream_receiver a) e (model a) (pricing_data a) (total_cost a).

Definition set_client (a : ClauChatApp) (c : option AnthropicClient) : ClauChatApp :=
  mkApp (input a) (messages a) (is_sending a) (config_api_key a) c
        (stream_receiver a) (error a) (model a) (pricing_data a) (total_cost a).

Definition set_messages (a : ClauChatApp) (m : list Message) : ClauChatApp :=
  mkApp (input a) m (is_sending a) (config_api_key a) (client a)
        (stream_receiver a) (error a) (model a) (pricing_data a) (total_cost a).

Definition set_is_sending (a : ClauChatApp) (b : bool) : ClauChatApp :=
  mkApp (input a) (messages a) b (config_api_key a) (client a)
        (stream_receiver a) (error a) (model a) (pricing_data a) (total_cost a).

Definition set_receiver (a : ClauChatApp) (r : option (list AppMessageDelta)) : ClauChatApp :=
  mkApp (input a) (messages a) (is_sending a) (config_api_key a) (client a)
        r (error a) (model a) (pricing_data a) (total_cost a).

Definition set_total_cost (a : ClauChatApp) (c : F64.f64) : ClauChatApp :=
  mkApp (input a) (messages a) (is_sending a) (config_api_key a) (client a)
        (stream_receiver a) (error a) (model a) (pricing_data a) c.

(** [send_message]. [key_check] is the outcome of the blocking
    [is_api_key_valid] request; the result pairs the new state with the
    message history the spawned task receives ([None]: nothing spawned). *)
Definition send_message (a : ClauChatApp) (key_check : result bool string)
  : ClauChatApp * option (list Message) :=
  if String.eqb (trim (input a)) "" || is_sending a then (a, None)
  else
    match client a with
    | None =>
        (set_error a (Some "API key not configured. Please add it in settings."%string), None)
    | Some _ =>
        let good_key := match key_check with Ok b => b | Err _ => false end in
        if negb good_key then
          (set_error (set_client a None) (Some "Bad API key, request process canceled"%string), None)
        else
          let history := messages a ++ [mkMessage User (input a)] in
          (mkApp EmptyString (history ++ [mkMessage Assistant EmptyString]) true
                 (config_api_key a) (client a) (Some []) None (model a)
                 (pricing_data a) (total_cost a),
           Some history)
    end.

(** [usage_as_cost]: both [unwrap]s panic ([None]) when there is no
    pricing table or no entry for the model. *)
Definition usage_as_cost (a : ClauChatApp) (usage : ResponseUsage) : option F64.f64 :=
  match pricing_data a with
  | None => None
  | Some table =>
      match table_get table (model a) with
      | None => None
      | Some mp =>
          Some (F64.add
                  (F64.mul (input_cost_per_million mp)
                           (F64.div (F64.of_Z (input_tokens usage)) F64.million))
                  (F64.mul (output_cost_per_million mp)
                           (F64.div (F64.of_Z (output_tokens usage)) F64.million)))
      end
  end.

(** [self.ui_state.total_cost += self.usage_as_cost(usage).unwrap()]
    when the delta carries a usage. *)
Definition charge_usage (a : ClauChatApp) (u : option ResponseUsage) : option ClauChatApp :=
  match u with
  | None => Some a
  | Some usage =>
      match usage_as_cost a usage with
      | Some c => Some (set_total_cost a (F64.add (total_cost a) c))
      | None => None
      end
  end.

Fixpoint set_last_content (l : list Message) (c : string) : list Message :=
  match l with
  | [] => []
  | [m] => [mkMessage (role m) c]
  | m :: r => m :: set_last_content r c
  end.

(** [handle_stream_response]; [None] is a panic of [usage_as_cost]. *)
Definition handle_stream_response (a : ClauChatApp) (content_delta : AppMessageDelta)
  : option ClauChatApp :=
  let after :=
    if starts_with STREAM_ERROR_TOKEN (d_content content_delta) then
      charge_usage (set_error a (Some (d_content content_delta))) (d_usage content_delta)
    else
      match last (map Some (messages a)) None with
      | Some last_message =>
          if role_eqb (role last_message) Assistant then
            charge_usage (set_messages a (set_last_content (messages a) (d_content content_delta)))
                         (d_usage content_delta)
          else Some a
      | None => Some a
      end in
  match after with
  | Some a' => Some (if d_is_complete content_delta then set_is_sending a' false else a')
  | None => None
  end.

(** One frame of [update] as far as the stream goes: one non-blocking
    [try_recv], handled when an item is there. *)
Definition poll_stream (a : ClauChatApp) : option ClauChatApp :=
  match stream_receiver a with
  | Some (d :: rest) => handle_stream_response (set_receiver a (Some rest)) d
  | _ => Some a
  end.

(** The spawned task's [tx.send(...)]: the item joins the queue. *)
Definition deliver (a : ClauChatApp) (d : AppMessageDelta) : ClauChatApp :=
  match stream_receiver a with
  | Some q => set_receiver a (Some (q ++ [d]))
  | None => a
  end.

(** [update_api_key]. The [save_config] it ends with writes the config
    file and only logs a failure; it changes no field of the state. *)
Definition update_api_key (a : ClauChatApp) (new_key : string) : ClauChatApp :=
  let a := mkApp (input a) (messages a) (is_sending a) new_key (client a)
                 (stream_receiver a) (error a) (model a) (pricing_data a) (total_cost a) in
  if negb (String.eqb (config_api_key a) EmptyString)
  then set_error (set_client a (Some (mkClient (config_api_key a) (model a)))) None
  else set_client a None.


(** How the spawned task and the render loop interleave: the task sends
    an item on the channel, or a frame of [update] polls it. *)
Inductive Event : Type :=
| TaskSend (d : AppMessageDelta)
| Frame.

(** The state after a schedule of events; [None] is a panic. *)
Fixpoint run (a : ClauChatApp) (evs : list Event) : option ClauChatApp :=
  match evs with
  | [] => Some a
  | TaskSend d :: rest => run (deliver a d) rest
  | Frame :: rest =>
      match poll_stream a with
      | Some a' => run a' rest
      | None => None
      end
  end.

(** The items a schedule has the task send, in order. *)
Definition sent (evs : list Event) : list AppMessageDelta :=
  flat_map (fun ev => match ev with TaskSend d => [d] | Frame => [] end) evs.

End App.
Import App.

(** ** [price.rs]: parsing the pricing table *)
Module PriceParse.

(** *** [str::parse::<f64>]

    Rust's grammar: an optional sign, then ["inf"], ["infinity"] or
    ["nan"] in any case, or a decimal [digits [. digits]] with at least
    one digit and an optional exponent [e|E [+|-] digits]. The value is
    the decimal correctly rounded to binary64, nearest-even: an exact
    integer is rounded by [binary_normalize]; a quotient [M / 10^k] is
    the quotient and remainder location of [SFdiv_core_binary], rounded
    by [binary_round_aux]. Out-of-range exponents go straight to
    infinity or zero. *)

Fixpoint split_digits (l : list ascii) : list ascii * list ascii :=
  match l with
  | c :: r => if is_digit c then let (d, r') := split_digits r in (c :: d, r') else ([], l)
  | [] => ([], [])
  end.

Definition lower_list (l : list ascii) : list ascii := map to_lower l.

Definition decimal_value (neg : bool) (m : Z) (p : Z) : F64.f64 :=
  if (m =? 0)%Z then S754_zero neg
  else if (310 <? p)%Z then S754_infinity neg
  else if (p + Z.of_nat (List.length (list_ascii_of_string (display_Z m))) <? -330)%Z
  then S754_zero neg
  else if (0 <=? p)%Z then binary_normalize 53 1024 (if neg then - (m * 10 ^ p) else m * 10 ^ p)%Z 0 neg
  else
    let '(q, e, loc) := SFdiv_core_binary 53 1024 m 0 (10 ^ (- p)) 0 in
    binary_round_aux 53 1024 neg q e loc.

Definition parse_f64 (s : string) : option F64.f64 :=
  let l := list_ascii_of_string s in
  let '(neg, body) :=
    match l with
    | c :: r => if (nat_of_ascii c =? 45)%nat then (true, r)
                else if (nat_of_ascii c =? 43)%nat then (false, r)
                else (false, l)
    | [] => (false, l)
    end in
  let low := string_of_list_ascii (lower_list body) in
  if String.eqb low "inf" || String.eqb low "infinity" then Some (S754_infinity neg)
  else if String.eqb low "nan" then Some S754_nan
  else
    let '(ip, r1) := split_digits body in
    let '(fp, r2) :=
      match r1 with
      | c :: r => if (nat_of_ascii c =? 46)%nat then split_digits r else ([], r1)
      | [] => ([], r1)
      end in
    if (List.length ip + List.length fp =? 0)%nat then None
    else
      let exp :=
        match r2 with
        | [] => Some 0%Z
        | c :: r =>
            if ((nat_of_ascii c =? 101) || (nat_of_ascii c =? 69))%nat then
              let '(eneg, r') :=
                match r with
                | s :: r' => if (nat_of_ascii s =? 45)%nat then (true, r')
                             else if (nat_of_ascii s =? 43)%nat then (false, r')
                             else (false, r)
                | [] => (false, r)
                end in
              match split_digits r' with
              | ([], _) => None
              | (ed, []) => Some (if eneg then - Json.digits_value ed else Json.digits_value ed)%Z
              | (_, _ :: _) => None
              end
            else None
        end in
      match exp with
      | None => None
      | Some e =>
          Some (decimal_value neg (Json.digits_value (ip ++ fp)) (e - Z.of_nat (List.length fp))%Z)
      end.

(** [x as usize]: truncation toward zero, saturating at [0] and
    [usize::MAX]; NaN is [0]. *)
Definition f64_to_usize (x : F64.f64) : Z :=
  match x with
  | S754_zero _ => 0
  | S754_infinity false => usize_MAX
  | S754_infinity true => 0
  | S754_nan => 0
  | S754_finite true _ _ => 0
  | S754_finite false m e =>
      let v := if (0 <=? e)%Z then (Z.pos m * 2 ^ e)%Z else (Z.pos m / 2 ^ (- e))%Z in
      Z.min v usize_MAX
  end.

(** [str::parse::<usize>]: an optional [+], then at least one digit,
    no overflow. *)
Definition parse_usize (s : string) : option Z :=
  let l := list_ascii_of_string s in
  let body := match l with
              | c :: r => if (nat_of_ascii c =? 43)%nat then r else l
              | [] => l
              end in
  match split_digits body with
  | ([], _) => None
  | (d, []) => let v := Json.digits_value d in if (v <=? usize_MAX)%Z then Some v else None
  | (_, _ :: _) => None
  end.

Definition is_unknown_marker (s : string) : bool :=
  existsb (String.eqb s) ["nan"; "n/a"; "unlimited"; "--"; "-"; ""]%string.

(** [parse_token_limit] *)
Definition parse_token_limit (limit_str0 : string) : result Z string :=
  let limit_str := to_lowercase (trim limit_str0) in
  if is_unknown_marker limit_str then Ok usize_MAX
  else if ends_with_char "k"%char limit_str then
    let base := remove_char ","%char (trim_end_matches "k"%char limit_str) in
    match parse_f64 base with
    | Some base_value => Ok (f64_to_usize (F64.mul base_value (F64.of_Z 1000)))
    | None => Err ("Failed to parse token limit with k suffix: " ++ limit_str)%string
    end
  else if ends_with_char "m"%char limit_str then
    let base := remove_char ","%char (trim_end_matches "m"%char limit_str) in
    match parse_f64 base with
    | Some base_value => Ok (f64_to_usize (F64.mul base_value (F64.of_Z 1000000)))
    | None => Err ("Failed to parse token limit with M suffix: " ++ limit_str)%string
    end
  else
    let cleaned := remove_char ","%char limit_str in
    match parse_usize cleaned with
    | Some v => Ok v
    | None => Err ("Failed to parse token limit: " ++ limit_str)%string
    end.

(** [parse_cost]: the sentinel test looks at the raw cell; the number is
    read from the cell with every character but digits and [.] removed. *)
Definition parse_cost (cost_str : string) : result F64.f64 string :=
  let cleaned := string_of_list_ascii
                   (filter (fun c => is_digit c || ascii_eqb c "."%char)
                           (list_ascii_of_string (remove_char "$"%char cost_str))) in
  if is_unknown_marker cost_str then Ok F64.neg_one
  else match parse_f64 cleaned with
       | Some v => Ok v
       | None => Err ("Failed to parse cost value: " ++ cost_str)%string
       end.

(** [str::split(c)]: every piece, empty ones included. *)
Fixpoint split_char (c : ascii) (s : string) : list string :=
  match s with
  | EmptyString => [EmptyString]
  | String d s' =>
      if ascii_eqb d c then EmptyString :: split_char c s'
      else match split_char c s' with
           | p :: ps => String d p :: ps
           | [] => [String d EmptyString]
           end
  end.

Definition strip_cr (s : string) : string :=
  if ends_with_char (ascii_of_nat 13) s
  then string_of_list_ascii (removelast (list_ascii_of_string s)) else s.

(** [str::lines()]: split at line feeds, a final empty piece dropped,
    a carriage return before the line feed removed. *)
Definition lines (s : string) : list string :=
  let pieces := split_char (ascii_of_nat 10) s in
  let pieces := match rev pieces with
                | EmptyString :: r => rev r
                | _ => pieces
                end in
  map strip_cr pieces.

Fixpoint contains (needle hay : string) : bool :=
  starts_with needle hay ||
  match hay with
  | EmptyString => false
  | String _ h => contains needle h
  end.

(** [HashMap::insert] *)
Definition table_insert (m : PricingTable) (k : string) (v : ModelPricing) : PricingTable :=
  filter (fun p => negb (String.eqb (fst p) k)) m ++ [(k, v)].

Definition row_columns (line : string) : list string :=
  filter (fun s => negb (String.eqb s "")) (map trim (split_char "|"%char line)).

(** The [for line in lines] loop over the rows after the header. *)
Fixpoint parse_rows (model_name : option string) (rows : list string) (models : PricingTable)
  : result PricingTable string :=
  match rows with
  | [] => Ok models
  | line :: rest =>
      if match model_name with Some n => negb (contains n line) | None => false end
      then parse_rows model_name rest models
      else if negb (starts_with "|" line) then Ok models
      else
        match row_columns line with
        | c0 :: c1 :: c2 :: c3 :: c4 :: _ =>
            let name := trim c0 in
            match parse_cost c1 with
            | Err e => Err e
            | Ok input_cost =>
                match parse_cost c2 with
                | Err e => Err e
                | Ok output_cost =>
                    match parse_token_limit c3 with
                    | Err e => Err e
                    | Ok max_prompt =>
                        match parse_token_limit c4 with
                        | Err e => Err e
                        | Ok max_output =>
                            parse_rows model_name rest
                              (table_insert models name
                                 (mkModelPricing name input_cost output_cost max_prompt max_output))
                        end
                    end
                end
            end
        | _ => parse_rows model_name rest models
        end
  end.

Fixpoint after_header (ls : list string) : option (list string) :=
  match ls with
  | [] => None
  | l :: r => if starts_with "| Model Name" l then Some (tl r) else after_header r
  end.

(** [parse_pricing_table] *)
Definition parse_pricing_table (markdown : string) (model_name : option string)
  : result PricingTable string :=
  match after_header (lines markdown) with
  | None => Err "Could not find the pricing table header in the markdown"%string
  | Some rows =>
      match parse_rows model_name rows [] with
      | Err e => Err e
      | Ok [] => Err "No model pricing information found in the table"%string
      | Ok models => Ok models
      end
  end.

End PriceParse.
Import PriceParse.

(** ** Startup: [fetch_model_pricing], [ClauChatApp::new] and [init] *)
Module Startup.

(** What fetching the pricing page yields: [reqwest::get] fails with a
    network error, or a response arrives and reading its body as text
    succeeds or fails. *)
Inductive FetchOutcome : Type :=
| GetFailed (e : string)
| GotResponse (body : result string string).

(** [fetch_model_pricing]; [None] is the panic of [unwrap] on a table
    that does not parse. *)
Definition fetch_model_pricing (model_name : option string) (r : FetchOutcome)
  : option (result (option PricingTable) string) :=
  match r with
  | GetFailed _ => Some (Ok None)
  | GotResponse (Err _) => Some (Err "Failed to extract text from response"%string)
  | GotResponse (Ok markdown_content) =>
      match parse_pricing_table markdown_content model_name with
      | Ok m => Some (Ok (Some m))
      | Err _ => None
      end
  end.

Definition MODEL : string := "claude-3-7-sonnet-20250219".

(** [ClauChatApp::new]: [block_on(fetch_model_pricing(Some(MODEL))).unwrap()];
    [config_key] is the API key of [Config::load().unwrap_or_default()].
    [None] is a panic, which aborts startup. *)
Definition app_new (config_key : string) (r : FetchOutcome) : option ClauChatApp :=
  match fetch_model_pricing (Some MODEL) r with
  | None => None
  | Some (Err _) => None
  | Some (Ok price_data) =>
      let client := if String.eqb config_key "" then None
                    else Some (mkClient config_key MODEL) in
      Some (mkApp EmptyString [mkMessage Assistant "How can I help you?"%string] false
                  config_key client None None MODEL price_data F64.zero)
  end.

(** The pricing lookup of [init] ([.and_then(...).unwrap()]); [init] is
    not called by [main] or by [ClauChatApp::new]. *)
Definition init_model_price (a : ClauChatApp) : option ModelPricing :=
  match pricing_data a with
  | Some t => table_get t (model a)
  | None => None
  end.

End Startup.
Import Startup.

(** ** Token cost estimator: [token_count_heuristic], [get_tokens_heur_price] *)
Module Estimator.

Inductive TokenType := InputToken | OutputToken.

Section Heuristic.

(** [cl100k_base()] of tiktoken-rs, an external library: the tokenizer's
    [encode_ordinary], or the error text of loading it. *)
Variable cl100k_base : result (string -> list Z) string.

Definition token_count_heuristic (content : string) : result Z string :=
  match cl100k_base with
  | Ok bpe => Ok (Z.of_nat (List.length (bpe content)))
  | Err e => Err e
  end.

Definition get_tokens_heur_price (content : string) (toktype : TokenType)
  (model_price : ModelPricing) : result F64.f64 string :=
  match token_count_heuristic content with
  | Err e => Err e
  | Ok token_count =>
      match toktype with
      | InputToken =>
          Ok (F64.mul (input_cost_per_million model_price)
                      (F64.div (F64.of_Z token_count) F64.million))
      | OutputToken =>
          Ok (F64.mul (output_cost_per_million model_price)
                      (F64.div (F64.of_Z token_count) F64.million))
      end
  end.

End Heuristic.

End Estimator.
Import Estimator.

(** ** [chat_render.rs]: code blocks in a message

    Offsets are byte offsets. The slices the code takes all start and end
    at a line start, a line end or a match of an ASCII pattern, which are
    character boundaries, so no slice panics. [render_message_content]
    yields the widgets it adds to the [Ui], in order. *)
Module ChatRender.

(** [&s[i..j]] *)
Definition slice (s : string) (i j : nat) : string := substring i (j - i) s.

(** [&s[i..]] *)
Definition slice_from (s : string) (i : nat) : string := substring i (String.length s - i) s.

(** [str::find] with a string pattern: the offset of the first match. *)
Fixpoint find (needle hay : string) : option nat :=
  if starts_with needle hay then Some 0
  else match hay with
       | EmptyString => None
       | String _ h => option_map S (find needle h)
       end.

(** [content.char_indices().filter_map(...)]: the offset after each line
    feed. The line feed is the byte 10, which is part of no other UTF-8
    character, so the scan is over bytes. *)
Fixpoint newline_ends (s : string) (idx : nat) : list nat :=
  match s with
  | EmptyString => []
  | String c s' =>
      if ascii_eqb c (ascii_of_nat 10) then S idx :: newline_ends s' (S idx)
      else newline_ends s' (S idx)
  end.

(** [acc.last().map_or(0, |&(_, end)| end)] *)
Definition prev_end (acc : list (nat * nat)) : nat :=
  match rev acc with
  | [] => 0
  | (_, e) :: _ => e
  end.

(** The [line_positions] of [find_code_blocks]: the [fold], then the last
    line when the content does not end with a line feed. *)
Definition line_positions (content : string) : list (nat * nat) :=
  let lp := fold_left (fun acc pos => acc ++ [(prev_end acc, pos)]) (newline_ends content 0) [] in
  let content_len := String.length content in
  if match lp with [] => true | _ => false end || (prev_end lp <? content_len)
  then lp ++ [(prev_end lp, content_len)]
  else lp.

(** The mutable locals of [find_code_blocks]. *)
Record ScanState : Type := mkScan {
  blocks : list (nat * nat * option string);
  in_code_block : bool;
  start_idx : nat;
  language : option string }.

(** The body of [for &(line_start, line_end) in line_positions.iter()]. *)
Definition scan_line (content : string) (st : ScanState) (pos : nat * nat) : ScanState :=
  let '(line_start, line_end) := pos in
  if negb (line_start <? line_end) then st
  else
    let line_trimmed := trim (slice content line_start line_end) in
    if starts_with "```" line_trimmed then
      if negb (in_code_block st) then
        let lang := match strip_prefix "```" line_trimmed with
                    | Some remainder => trim remainder
                    | None => EmptyString
                    end in
        mkScan (blocks st) true line_start
               (if String.eqb lang EmptyString then None else Some lang)
      else if start_idx st <? line_end then
        mkScan (blocks st ++ [(start_idx st, line_end, language st)]) false (start_idx st) None
      else mkScan (blocks st) false (start_idx st) (language st)
    else st.

(** [find_code_blocks]: each block as [(start, end, language)]. *)
Definition find_code_blocks (content : string) : list (nat * nat * option string) :=
  let st := fold_left (scan_line content) (line_positions content) (mkScan [] false 0 None) in
  if in_code_block st
  then blocks st ++ [(start_idx st, String.length content, language st)]
  else blocks st.

(** [extract_code] *)
Definition extract_code (text : string) (lang : option string) : string :=
  let start_marker := ("```" ++ match lang with Some l => l | None => EmptyString end)%string in
  match find start_marker text with
  | None => EmptyString
  | Some pos =>
      let start_pos := pos + String.length start_marker in
      let end_pos := match find "```" (slice_from text start_pos) with
                     | Some p => start_pos + p
                     | None => String.length text
                     end in
      trim (slice text start_pos end_pos)
  end.

(** What [render_message_content] adds to the [Ui]: a [ui.label] of
    text, or a [render_highlighted_code] of code and its language. *)
Inductive Widget : Type :=
| Label (text : string)
| Code (code : string) (lang : option string).

(** The body of the loop over the blocks; the accumulator pairs the
    widgets added so far with [last_end]. *)
Definition render_block (content : string) (acc : list Widget * nat)
  (block : nat * nat * option string) : list Widget * nat :=
  let '(ws, last_end) := acc in
  let '(bstart, bend, lang) := block in
  let ws := if last_end <? bstart then ws ++ [Label (slice content last_end bstart)] else ws in
  if bend <=? bstart then (ws, last_end)
  else (ws ++ [Code (extract_code (slice content bstart bend) lang) lang], bend).

(** [render_message_content] *)
Definition render_message_content (content : string) : list Widget :=
  let '(ws, last_end) := fold_left (render_block content) (find_code_blocks content) ([], 0) in
  if last_end <? String.length content
  then ws ++ [Label (slice_from content last_end)]
  else ws.

End ChatRender.
Import ChatRender.

(** ** Vocabulary of the statements *)
Module Vocab.

(** [t1 + t2 + ... + tn] *)
Definition join (ts : list string) : string := fold_right String.append EmptyString ts.

(** A [data:] line with the given payload, as [LinesStream] yields it. *)
Definition data_line (payload : string) : result string string :=
  Ok ("data: " ++ payload)%string.

(** A line that [event_stream] never turns into an item by its prefix. *)
Definition non_data_line (l : string) : Prop := starts_with "data: " l = false.

(** A payload that serde reads as a text increment. *)
Definition text_delta_payload (payload t : string) : Prop :=
  exists i, from_str payload = Some (ContentBlockDelta i (mkDelta "text_delta" t)).

Definition count_complete (ds : list AppMessageDelta) : nat :=
  List.length (filter d_is_complete ds).

(** An item that ends the task's loop: an error, or a complete buffer. *)
Definition terminal_item (x : result StreamingBuffer string) : bool :=
  match x with Ok b => sb_is_complete b | Err _ => true end.

End Vocab.
Import Vocab.

(** * Proofs *)

(** ** Rounding of the binary64 operations

    The estimate [c * (n as f64 / 1000000.0)] goes through three correctly
    rounded operations. The section below characterises the results of
    [binary_normalize], [SFmul] and [SFdiv] of [SpecFloat] on positive
    operands by a relation [rnd x R E] (the exact value [x] rounds, to
    nearest with ties to even, to [R * 2^E]) over the rationals, and proves
    that this rounding is monotone and that [SFleb] compares the outputs as
    it compares the rounded values. It is then instantiated at binary64. *)
Module Binary64Rounding.

Section Rounding.

Variables prec emax : Z.
Hypothesis Hprec : (1 <= prec)%Z.
Hypothesis Hemin : (3 <= emax + prec)%Z.

Let fexp := SpecFloat.fexp prec emax.
Let emin := SpecFloat.emin prec emax.

Lemma fexp_mono (a b : Z) : (a <= b)%Z -> (fexp a <= fexp b)%Z.
Proof. unfold fexp, SpecFloat.fexp. lia. Qed.

Lemma fexp_ge_emin (a : Z) : (emin <= fexp a)%Z.
Proof. unfold fexp, SpecFloat.fexp. fold emin. lia. Qed.

Lemma fexp_ge (a : Z) : (a - prec <= fexp a)%Z.
Proof. unfold fexp, SpecFloat.fexp. lia. Qed.

Lemma fexp_above (a : Z) : (emin < fexp a)%Z -> fexp a = (a - prec)%Z.
Proof. unfold fexp, SpecFloat.fexp. fold emin. lia. Qed.

Lemma emin_nonpos : (emin <= 0)%Z.
Proof. unfold emin, SpecFloat.emin. lia. Qed.

Lemma digits2_pos_size (p : positive) : digits2_pos p = Pos.size p.
Proof. induction p as [p IH|p IH|]; cbn; rewrite ?IH; reflexivity. Qed.

Lemma digits_bounds (p : positive) :
  (2 ^ (Zpos (digits2_pos p) - 1) <= Zpos p < 2 ^ Zpos (digits2_pos p))%Z.
Proof.
  rewrite digits2_pos_size.
  pose proof (Pos.size_le p) as H1. pose proof (Pos.size_gt p) as H2.
  apply Pos2Z.pos_le_pos in H1. apply Pos2Z.pos_lt_pos in H2.
  rewrite Pos2Z.inj_pow in H1, H2. change (Z.pos p~0) with (2 * Z.pos p)%Z in H1.
  split; [|exact H2].
  assert (Hs : (0 <= Zpos (Pos.size p) - 1)%Z) by lia.
  replace (Zpos (Pos.size p)) with (Zpos (Pos.size p) - 1 + 1)%Z in H1 by lia.
  rewrite Z.pow_add_r, Z.pow_1_r in H1 by lia. lia.
Qed.

Local Open Scope Q_scope.

Definition P (e : Z) : Q := 2 ^ e.

Lemma two_nz : ~ 2 == 0.
Proof. discriminate. Qed.

Lemma P_pos (e : Z) : 0 < P e.
Proof. apply Qpower_0_lt. reflexivity. Qed.

Lemma P_add (a b : Z) : P (a + b) == P a * P b.
Proof. apply Qpower_plus. exact two_nz. Qed.

Lemma P_le (a b : Z) : (a <= b)%Z -> P a <= P b.
Proof. intros H. apply Qpower_le_compat_l; [exact H | discriminate]. Qed.

Lemma P_lt (a b : Z) : (a < b)%Z -> P a < P b.
Proof. intros H. apply Qpower_lt_compat_l; [exact H | reflexivity]. Qed.

Lemma P_Z (e : Z) : (0 <= e)%Z -> P e == inject_Z (2 ^ e).
Proof. intros H. unfold P. rewrite Zpower_Qpower by exact H. reflexivity. Qed.

Lemma P_one : P 1 == 2.
Proof. reflexivity. Qed.

Lemma P_neg_one : P (-1) == 1 # 2.
Proof. reflexivity. Qed.

Lemma div_P_succ (x : Q) (e : Z) : x / P (e + 1) == (x / P e) / 2.
Proof.
  rewrite P_add, P_one. pose proof (P_pos e).
  field. intros H'. rewrite H' in H. discriminate H.
Qed.

(** [loc_ok t m l]: the scaled value [t] lies in [[m, m+1)] at the place
    [l] says: on [m], below, on or above the midpoint. *)
Definition loc_ok (t : Q) (m : Z) (l : location) : Prop :=
  match l with
  | loc_Exact => t == inject_Z m
  | loc_Inexact Lt => inject_Z m < t /\ t < inject_Z m + (1 # 2)
  | loc_Inexact Eq => t == inject_Z m + (1 # 2)
  | loc_Inexact Gt => inject_Z m + (1 # 2) < t /\ t < inject_Z m + 1
  end.

Definition inb (x : Q) (m e : Z) (l : location) : Prop := loc_ok (x / P e) m l.

Lemma loc_ok_compat (t t' : Q) (m : Z) (l : location) :
  t == t' -> loc_ok t m l -> loc_ok t' m l.
Proof. intros H. destruct l as [|[]]; cbn; rewrite H; tauto. Qed.

Lemma loc_ok_bounds (t : Q) (m : Z) (l : location) :
  loc_ok t m l -> inject_Z m <= t /\ t < inject_Z m + 1.
Proof. destruct l as [|[]]; cbn; intros H; lra. Qed.

Lemma inject_Z_xO (p : positive) : inject_Z (Zpos p~0) == 2 * inject_Z (Zpos p).
Proof. unfold Qeq. cbn. lia. Qed.

Lemma inject_Z_xI (p : positive) : inject_Z (Zpos p~1) == 2 * inject_Z (Zpos p) + 1.
Proof. unfold Qeq. cbn. lia. Qed.

Lemma shr_1_loc (t : Q) (r : shr_record) :
  (0 <= shr_m r)%Z -> loc_ok t (shr_m r) (loc_of_shr_record r) ->
  (0 <= shr_m (shr_1 r))%Z /\ loc_ok (t / 2) (shr_m (shr_1 r)) (loc_of_shr_record (shr_1 r)).
Proof.
  destruct r as [m rr ss]. cbn [shr_m]. intros Hm Hl.
  destruct m as [|p|p]; [| |lia].
  - destruct rr, ss; cbn in Hl |- *; split; try lia;
      change (inject_Z 0) with 0 in *; change (t / 2) with (t * (1 # 2)); lra.
  - destruct p as [p|p|]; destruct rr, ss; cbn [shr_1 loc_of_shr_record orb shr_m loc_ok] in Hl |- *;
      split; try lia; rewrite ?inject_Z_xO, ?inject_Z_xI in Hl; cbn in Hl |- *;
      change (inject_Z 0) with 0 in *; change (t / 2) with (t * (1 # 2)); change (inject_Z 1) with 1 in *; lra.
Qed.

Lemma shr_1_inb (x : Q) (e : Z) (r : shr_record) :
  (0 <= shr_m r)%Z -> inb x (shr_m r) e (loc_of_shr_record r) ->
  (0 <= shr_m (shr_1 r))%Z /\ inb x (shr_m (shr_1 r)) (e + 1) (loc_of_shr_record (shr_1 r)).
Proof.
  unfold inb. intros Hm H. destruct (shr_1_loc _ _ Hm H) as [H1 H2].
  split; [exact H1|]. apply (loc_ok_compat _ _ _ _ (Qeq_sym _ _ (div_P_succ x e))). exact H2.
Qed.

Lemma iter_shr_1_inb (x : Q) (p : positive) :
  forall (e : Z) (r : shr_record),
  (0 <= shr_m r)%Z -> inb x (shr_m r) e (loc_of_shr_record r) ->
  (0 <= shr_m (SpecFloat.iter_pos shr_1 p r))%Z /\
  inb x (shr_m (SpecFloat.iter_pos shr_1 p r)) (e + Zpos p) (loc_of_shr_record (SpecFloat.iter_pos shr_1 p r)).
Proof.
  induction p as [p IH|p IH|]; intros e r Hm H; cbn [SpecFloat.iter_pos].
  - destruct (shr_1_inb x e r Hm H) as [H1 H2].
    destruct (IH _ _ H1 H2) as [H3 H4].
    destruct (IH _ _ H3 H4) as [H5 H6].
    split; [exact H5|]. replace (e + Z.pos p~1)%Z with (e + 1 + Z.pos p + Z.pos p)%Z by lia.
    exact H6.
  - destruct (IH _ _ Hm H) as [H3 H4].
    destruct (IH _ _ H3 H4) as [H5 H6].
    split; [exact H5|]. replace (e + Z.pos p~0)%Z with (e + Z.pos p + Z.pos p)%Z by lia.
    exact H6.
  - exact (shr_1_inb x e r Hm H).
Qed.

Lemma loc_of_record_of_loc (m : Z) (l : location) :
  loc_of_shr_record (shr_record_of_loc m l) = l /\ shr_m (shr_record_of_loc m l) = m.
Proof. destruct l as [|[]]; split; reflexivity. Qed.

Lemma shr_inb (x : Q) (m e n : Z) (l : location) :
  (0 <= m)%Z -> inb x m e l ->
  (0 <= shr_m (fst (shr (shr_record_of_loc m l) e n)))%Z /\
  inb x (shr_m (fst (shr (shr_record_of_loc m l) e n))) (snd (shr (shr_record_of_loc m l) e n))
        (loc_of_shr_record (fst (shr (shr_record_of_loc m l) e n))) /\
  snd (shr (shr_record_of_loc m l) e n) = Z.max e (e + n).
Proof.
  intros Hm H. destruct (loc_of_record_of_loc m l) as [E1 E2].
  destruct n as [|p|p]; cbn [shr fst snd].
  - rewrite E1, E2. repeat split; [exact Hm | exact H | lia].
  - assert (H' : inb x (shr_m (shr_record_of_loc m l)) e
                     (loc_of_shr_record (shr_record_of_loc m l))) by (rewrite E1, E2; exact H).
    assert (Hm' : (0 <= shr_m (shr_record_of_loc m l))%Z) by (rewrite E2; exact Hm).
    destruct (iter_shr_1_inb x p e _ Hm' H') as [H1 H2].
    repeat split; [exact H1 | exact H2 | lia].
  - rewrite E1, E2. repeat split; [exact Hm | exact H | lia].
Qed.

Lemma Zdigits2_pos (p : positive) : Zdigits2 (Zpos p) = Zpos (digits2_pos p).
Proof. reflexivity. Qed.

(** The first step of [binary_round_aux]: when the input exponent is at
    most the canonical one, the shift lands on the canonical exponent of
    the magnitude [digits m + e]. *)
Lemma shr_fexp_inb (x : Q) (m : positive) (e : Z) (l : location) :
  (e <= fexp (Zpos (digits2_pos m) + e))%Z -> inb x (Zpos m) e l ->
  (0 <= shr_m (fst (shr_fexp prec emax (Zpos m) e l)))%Z /\
  inb x (shr_m (fst (shr_fexp prec emax (Zpos m) e l))) (snd (shr_fexp prec emax (Zpos m) e l))
        (loc_of_shr_record (fst (shr_fexp prec emax (Zpos m) e l))) /\
  snd (shr_fexp prec emax (Zpos m) e l) = fexp (Zpos (digits2_pos m) + e).
Proof.
  intros He H. unfold shr_fexp. rewrite Zdigits2_pos.
  destruct (shr_inb x (Zpos m) e (SpecFloat.fexp prec emax (Zpos (digits2_pos m) + e) - e) l
              ltac:(lia) H) as [H1 [H2 H3]].
  split; [exact H1|]. split; [exact H2|]. rewrite H3. fold fexp. lia.
Qed.

(** The magnitude of a value read off its first representation. *)
Lemma inb_mag (x : Q) (m : positive) (e : Z) (l : location) :
  inb x (Zpos m) e l ->
  P (Zpos (digits2_pos m) + e - 1) <= x /\ x < P (Zpos (digits2_pos m) + e).
Proof.
  intros H. apply loc_ok_bounds in H. destruct (digits_bounds m) as [D1 D2].
  set (d := Zpos (digits2_pos m)) in *.
  assert (Hd : (1 <= d)%Z) by (unfold d; lia).
  assert (Q1 : P (d - 1) <= inject_Z (Zpos m)).
  { rewrite P_Z by lia. rewrite <- Zle_Qle. exact D1. }
  assert (Q2 : inject_Z (Zpos m) + 1 <= P d).
  { rewrite P_Z by lia. change (inject_Z (Zpos m) + 1) with (inject_Z (Zpos m) + inject_Z 1).
    rewrite <- inject_Z_plus, <- Zle_Qle. lia. }
  pose proof (P_pos e) as Pe.
  assert (Ex : x == (x / P e) * P e) by (field; intros Z0; rewrite Z0 in Pe; discriminate Pe).
  replace (d + e - 1)%Z with (d - 1 + e)%Z by lia.
  rewrite !P_add. destruct H as [H1 H2]. split.
  - rewrite Ex. apply Qmult_le_compat_r; [lra | lra].
  - rewrite Ex. apply Qmult_lt_compat_r; [exact Pe | lra].
Qed.

Lemma digits_unique (p : positive) (k : Z) :
  (2 ^ (k - 1) <= Zpos p < 2 ^ k)%Z -> Zpos (digits2_pos p) = k.
Proof.
  intros [H1 H2]. destruct (digits_bounds p) as [D1 D2].
  set (d := Zpos (digits2_pos p)) in *.
  assert (Hd : (1 <= d)%Z) by (unfold d; lia).
  assert (Hk : (1 <= k)%Z).
  { destruct (Z.le_gt_cases 1 k) as [Hk|Hk]; [exact Hk|].
    destruct (Z.eq_dec k 0) as [->|Hk0]; [cbn in H2; lia|].
    rewrite (Z.pow_neg_r 2 k) in H2 by lia. lia. }
  destruct (Z.lt_trichotomy d k) as [Hlt|[Heq|Hgt]]; [|exact Heq|].
  - assert (2 ^ d <= 2 ^ (k - 1))%Z by (apply Z.pow_le_mono_r; lia). lia.
  - assert (2 ^ k <= 2 ^ (d - 1))%Z by (apply Z.pow_le_mono_r; lia). lia.
Qed.

Lemma rne_cases (M : Z) (L : location) :
  round_nearest_even M L = M \/
  (round_nearest_even M L = (M + 1)%Z /\ (L = loc_Inexact Eq \/ L = loc_Inexact Gt)).
Proof.
  destruct L as [|[]]; cbn [round_nearest_even]; auto.
  destruct (Z.even M); auto.
Qed.

Lemma loc_ok_half (t : Q) (M : Z) (L : location) :
  loc_ok t M L -> (L = loc_Inexact Eq \/ L = loc_Inexact Gt) -> inject_Z M + (1 # 2) <= t.
Proof. intros H [-> | ->]; cbn in H; lra. Qed.

Lemma P_div_lt (x : Q) (a b : Z) : x < P a -> x / P b < P (a - b).
Proof.
  intros H. pose proof (P_pos b) as Pb.
  assert (E : P a == P (a - b) * P b) by (rewrite <- P_add; replace (a - b + b)%Z with a by lia; reflexivity).
  apply Qlt_shift_div_r; [exact Pb|]. rewrite <- E. exact H.
Qed.

Lemma P_div_le (x : Q) (a b : Z) : P a <= x -> P (a - b) <= x / P b.
Proof.
  intros H. pose proof (P_pos b) as Pb.
  assert (E : P a == P (a - b) * P b) by (rewrite <- P_add; replace (a - b + b)%Z with a by lia; reflexivity).
  apply Qle_shift_div_l; [exact Pb|]. rewrite <- E. exact H.
Qed.

(** Integer parts: an integer at most a value below [K] is below [K]. *)
Lemma Z_of_Q_lt (a b : Z) (t : Q) : inject_Z a <= t -> t < inject_Z b -> (a < b)%Z.
Proof. intros H1 H2. rewrite Zlt_Qlt. lra. Qed.

Lemma Z_of_Q_le (a b : Z) (t : Q) : inject_Z a <= t -> t < inject_Z b + 1 -> (a <= b)%Z.
Proof.
  intros H1 H2. assert (a < b + 1)%Z; [|lia].
  rewrite Zlt_Qlt, inject_Z_plus. change (inject_Z 1) with 1. lra.
Qed.

Section PosFacts.
Variables (x : Q) (R E M : Z) (L : location) (mag : Z).
Hypothesis H1 : P (mag - 1) <= x.
Hypothesis H2 : x < P mag.
Hypothesis HE : E = fexp mag.
Hypothesis HM : (0 <= M)%Z.
Hypothesis HL : inb x M E L.
Hypothesis HR : R = round_nearest_even M L.

Lemma pos_R_ge_M : (M <= R)%Z.
  Proof. destruct (rne_cases M L) as [H|[H _]]; rewrite HR, H; lia. Qed.

Lemma pos_R_upper : (0 <= R <= 2 ^ prec)%Z /\ inject_Z R * P E <= P mag.
  Proof.
    pose proof pos_R_ge_M as HMR.
    pose proof (loc_ok_bounds _ _ _ HL) as [B1 B2].
    pose proof (P_div_lt x mag E H2) as T.
    pose proof (fexp_ge mag) as F. fold fexp in F. rewrite <- HE in F.
    pose proof (P_pos E) as PE.
    destruct (Z.le_gt_cases 0 (mag - E)) as [K|K].
    - assert (T2 : x / P E < inject_Z (2 ^ (mag - E))) by (rewrite <- P_Z by exact K; exact T).
      clear T. rename T2 into T.
      assert (MK : (M < 2 ^ (mag - E))%Z) by (apply (Z_of_Q_lt _ _ _ B1 T)).
      assert (RK : (R <= 2 ^ (mag - E))%Z).
      { destruct (rne_cases M L) as [H|[H _]]; rewrite HR, H; lia. }
      assert (KP : (2 ^ (mag - E) <= 2 ^ prec)%Z) by (apply Z.pow_le_mono_r; lia).
      split; [lia|].
      replace (P mag) with (P (mag - E + E)) by (f_equal; lia).
      rewrite P_add, (P_Z (mag - E)) by exact K. apply Qmult_le_compat_r; [|lra].
      rewrite <- Zle_Qle. exact RK.
    - assert (T' : x / P E < 1 # 2).
      { apply (Qlt_le_trans _ _ _ T). rewrite <- P_neg_one. apply P_le. lia. }
      assert (M0 : M = 0%Z).
      { assert (M < 1)%Z; [|lia]. apply (Z_of_Q_lt _ _ _ B1). change (inject_Z 1) with 1. lra. }
      assert (R0 : R = 0%Z).
      { destruct (rne_cases M L) as [H|[_ H]]; [rewrite HR, H; exact M0|].
        pose proof (loc_ok_half _ _ _ HL H) as Hh. rewrite M0 in Hh.
        change (inject_Z 0) with 0 in Hh. lra. }
      rewrite R0. split; [split; [lia|apply Z.pow_nonneg; lia]|].
      change (inject_Z 0) with 0. pose proof (P_pos mag). lra.
  Qed.

Lemma pos_R_lower : (emin < E)%Z -> (2 ^ (prec - 1) <= M)%Z /\ inject_Z M * P E >= P (mag - 1).
  Proof.
    intros He. rewrite HE in He. apply fexp_above in He.
    pose proof (loc_ok_bounds _ _ _ HL) as [B1 B2].
    pose proof (P_div_le x (mag - 1) E H1) as T.
    replace (mag - 1 - E)%Z with (prec - 1)%Z in T by lia.
    assert (T2 : inject_Z (2 ^ (prec - 1)) <= x / P E) by (rewrite <- P_Z by lia; exact T).
    clear T. rename T2 into T.
    assert (MK : (2 ^ (prec - 1) <= M)%Z) by (apply (Z_of_Q_le _ _ _ T B2)).
    split; [exact MK|].
    replace (P (mag - 1)) with (P (prec - 1 + E)) by (f_equal; lia).
    rewrite P_add, P_Z by lia. apply Qmult_le_compat_r; [|apply Qlt_le_weak, P_pos].
    rewrite <- Zle_Qle. exact MK.
  Qed.

End PosFacts.

(** [rnd x R E]: rounding the non-negative value [x] to nearest, ties to
    even, gives the integer [R] at the canonical exponent [E]. *)
Definition rnd (x : Q) (R E : Z) : Prop :=
  (x == 0 /\ R = 0%Z /\ E = emin) \/
  (0 < x /\ exists (M : Z) (L : location) (mag : Z),
     P (mag - 1) <= x /\ x < P mag /\ E = fexp mag /\ (0 <= M)%Z /\
     inb x M E L /\ R = round_nearest_even M L).

(** The shape of a rounded integer at its exponent. *)
Definition canon (R E : Z) : Prop :=
  (0 <= R <= 2 ^ prec)%Z /\ (emin <= E)%Z /\
  (0 < R -> emin < E -> 2 ^ (prec - 1) <= R)%Z.

Lemma rnd_canon (x : Q) (R E : Z) : rnd x R E -> canon R E.
Proof.
  intros [[_ [-> ->]]|[Hx [M [L [mag [H1 [H2 [HE [HM [HL HR]]]]]]]]]].
  - split; [split; [lia|apply Z.pow_nonneg; lia]|split; [lia|lia]].
  - destruct (pos_R_upper x R E M L mag H2 HE HM HL HR) as [U _].
    split; [exact U|]. split; [rewrite HE; apply fexp_ge_emin|].
    intros _ He. destruct (pos_R_lower x E M L mag H1 HE HL He) as [Hl _].
    pose proof (pos_R_ge_M R M L HR). lia.
Qed.

Lemma rnd_nonneg_value (x : Q) (R E : Z) : rnd x R E -> 0 <= inject_Z R * P E.
Proof.
  intros H. destruct (rnd_canon x R E H) as [[H0 _] _].
  apply Qmult_le_0_compat; [rewrite <- (Zle_Qle 0); exact H0 | apply Qlt_le_weak, P_pos].
Qed.

Lemma loc_ok_lex (tx ty : Q) (Mx My : Z) (Lx Ly : location) :
  tx <= ty -> loc_ok tx Mx Lx -> loc_ok ty My Ly ->
  (round_nearest_even Mx Lx <= round_nearest_even My Ly)%Z.
Proof.
  intros T Hx Hy.
  pose proof (loc_ok_bounds _ _ _ Hx) as [X1 X2].
  pose proof (loc_ok_bounds _ _ _ Hy) as [Y1 Y2].
  destruct (Z.lt_trichotomy Mx My) as [Hlt|[Heq|Hgt]].
  - destruct (rne_cases Mx Lx) as [A|[A _]]; destruct (rne_cases My Ly) as [B|[B _]];
      rewrite A, B; lia.
  - subst My. set (m := inject_Z Mx) in *.
    destruct Lx as [|[]], Ly as [|[]]; cbn [round_nearest_even loc_ok] in *;
      try lia; try (destruct (Z.even Mx); lia); exfalso; lra.
  - exfalso. assert (My + 1 <= Mx)%Z as C by lia. rewrite Zle_Qle, inject_Z_plus in C.
    change (inject_Z 1) with 1 in C. lra.
Qed.

Lemma P_lt_inv (a b : Z) : P a < P b -> (a < b)%Z.
Proof. intros H. apply (Qpower_lt_compat_l_inv 2); [exact H | reflexivity]. Qed.

Lemma rnd_mono (x y : Q) (Rx Ex Ry Ey : Z) :
  rnd x Rx Ex -> rnd y Ry Ey -> x <= y -> inject_Z Rx * P Ex <= inject_Z Ry * P Ey.
Proof.
  intros Hx Hy Hxy.
  destruct Hx as [[X0 [-> ->]]|[Xp [Mx [Lx [gx [X1 [X2 [XE [XM [XL XR]]]]]]]]]].
  { change (inject_Z 0) with 0. rewrite Qmult_0_l. exact (rnd_nonneg_value y Ry Ey Hy). }
  destruct Hy as [[Y0 _]|[Yp [My [Ly [gy [Y1 [Y2 [YE [YM [YL YR]]]]]]]]]].
  { exfalso. lra. }
  assert (G : (gx <= gy)%Z).
  { assert (gx - 1 < gy)%Z; [|lia]. apply P_lt_inv. lra. }
  assert (EE : (Ex <= Ey)%Z) by (rewrite XE, YE; apply fexp_mono; exact G).
  destruct (Z.le_gt_cases Ey Ex) as [Eq|Lt].
  - assert (Ex = Ey) as <- by lia.
    assert (T : x / P Ex <= y / P Ex).
    { apply Qmult_le_compat_r; [exact Hxy|]. apply Qinv_le_0_compat, Qlt_le_weak, P_pos. }
    pose proof (loc_ok_lex _ _ _ _ _ _ T XL YL) as C. rewrite <- XR, <- YR in C.
    apply Qmult_le_compat_r; [rewrite <- Zle_Qle; exact C | apply Qlt_le_weak, P_pos].
  - assert (He : (emin < Ey)%Z) by (pose proof (fexp_ge_emin gx); lia).
    destruct (pos_R_lower y Ey My Ly gy Y1 YE YL He) as [_ Low].
    destruct (pos_R_upper x Rx Ex Mx Lx gx X2 XE XM XL XR) as [_ Up].
    assert (Ggt : (gx < gy)%Z).
    { destruct (Z.eq_dec gx gy) as [->|]; [rewrite XE, YE in Lt; lia | lia]. }
    pose proof (P_le gx (gy - 1) ltac:(lia)) as Pm.
    pose proof (pos_R_ge_M Ry My Ly YR) as MR.
    assert (inject_Z My * P Ey <= inject_Z Ry * P Ey).
    { apply Qmult_le_compat_r; [rewrite <- Zle_Qle; exact MR | apply Qlt_le_weak, P_pos]. }
    lra.
Qed.

(** The float [binary_round_aux] builds from a rounded integer [R] at
    exponent [E]: a mantissa of [prec + 1] digits is renormalised, and an
    exponent past [emax - prec] overflows. *)
Definition norm (R E : Z) : Z * Z :=
  if (R =? 2 ^ prec)%Z then (2 ^ (prec - 1), E + 1)%Z else (R, E).

Definition Out (R E : Z) : spec_float :=
  if (R =? 0)%Z then S754_zero false
  else if (snd (norm R E) <=? emax - prec)%Z
       then S754_finite false (Z.to_pos (fst (norm R E))) (snd (norm R E))
       else S754_infinity false.

Lemma pow_prec_xO : exists q : positive, Zpos q = (2 ^ (prec - 1))%Z /\ (2 ^ prec)%Z = Zpos q~0.
Proof.
  assert (H : (0 < 2 ^ (prec - 1))%Z) by (apply Z.pow_pos_nonneg; lia).
  destruct (2 ^ (prec - 1))%Z as [|q|q] eqn:Hq; [lia| |lia].
  exists q. split; [reflexivity|].
  replace prec with (prec - 1 + 1)%Z at 1 by lia. rewrite Z.pow_add_r, Hq by lia. lia.
Qed.

Lemma second_shift (R E : Z) :
  (0 <= R <= 2 ^ prec)%Z -> (emin <= E)%Z ->
  shr_fexp prec emax R E loc_Exact =
  (Build_shr_record (fst (norm R E)) false false, snd (norm R E)).
Proof.
  intros HR HE. unfold shr_fexp, norm. cbn [shr_record_of_loc].
  destruct (Z.eqb_spec R (2 ^ prec)) as [Hp|Hp].
  - destruct pow_prec_xO as [q [Hq Hq2]]. rewrite Hp, Hq2. cbn [Zdigits2].
    assert (D : Zpos (digits2_pos q~0) = (prec + 1)%Z).
    { apply digits_unique. rewrite <- Hq2. replace (prec + 1 - 1)%Z with prec by lia.
      split; [lia|]. apply Z.pow_lt_mono_r; lia. }
    rewrite D. unfold SpecFloat.fexp. fold emin.
    replace (Z.max (prec + 1 + E - prec) emin - E)%Z with 1%Z by lia.
    cbn [shr fst snd SpecFloat.iter_pos shr_1]. rewrite Hq; try reflexivity; f_equal; lia.
  - destruct R as [|p|p]; [|cbn [Zdigits2]|lia].
    + cbn [Zdigits2]. unfold SpecFloat.fexp. fold emin.
      destruct (Z.max (0 + E - prec) emin - E)%Z eqn:Hs; [reflexivity| |reflexivity]. lia.
    + assert (D : (Zpos (digits2_pos p) <= prec)%Z).
      { destruct (digits_bounds p) as [D1 D2].
        assert (2 ^ (Zpos (digits2_pos p) - 1) < 2 ^ prec)%Z by lia.
        apply Z.pow_lt_mono_r_iff in H; lia. }
      unfold SpecFloat.fexp. fold emin.
      destruct (Z.max (Zpos (digits2_pos p) + E - prec) emin - E)%Z eqn:Hs;
        [reflexivity| |reflexivity]. lia.
Qed.

Lemma round_aux_Out (m e : Z) (l : location) :
  (0 <= round_nearest_even (shr_m (fst (shr_fexp prec emax m e l)))
                           (loc_of_shr_record (fst (shr_fexp prec emax m e l))) <= 2 ^ prec)%Z ->
  (emin <= snd (shr_fexp prec emax m e l))%Z ->
  binary_round_aux prec emax false m e l =
  Out (round_nearest_even (shr_m (fst (shr_fexp prec emax m e l)))
                          (loc_of_shr_record (fst (shr_fexp prec emax m e l))))
      (snd (shr_fexp prec emax m e l)).
Proof.
  unfold binary_round_aux. destruct (shr_fexp prec emax m e l) as [mrs' e'].
  cbn [fst snd]. intros HR HE. rewrite (second_shift _ _ HR HE). cbn [shr_m].
  unfold Out. set (R := round_nearest_even (shr_m mrs') (loc_of_shr_record mrs')) in *.
  unfold norm. destruct (Z.eqb_spec R (2 ^ prec)) as [Hp|Hp]; cbn [fst snd].
  - destruct pow_prec_xO as [q [Hq _]]. rewrite <- Hq.
    destruct (Z.eqb_spec R 0); [lia|]. reflexivity.
  - destruct R as [|p|p]; [reflexivity|reflexivity|lia].
Qed.

(** Rounding a positive value given by a first representation whose
    exponent is at most the canonical one. *)
Lemma round_aux_rnd (x : Q) (m : positive) (e : Z) (l : location) :
  (e <= fexp (Zpos (digits2_pos m) + e))%Z -> inb x (Zpos m) e l ->
  exists R E, rnd x R E /\ binary_round_aux prec emax false (Zpos m) e l = Out R E.
Proof.
  intros He H.
  destruct (shr_fexp_inb x m e l He H) as [H1 [H2 H3]].
  destruct (inb_mag x m e l H) as [M1 M2].
  set (R := round_nearest_even (shr_m (fst (shr_fexp prec emax (Zpos m) e l)))
                               (loc_of_shr_record (fst (shr_fexp prec emax (Zpos m) e l)))).
  set (E := snd (shr_fexp prec emax (Zpos m) e l)) in *.
  assert (Hr : rnd x R E).
  { right. split; [exact (Qlt_le_trans _ _ _ (P_pos _) M1)|].
    exists (shr_m (fst (shr_fexp prec emax (Zpos m) e l))),
           (loc_of_shr_record (fst (shr_fexp prec emax (Zpos m) e l))),
           (Zpos (digits2_pos m) + e)%Z.
    repeat split; try assumption. }
  exists R, E. split; [exact Hr|].
  destruct (rnd_canon x R E Hr) as [C1 [C2 _]].
  apply round_aux_Out; assumption.
Qed.

Lemma P_pow_Z_mul (a b : Z) : (0 <= a)%Z -> inject_Z (2 ^ a) * P b == P (a + b).
Proof. intros H. rewrite P_add, (P_Z a) by exact H. reflexivity. Qed.

Lemma norm_facts (R E : Z) :
  canon R E -> (0 < R)%Z ->
  (0 < fst (norm R E) < 2 ^ prec)%Z /\ (emin <= snd (norm R E))%Z /\
  (emin < snd (norm R E) -> 2 ^ (prec - 1) <= fst (norm R E))%Z /\
  inject_Z (fst (norm R E)) * P (snd (norm R E)) == inject_Z R * P E.
Proof.
  intros [[R0 R1] [HE Hc]] Hp. unfold norm.
  destruct (Z.eqb_spec R (2 ^ prec)) as [Hq|Hq]; cbn [fst snd].
  - assert (0 < 2 ^ (prec - 1))%Z by (apply Z.pow_pos_nonneg; lia).
    assert (2 ^ (prec - 1) < 2 ^ prec)%Z by (apply Z.pow_lt_mono_r; lia).
    split; [lia|]. split; [lia|]. split; [lia|].
    rewrite Hq, !P_pow_Z_mul by lia. replace (prec - 1 + (E + 1))%Z with (prec + E)%Z by lia.
    reflexivity.
  - split; [lia|]. split; [lia|]. split; [intros H; apply Hc; lia|]. reflexivity.
Qed.

Lemma canon_pair_le (m1 e1 m2 e2 : Z) :
  (0 < m1 < 2 ^ prec)%Z -> (emin < e1 -> 2 ^ (prec - 1) <= m1)%Z ->
  (0 < m2 < 2 ^ prec)%Z -> (emin <= e2)%Z ->
  inject_Z m1 * P e1 <= inject_Z m2 * P e2 ->
  (e1 < e2)%Z \/ (e1 = e2 /\ m1 <= m2)%Z.
Proof.
  intros H1 Hc1 H2 He2 V.
  destruct (Z.lt_trichotomy e1 e2) as [Hlt|[Heq|Hgt]]; [left; exact Hlt| |].
  - right. subst e2. split; [reflexivity|]. rewrite Zle_Qle.
    apply (Qmult_le_r _ _ (P e1) (P_pos e1)). exact V.
  - exfalso. assert (Hm : (2 ^ (prec - 1) <= m1)%Z) by (apply Hc1; lia).
    assert (A : inject_Z (2 ^ (prec - 1)) * P e1 <= inject_Z m1 * P e1).
    { apply Qmult_le_compat_r; [rewrite <- Zle_Qle; exact Hm | apply Qlt_le_weak, P_pos]. }
    assert (B : inject_Z (2 ^ (prec - 1)) * P (e2 + 1) <= inject_Z (2 ^ (prec - 1)) * P e1).
    { rewrite !(Qmult_comm (inject_Z _)). apply Qmult_le_compat_r; [apply P_le; lia|].
      rewrite <- (Zle_Qle 0). apply Z.pow_nonneg. lia. }
    assert (C : inject_Z m2 * P e2 < inject_Z (2 ^ prec) * P e2).
    { apply Qmult_lt_compat_r; [apply P_pos | rewrite <- Zlt_Qlt; lia]. }
    rewrite P_pow_Z_mul in B, C by lia.
    replace (prec - 1 + (e2 + 1))%Z with (prec + e2)%Z in B by lia. lra.
Qed.

Lemma SFleb_finite (m1 e1 m2 e2 : Z) :
  (0 < m1)%Z -> (0 < m2)%Z -> (e1 < e2)%Z \/ (e1 = e2 /\ m1 <= m2)%Z ->
  SFleb (S754_finite false (Z.to_pos m1) e1) (S754_finite false (Z.to_pos m2) e2) = true.
Proof.
  intros H1 H2 [Hlt|[-> Hle]]; unfold SFleb, SFcompare.
  - rewrite (proj2 (Z.compare_lt_iff e1 e2) Hlt). reflexivity.
  - rewrite Z.compare_refl. destruct m1 as [|p1|p1]; try lia. destruct m2 as [|p2|p2]; try lia.
    cbn [Z.to_pos]. change (Pos.compare_cont Eq p1 p2) with (Pos.compare p1 p2).
    unfold Z.le, Z.compare in Hle. destruct (Pos.compare p1 p2); [reflexivity|reflexivity|contradiction].
Qed.

Lemma out_le (R1 E1 R2 E2 : Z) :
  canon R1 E1 -> canon R2 E2 -> inject_Z R1 * P E1 <= inject_Z R2 * P E2 ->
  SFleb (Out R1 E1) (Out R2 E2) = true.
Proof.
  intros C1 C2 V. unfold Out.
  destruct (Z.eqb_spec R1 0) as [Z1|Z1].
  - destruct (R2 =? 0)%Z; [reflexivity|]. destruct (_ <=? _)%Z; reflexivity.
  - pose proof C1 as [[A1 _] _]. pose proof C2 as [[A2 _] _].
    destruct (Z.eqb_spec R2 0) as [Z2|Z2].
    + exfalso. subst R2. change (inject_Z 0) with 0 in V. rewrite Qmult_0_l in V.
      assert (0 < inject_Z R1 * P E1); [|lra].
      apply Qmult_lt_0_compat; [rewrite <- (Zlt_Qlt 0); lia | apply P_pos].
    + destruct (norm_facts R1 E1 C1 ltac:(lia)) as [N1 [_ [Nc1 V1]]].
      destruct (norm_facts R2 E2 C2 ltac:(lia)) as [N2 [Ne2 [_ V2]]].
      rewrite <- V1, <- V2 in V.
      pose proof (canon_pair_le _ _ _ _ N1 Nc1 N2 Ne2 V) as O.
      destruct (Z.leb_spec (snd (norm R1 E1)) (emax - prec));
        destruct (Z.leb_spec (snd (norm R2 E2)) (emax - prec)).
      * apply SFleb_finite; [lia|lia|exact O].
      * reflexivity.
      * exfalso. lia.
      * reflexivity.
Qed.

Lemma out_zero (R E : Z) (s : bool) : Out R E = S754_zero s -> s = false /\ R = 0%Z.
Proof.
  unfold Out. destruct (Z.eqb_spec R 0) as [H|H].
  - intros E'. injection E' as <-. split; [reflexivity | exact H].
  - destruct (_ <=? _)%Z; discriminate.
Qed.

Lemma out_finite (R E : Z) (s : bool) (p : positive) (e : Z) :
  canon R E -> Out R E = S754_finite s p e ->
  s = false /\ inject_Z (Zpos p) * P e == inject_Z R * P E /\
  fexp (Zpos (digits2_pos p) + e) = e /\ (0 < R)%Z.
Proof.
  intros C. unfold Out. destruct (Z.eqb_spec R 0) as [H|H]; [discriminate|].
  pose proof C as [[A _] _].
  destruct (norm_facts R E C ltac:(lia)) as [[N1 N2] [Ne [Nc V]]].
  destruct (Z.leb_spec (snd (norm R E)) (emax - prec)); [|discriminate].
  intros Eq. injection Eq as <- Hp He.
  assert (Pm : Zpos p = fst (norm R E)) by (rewrite <- Hp; apply Z2Pos.id; lia).
  split; [reflexivity|]. split; [rewrite Pm, <- He; exact V|].
  split; [|lia].
  unfold fexp, SpecFloat.fexp. fold emin. rewrite <- He.
  destruct (Z.le_gt_cases (snd (norm R E)) emin) as [Hm|Hm].
  - assert (Zpos (digits2_pos p) <= prec)%Z; [|lia].
    destruct (digits_bounds p) as [D1 D2].
    assert (2 ^ (Zpos (digits2_pos p) - 1) < 2 ^ prec)%Z by lia.
    apply Z.pow_lt_mono_r_iff in H1; lia.
  - rewrite (digits_unique p prec); [lia|]. specialize (Nc Hm). lia.
Qed.

Lemma rnd_exp_bound (x : Q) (R E K : Z) :
  rnd x R E -> x < P K -> (snd (norm R E) <= Z.max (fexp K) emin + 1)%Z.
Proof.
  intros [[_ [_ ->]]|[_ [M [L [mag [H1 [H2 [HE _]]]]]]]] Hk; unfold norm;
    destruct (_ =? _)%Z; cbn [snd]; try lia.
  all: assert (mag - 1 < K)%Z by (apply P_lt_inv; lra).
  all: pose proof (fexp_mono mag K ltac:(lia)); lia.
Qed.

Lemma iter_xO (p k : positive) : Zpos (Pos.iter xO p k) = (Zpos p * 2 ^ Zpos k)%Z.
Proof.
  induction k as [|k IH] using Pos.peano_ind.
  - cbn. lia.
  - rewrite Pos.iter_succ, Pos2Z.inj_succ, Z.pow_succ_r by lia.
    change (Zpos (Pos.iter xO p k)~0) with (2 * Zpos (Pos.iter xO p k))%Z. rewrite IH. lia.
Qed.

Lemma inb_exact (x : Q) (m e : Z) : x == inject_Z m * P e -> inb x m e loc_Exact.
Proof.
  intros H. unfold inb, loc_ok. rewrite H. pose proof (P_pos e).
  field. intros Z0. rewrite Z0 in H0. discriminate H0.
Qed.

(** [binary_normalize] of a positive integer. *)
Lemma normalize_rnd (p : positive) :
  exists R E, rnd (inject_Z (Zpos p)) R E /\
              binary_normalize prec emax (Zpos p) 0 false = Out R E.
Proof.
  cbn [binary_normalize]. unfold binary_round, shl_align.
  destruct (SpecFloat.fexp prec emax (Zpos (digits2_pos p) + 0) - 0)%Z as [|k|k] eqn:Hs.
  - apply round_aux_rnd; [fold fexp in Hs; lia|].
    apply inb_exact. change (P 0) with 1. rewrite Qmult_1_r. reflexivity.
  - apply round_aux_rnd; [fold fexp in Hs; lia|].
    apply inb_exact. change (P 0) with 1. rewrite Qmult_1_r. reflexivity.
  - fold fexp in Hs.
    assert (D : Zpos (digits2_pos (Pos.iter xO p k)) = (Zpos (digits2_pos p) + Zpos k)%Z).
    { apply digits_unique. rewrite iter_xO. destruct (digits_bounds p) as [D1 D2].
      rewrite Z.add_sub_swap, !Z.pow_add_r by lia. split; apply Z.mul_le_mono_nonneg_r || apply Z.mul_lt_mono_pos_r;
        try lia; apply Z.pow_pos_nonneg; lia. }
    apply round_aux_rnd.
    + assert (E0 : (Zpos (digits2_pos p) + Zpos k + fexp (Zpos (digits2_pos p) + 0)
                     = Zpos (digits2_pos p) + 0)%Z) by lia.
      fold fexp. rewrite D, E0. lia.
    + apply inb_exact. rewrite iter_xO, inject_Z_mult.
      replace (fexp (Zpos (digits2_pos p) + 0)) with (Z.neg k) by lia.
      rewrite <- Qmult_assoc, P_pow_Z_mul by lia.
      replace (Zpos k + SpecFloat.fexp prec emax (Zpos (digits2_pos p) + 0))%Z with 0%Z
        by (fold fexp; lia).
      change (P 0) with 1. ring.
Qed.

Definition fval (m : positive) (e : Z) : Q := inject_Z (Zpos m) * P e.

(** [SFmul] of two positive canonical floats. *)
Lemma mul_rnd (m1 m2 : positive) (e1 e2 : Z) :
  fexp (Zpos (digits2_pos m1) + e1) = e1 -> fexp (Zpos (digits2_pos m2) + e2) = e2 ->
  exists R E, rnd (fval m1 e1 * fval m2 e2) R E /\
              SFmul prec emax (S754_finite false m1 e1) (S754_finite false m2 e2) = Out R E.
Proof.
  intros C1 C2. cbn [SFmul xorb].
  destruct (digits_bounds m1) as [A1 A2]. destruct (digits_bounds m2) as [B1 B2].
  destruct (digits_bounds (m1 * m2)) as [P1 P2].
  set (d1 := Zpos (digits2_pos m1)) in *. set (d2 := Zpos (digits2_pos m2)) in *.
  set (d := Zpos (digits2_pos (m1 * m2))) in *.
  assert (Dd : (d1 + d2 - 1 <= d)%Z).
  { assert (2 ^ (d1 - 1) * 2 ^ (d2 - 1) < 2 ^ d)%Z.
    { rewrite Pos2Z.inj_mul in P2. apply (Z.le_lt_trans _ (Zpos m1 * Zpos m2)); [|exact P2].
      apply Z.mul_le_mono_nonneg; try lia; apply Z.pow_nonneg; lia. }
    rewrite <- Z.pow_add_r in H by (unfold d1, d2; lia).
    apply Z.pow_lt_mono_r_iff in H; lia. }
  apply round_aux_rnd.
  - unfold fexp, SpecFloat.fexp in C1, C2 |- *. fold emin in C1, C2 |- *.
    pose proof emin_nonpos. lia.
  - apply inb_exact. unfold fval. rewrite Pos2Z.inj_mul, inject_Z_mult, P_add. ring.
Qed.

Lemma Qpos_of_Z (a : Z) : (0 < a)%Z -> 0 < inject_Z a.
Proof. intros H. change 0 with (inject_Z 0). rewrite <- Zlt_Qlt. exact H. Qed.

Lemma new_location_ok (q m r : Z) :
  (0 < m)%Z -> (0 <= r < m)%Z ->
  loc_ok (inject_Z q + inject_Z r / inject_Z m) q (new_location m r).
Proof.
  intros Hm Hr.
  assert (NL : new_location m r =
               if Z.even m then new_location_even m r else new_location_odd m r)
    by (unfold new_location; destruct (Z.even m); reflexivity).
  rewrite NL. unfold new_location_even, new_location_odd.
  destruct (Z.eqb_spec r 0) as [->|Hr0].
  - destruct (Z.even m); cbn [loc_ok]; unfold Qdiv; change (inject_Z 0) with 0; ring.
  - assert (HM : 0 < inject_Z m) by (apply Qpos_of_Z; lia).
    assert (HR : 0 < inject_Z r) by (apply Qpos_of_Z; lia).
    assert (HRM : inject_Z r < inject_Z m) by (rewrite <- Zlt_Qlt; lia).
    assert (Hu : inject_Z r / inject_Z m * inject_Z m == inject_Z r)
      by (field; intros Hz; lra).
    assert (Hlt : (2 * r < m)%Z -> inject_Z r / inject_Z m < 1 # 2).
    { intros H. assert (2 * inject_Z r < inject_Z m)
        by (change 2 with (inject_Z 2); rewrite <- inject_Z_mult, <- Zlt_Qlt; lia). nra. }
    assert (Hgt : (m < 2 * r)%Z -> 1 # 2 < inject_Z r / inject_Z m).
    { intros H. assert (inject_Z m < 2 * inject_Z r)
        by (change 2 with (inject_Z 2); rewrite <- inject_Z_mult, <- Zlt_Qlt; lia). nra. }
    assert (Heq : (2 * r = m)%Z -> inject_Z r / inject_Z m == 1 # 2).
    { intros H. rewrite <- H, inject_Z_mult. change (inject_Z 2) with 2. field.
      intros Hz. lra. }
    assert (H0 : 0 < inject_Z r / inject_Z m) by nra.
    assert (H1 : inject_Z r / inject_Z m < 1) by nra.
    destruct (Z.even m) eqn:Ev.
    + destruct (Z.compare_spec (2 * r) m) as [E|E|E]; cbn [loc_ok].
      * specialize (Heq E). lra.
      * specialize (Hlt E). lra.
      * specialize (Hgt E). lra.
    + destruct (Z.compare_spec (2 * r + 1) m) as [E|E|E]; cbn [loc_ok].
      * assert (E' : (2 * r < m)%Z) by lia. specialize (Hlt E'). lra.
      * assert (E' : (2 * r < m)%Z) by lia. specialize (Hlt E'). lra.
      * assert (E' : (m < 2 * r)%Z).
        { destruct (Z.eq_dec (2 * r) m) as [E2|E2]; [|lia].
          rewrite <- E2, Z.even_mul in Ev. discriminate Ev. }
        specialize (Hgt E'). lra.
Qed.

Lemma shift_match (m : positive) (t : Z) : (0 <= t)%Z ->
  match t with Zpos _ => Z.shiftl (Zpos m) t | Z0 => Zpos m | Zneg _ => 0%Z end
  = (Zpos m * 2 ^ t)%Z.
Proof.
  intros H. destruct t as [|t|t].
  - lia.
  - apply Z.shiftl_mul_pow2. lia.
  - lia.
Qed.

(** [SFdiv] of two positive floats whose quotient is not subnormal. *)
Lemma div_rnd (m1 m2 : positive) (e1 e2 : Z) :
  (emin + prec <= Zpos (digits2_pos m1) + e1 - (Zpos (digits2_pos m2) + e2))%Z ->
  exists R E, rnd (fval m1 e1 / fval m2 e2) R E /\
    SFdiv prec emax (S754_finite false m1 e1) (S754_finite false m2 e2) = Out R E.
Proof.
  intros HD. cbn [SFdiv xorb]. unfold SFdiv_core_binary. cbn [Zdigits2].
  destruct (digits_bounds m1) as [A1 A2]. destruct (digits_bounds m2) as [B1 B2].
  set (d1 := Zpos (digits2_pos m1)) in *. set (d2 := Zpos (digits2_pos m2)) in *.
  assert (HF : SpecFloat.fexp prec emax (d1 + e1 - (d2 + e2)) = (d1 + e1 - (d2 + e2) - prec)%Z)
    by (unfold SpecFloat.fexp; fold emin; lia).
  rewrite HF.
  remember (Z.min (d1 + e1 - (d2 + e2) - prec) (e1 - e2)) as e' eqn:He'.
  assert (Hs : (0 <= e1 - e2 - e')%Z) by lia.
  rewrite (shift_match m1 _ Hs).
  remember (e1 - e2 - e')%Z as s eqn:Hsd.
  pose proof (Z_div_mod (Zpos m1 * 2 ^ s) (Zpos m2) ltac:(lia)) as HE.
  destruct (Z.div_eucl (Zpos m1 * 2 ^ s) (Zpos m2)) as [q r] eqn:Hdiv.
  destruct HE as [HE1 HE2].
  set (k := (d1 - 1 + s - d2)%Z).
  assert (Hk : (0 <= k)%Z) by lia.
  assert (Hq : (2 ^ k < q + 1)%Z).
  { assert (T1 : (2 ^ (d1 - 1) * 2 ^ s <= Zpos m1 * 2 ^ s)%Z)
      by (apply Z.mul_le_mono_nonneg_r; [apply Z.pow_nonneg|]; lia).
    assert (T2 : (2 ^ (d1 - 1) * 2 ^ s = 2 ^ k * 2 ^ d2)%Z)
      by (rewrite <- !Z.pow_add_r by lia; f_equal; lia).
    assert (T3 : (2 ^ k * Zpos m2 < 2 ^ k * 2 ^ d2)%Z)
      by (apply Z.mul_lt_mono_pos_l; [apply Z.pow_pos_nonneg|]; lia).
    assert (T4 : (2 ^ k * Zpos m2 < (q + 1) * Zpos m2)%Z) by lia.
    apply Z.mul_lt_mono_pos_r in T4; lia. }
  assert (Hk0 : (1 <= 2 ^ k)%Z) by (apply (Z.pow_le_mono_r 2 0 k); lia).
  destruct q as [|qp|qp]; [lia| |lia].
  destruct (digits_bounds qp) as [Q1 Q2].
  assert (Dq : (k < Zpos (digits2_pos qp))%Z).
  { apply (Z.pow_lt_mono_r_iff 2); [lia|lia|]. lia. }
  pose proof (P_pos e1). pose proof (P_pos e2). pose proof (P_pos e').
  assert (HM2 : 0 < inject_Z (Zpos m2)) by (apply Qpos_of_Z; lia).
  apply round_aux_rnd.
  - apply (Z.le_trans _ (fexp (d1 + e1 - (d2 + e2)))).
    + unfold fexp. rewrite HF. lia.
    + apply fexp_mono. lia.
  - unfold inb. apply (loc_ok_compat (inject_Z (Zpos qp) + inject_Z r / inject_Z (Zpos m2))).
    + assert (HP : P e1 == inject_Z (2 ^ s) * P e' * P e2).
      { rewrite P_pow_Z_mul by lia. rewrite <- P_add. replace (s + e' + e2)%Z with e1 by lia.
        reflexivity. }
      assert (HAB : inject_Z (Zpos m1) * inject_Z (2 ^ s) ==
                    inject_Z (Zpos m2) * inject_Z (Zpos qp) + inject_Z r)
        by (rewrite <- inject_Z_mult, <- inject_Z_mult, <- inject_Z_plus, HE1; reflexivity).
      unfold fval. rewrite HP.
      setoid_replace (inject_Z (Zpos m1) * (inject_Z (2 ^ s) * P e' * P e2) /
                      (inject_Z (Zpos m2) * P e2) / P e')
        with (inject_Z (Zpos m1) * inject_Z (2 ^ s) / inject_Z (Zpos m2))
        by (field; repeat split; intros Hz; lra).
      rewrite HAB. field. intros Hz. lra.
    + apply new_location_ok; lia.
Qed.

Lemma rnd_ge_pow (x : Q) (R E k : Z) :
  rnd x R E -> (emin <= k)%Z -> P k <= x -> P k <= inject_Z R * P E.
Proof.
  intros H Hk Hx. pose proof (P_pos k) as Pk.
  destruct H as [[X0 _]|[Xp [M [L [mag [H1 [H2 [HE [HM [HL HR]]]]]]]]]]; [lra|].
  assert (Kmag : (k < mag)%Z) by (apply P_lt_inv; lra).
  assert (Emag : (E <= mag - 1)%Z) by (subst E; unfold fexp, SpecFloat.fexp; fold emin; lia).
  unfold inb in HL. apply loc_ok_bounds in HL. destruct HL as [L1 L2].
  assert (RM : (M <= R)%Z) by (rewrite HR; destruct (rne_cases M L) as [->|[-> _]]; lia).
  pose proof (P_pos E) as PE.
  destruct (Z_lt_le_dec k E) as [kE|kE].
  - assert (D : P 0 <= x / P E).
    { apply (Qle_trans _ (P (mag - 1 - E))); [apply P_le; lia|]. apply P_div_le. exact H1. }
    change (P 0) with 1 in D.
    assert (M1 : (1 <= M)%Z) by (apply (Z_of_Q_le 1 M (x / P E)); [exact D|exact L2]).
    assert (R1 : 1 <= inject_Z R) by (change 1 with (inject_Z 1); rewrite <- Zle_Qle; lia).
    assert (PkE : P k <= P E) by (apply P_le; lia).
    nra.
  - assert (D : inject_Z (2 ^ (k - E)) <= x / P E).
    { rewrite <- P_Z by lia. apply P_div_le. exact Hx. }
    assert (M1 : (2 ^ (k - E) <= M)%Z) by (apply (Z_of_Q_le _ M (x / P E)); [exact D|exact L2]).
    assert (R1 : inject_Z (2 ^ (k - E)) <= inject_Z R) by (rewrite <- Zle_Qle; lia).
    assert (Q1 : inject_Z (2 ^ (k - E)) * P E == P k).
    { rewrite P_pow_Z_mul by lia. replace (k - E + E)%Z with k by lia. reflexivity. }
    rewrite <- Q1. apply Qmult_le_compat_r; [exact R1|]. apply Qlt_le_weak, PE.
Qed.

Lemma fval_pos (p : positive) (e : Z) : 0 < fval p e.
Proof. unfold fval. apply Qmult_lt_0_compat; [apply Qpos_of_Z; lia|apply P_pos]. Qed.

Lemma fval_lt (p : positive) (e : Z) : fval p e < P (Zpos (digits2_pos p) + e).
Proof.
  unfold fval. rewrite P_add, (P_Z (Zpos (digits2_pos p))) by lia.
  apply (proj2 (Qmult_lt_r _ _ _ (P_pos e))). rewrite <- Zlt_Qlt. apply digits_bounds.
Qed.

(** A positive rounded value, far from underflow and overflow, is output
    as a canonical finite float. *)
Lemma out_pos_finite (x : Q) (R E K : Z) :
  rnd x R E -> P emin <= x -> x < P K -> (Z.max (fexp K) emin + 1 <= emax - prec)%Z ->
  exists p e, Out R E = S754_finite false p e /\ fval p e == inject_Z R * P E /\
    fexp (Zpos (digits2_pos p) + e) = e /\ (e <= Z.max (fexp K) emin + 1)%Z.
Proof.
  intros H Hx HK Hb.
  pose proof (rnd_ge_pow x R E emin H (Z.le_refl _) Hx) as G.
  pose proof (P_pos emin). pose proof (P_pos E).
  assert (R0 : (0 < R)%Z).
  { destruct (Z_lt_le_dec 0 R) as [|R0]; [assumption|]. exfalso.
    assert (inject_Z R <= 0) by (change 0 with (inject_Z 0); rewrite <- Zle_Qle; lia). nra. }
  pose proof (rnd_exp_bound x R E K H HK) as HB.
  assert (Hout : Out R E = S754_finite false (Z.to_pos (fst (norm R E))) (snd (norm R E))).
  { unfold Out. rewrite (proj2 (Z.eqb_neq R 0)) by lia.
    rewrite (proj2 (Z.leb_le _ _)) by lia. reflexivity. }
  destruct (out_finite R E false _ _ (rnd_canon x R E H) Hout) as [_ [V [C _]]].
  exists (Z.to_pos (fst (norm R E))), (snd (norm R E)). auto.
Qed.

End Rounding.

Section Binary64.

Local Open Scope Q_scope.


Lemma hp : (1 <= 53)%Z. Proof. lia. Qed.
Lemma he : (3 <= 1024 + 53)%Z. Proof. lia. Qed.


Lemma million_eq : F64.million = S754_finite false 8589934592000000 (-33).
Proof. vm_compute. reflexivity. Qed.

Lemma million_val : fval 8589934592000000 (-33) == 1000000.
Proof. vm_compute. reflexivity. Qed.

Lemma P_small : P (SpecFloat.emin 53 1024) <= 1 # 1000000.
Proof. apply (Qle_trans _ (P (-20))); [apply P_le; vm_compute; discriminate|].
  vm_compute. discriminate. Qed.

Lemma out_ge_zero (R E : Z) (s : bool) : SFleb (S754_zero s) (Out 53 1024 R E) = true.
Proof. unfold Out. destruct (R =? 0)%Z; [|destruct (_ <=? _)%Z]; reflexivity. Qed.

(** [n as f64] for a positive [n] below [2^64]. *)
Lemma stageA (n : Z) : (0 < n < 2 ^ 64)%Z ->
  exists p e R E, F64.of_Z n = S754_finite false p e /\
    rnd 53 1024 (inject_Z n) R E /\ fval p e == inject_Z R * P E /\
    (Zpos (digits2_pos p) + e <= 65)%Z.
Proof.
  intros Hn. destruct n as [|pn|pn]; try lia.
  destruct (normalize_rnd 53 1024 hp pn) as [R [E [HR HO]]].
  destruct (out_pos_finite 53 1024 hp (inject_Z (Zpos pn)) R E 64 HR) as [p [e [O [V [C B]]]]].
  - apply (Qle_trans _ (P 0)); [apply P_le; vm_compute; discriminate|].
    change (P 0) with (inject_Z 1). rewrite <- Zle_Qle. lia.
  - rewrite P_Z by lia. rewrite <- Zlt_Qlt. lia.
  - vm_compute. discriminate.
  - exists p, e, R, E. unfold F64.of_Z. rewrite HO, O. split; [reflexivity|].
    split; [exact HR|]. split; [exact V|].
    unfold SpecFloat.fexp, SpecFloat.emin in C, B. lia.
Qed.

(** [y / 1000000.0] for a float [y] with [1 <= y < 2^65]. *)
Lemma stageB (p1 : positive) (e1 : Z) :
  1 <= fval p1 e1 -> (Zpos (digits2_pos p1) + e1 <= 65)%Z ->
  exists p e R E, SFdiv 53 1024 (S754_finite false p1 e1) F64.million = S754_finite false p e /\
    rnd 53 1024 (fval p1 e1 / fval 8589934592000000 (-33)) R E /\
    fval p e == inject_Z R * P E /\
    SpecFloat.fexp 53 1024 (Zpos (digits2_pos p) + e) = e.
Proof.
  intros H1 H65. rewrite million_eq.
  pose proof (fval_lt 53 1024 p1 e1) as Hlt.
  assert (D1 : (0 < Zpos (digits2_pos p1) + e1)%Z).
  { apply P_lt_inv. change (P 0) with 1. lra. }
  destruct (div_rnd 53 1024 hp p1 8589934592000000 e1 (-33)) as [R [E [HR HO]]].
  { change (Zpos (digits2_pos 8589934592000000)) with 53%Z.
    unfold SpecFloat.emin. lia. }
  pose proof (P_le _ _ H65) as P65.
  destruct (out_pos_finite 53 1024 hp _ R E 65 HR) as [p [e [O [V [C B]]]]].
  - rewrite million_val. pose proof P_small.
    change (fval p1 e1 / 1000000) with (fval p1 e1 * (1 # 1000000)). lra.
  - rewrite million_val.
    change (fval p1 e1 / 1000000) with (fval p1 e1 * (1 # 1000000)). lra.
  - vm_compute. discriminate.
  - exists p, e, R, E. rewrite HO, O. auto.
Qed.

(** [c * z] for canonical positive floats. *)
Lemma stageC (pc p : positive) (ec e : Z) :
  SpecFloat.fexp 53 1024 (Zpos (digits2_pos pc) + ec) = ec ->
  SpecFloat.fexp 53 1024 (Zpos (digits2_pos p) + e) = e ->
  exists R E, SFmul 53 1024 (S754_finite false pc ec) (S754_finite false p e) = Out 53 1024 R E /\
    rnd 53 1024 (fval pc ec * fval p e) R E.
Proof.
  intros Cc C. destruct (mul_rnd 53 1024 hp he pc p ec e Cc C) as [R [E [HR HO]]].
  exists R, E. auto.
Qed.

(** The estimate of [get_tokens_heur_price] for [n] tokens at the cost [c]. *)
Definition est (c : F64.f64) (n : Z) : F64.f64 :=
  F64.mul c (F64.div (F64.of_Z n) F64.million).

Lemma div_chain (n : Z) : (0 < n < 2 ^ 64)%Z ->
  exists p e R E, SFdiv 53 1024 (F64.of_Z n) F64.million = S754_finite false p e /\
    SpecFloat.fexp 53 1024 (Zpos (digits2_pos p) + e) = e /\
    fval p e == inject_Z R * P E /\
    exists p1 e1 R1 E1, F64.of_Z n = S754_finite false p1 e1 /\ rnd 53 1024 (inject_Z n) R1 E1 /\
      fval p1 e1 == inject_Z R1 * P E1 /\
      rnd 53 1024 (fval p1 e1 / fval 8589934592000000 (-33)) R E.
Proof.
  intros Hn. destruct (stageA n Hn) as [p1 [e1 [R1 [E1 [O1 [HR1 [V1 D1]]]]]]].
  assert (G1 : 1 <= fval p1 e1).
  { rewrite V1. change 1 with (P 0). apply (rnd_ge_pow 53 1024 hp _ R1 E1 0 HR1).
    - vm_compute. discriminate.
    - change (P 0) with (inject_Z 1). rewrite <- Zle_Qle. lia. }
  destruct (stageB p1 e1 G1 D1) as [p [e [R [E [O [HR [V C]]]]]]].
  exists p, e, R, E. rewrite O1. split; [exact O|]. split; [exact C|]. split; [exact V|].
  exists p1, e1, R1, E1. auto.
Qed.

Lemma div_zero : SFdiv 53 1024 (F64.of_Z 0) F64.million = S754_zero false.
Proof. vm_compute. reflexivity. Qed.

Lemma est_mono (c : spec_float) (n m : Z) :
  F64.leb F64.zero c = true -> F64.is_finite c = true -> valid_binary 53 1024 c = true ->
  (0 <= n <= m)%Z -> (m < 2 ^ 64)%Z ->
  F64.leb (est c n) (est c m) = true.
Proof.
  intros Hz Hf Hv Hnm Hm. unfold est, F64.leb, F64.mul, F64.div.
  destruct (Z.eq_dec n 0) as [->|Hn0].
  - rewrite div_zero.
    destruct (Z.eq_dec m 0) as [->|Hm0].
    + rewrite div_zero. destruct c as [s|s| |s pc ec]; try discriminate; reflexivity.
    + destruct (div_chain m ltac:(lia)) as [p [e [R [E [O [C _]]]]]]. rewrite O.
      destruct c as [s|s| |[|] pc ec]; try discriminate.
      * reflexivity.
      * unfold valid_binary, bounded, canonical_mantissa in Hv.
        apply andb_prop in Hv. destruct Hv as [Hv _]. apply Z.eqb_eq in Hv.
        cbn [SFmul xorb]. destruct (stageC pc p ec e Hv C) as [R3 [E3 [O3 _]]].
        cbn [SFmul xorb] in O3. rewrite O3. apply out_ge_zero.
  - destruct (div_chain n ltac:(lia)) as [pn [en [Rn [En [On [Cn [Vn [pn1 [en1 [Rn1 [En1 [On1 [HRn1 [Vn1 HRn]]]]]]]]]]]]]].
    destruct (div_chain m ltac:(lia)) as [pm [em [Rm [Em [Om [Cm [Vm [pm1 [em1 [Rm1 [Em1 [Om1 [HRm1 [Vm1 HRm]]]]]]]]]]]]]].
    rewrite On, Om.
    destruct c as [s|s| |[|] pc ec]; try discriminate.
    + reflexivity.
    + unfold valid_binary, bounded, canonical_mantissa in Hv.
      apply andb_prop in Hv. destruct Hv as [Hv _]. apply Z.eqb_eq in Hv.
      destruct (stageC pc pn ec en Hv Cn) as [R3 [E3 [O3 H3]]].
      destruct (stageC pc pm ec em Hv Cm) as [R4 [E4 [O4 H4]]].
      rewrite O3, O4.
      apply out_le; [exact hp|apply (rnd_canon 53 1024 hp _ _ _ H3)|apply (rnd_canon 53 1024 hp _ _ _ H4)|].
      apply (rnd_mono 53 1024 hp _ _ _ _ _ _ H3 H4).
      assert (Y : fval pn1 en1 <= fval pm1 em1).
      { rewrite Vn1, Vm1. apply (rnd_mono 53 1024 hp _ _ _ _ _ _ HRn1 HRm1).
        rewrite <- Zle_Qle. lia. }
      assert (Z1 : fval pn en <= fval pm em).
      { rewrite Vn, Vm. apply (rnd_mono 53 1024 hp _ _ _ _ _ _ HRn HRm).
        rewrite million_val.
        change (fval pn1 en1 / 1000000) with (fval pn1 en1 * (1 # 1000000)).
        change (fval pm1 em1 / 1000000) with (fval pm1 em1 * (1 # 1000000)). lra. }
      pose proof (fval_pos 53 1024 pc ec). nra.
Qed.

End Binary64.

End Binary64Rounding.

(** ** String and list facts *)

Lemma str_app_assoc (a b c : string) : ((a ++ b) ++ c = a ++ (b ++ c))%string.
Proof. induction a as [|x a IH]; simpl; [reflexivity | now rewrite IH]. Qed.

Lemma str_app_nil_r (a : string) : (a ++ "")%string = a.
Proof. induction a as [|x a IH]; simpl; [reflexivity | now rewrite IH]. Qed.

(** ** The event stream, line by line *)

Lemma event_step_data (p : string) :
  event_step (data_line p) =
  match from_str p with
  | Some (ContentBlockDelta _ delta) =>
      if String.eqb (delta_type delta) "text_delta"
      then Some (Ok (mkBuffer (text delta) false)) else None
  | Some MessageStop => Some (Ok (mkBuffer EmptyString true))
  | _ => None
  end.
Proof. reflexivity. Qed.

Lemma event_step_text_delta (p t : string) :
  text_delta_payload p t -> event_step (data_line p) = Some (Ok (mkBuffer t false)).
Proof. intros [i Hi]. rewrite event_step_data, Hi. reflexivity. Qed.

Lemma event_step_stop (p : string) :
  from_str p = Some MessageStop -> event_step (data_line p) = Some (Ok (mkBuffer EmptyString true)).
Proof. intros H. rewrite event_step_data, H. reflexivity. Qed.

Lemma event_step_non_data (l : string) :
  non_data_line l -> event_step (Ok l) = None.
Proof.
  unfold non_data_line. intros H. unfold event_step. rewrite H.
  destruct (String.eqb l ""); [reflexivity|].
  destruct (starts_with "event: " l); reflexivity.
Qed.

Lemma event_stream_app (l1 l2 : list (result string string)) :
  event_stream (l1 ++ l2) = event_stream l1 ++ event_stream l2.
Proof. unfold event_stream. apply flat_map_app. Qed.

Lemma event_stream_non_data (ls : list string) :
  Forall non_data_line ls -> event_stream (map Ok ls) = [].
Proof.
  induction 1 as [|l ls Hl _ IH]; [reflexivity|].
  unfold event_stream in *. cbn [map flat_map].
  rewrite (event_step_non_data l Hl). exact IH.
Qed.

(** ** The task's loop over text increments *)

Lemma drain_text_then_stop (ts : list string) (rest : list (result StreamingBuffer string))
  (cd : AppMessageDelta) :
  drain (map (fun t => Ok (mkBuffer t false)) ts ++ Ok (mkBuffer EmptyString true) :: rest) cd =
  map (fun k => mkAppDelta (d_content cd ++ join (firstn k ts)) false None) (seq 1 (List.length ts))
  ++ [mkAppDelta (d_content cd ++ join ts) true None].
Proof.
  revert cd. induction ts as [|t ts IH]; intros cd.
  - reflexivity.
  - simpl map. simpl app. cbn [drain sb_content sb_is_complete d_is_complete buffer_usage].
    rewrite IH. cbn [d_content List.length seq map app].
    f_equal.
    + cbn [firstn join fold_right]. now rewrite str_app_nil_r.
    + rewrite <- (seq_shift _ 1), map_map. f_equal.
      * apply map_ext. intros k. cbn [firstn join fold_right]. now rewrite str_app_assoc.
      * cbn [join fold_right]. now rewrite str_app_assoc.
Qed.

Lemma event_stream_text_chunks (chunks : list (list string * string)) (texts : list string) :
  Forall (fun c => Forall non_data_line (fst c)) chunks ->
  Forall2 (fun c t => text_delta_payload (snd c) t) chunks texts ->
  event_stream (flat_map (fun c => map Ok (fst c) ++ [data_line (snd c)]) chunks) =
  map (fun t => Ok (mkBuffer t false)) texts.
Proof.
  intros Hpre H2. induction H2 as [|c t cs ts Hct _ IH]; [reflexivity|].
  inversion Hpre as [|? ? Hc Hcs]; subst.
  cbn [flat_map map]. rewrite !event_stream_app, event_stream_non_data by exact Hc.
  rewrite IH by exact Hcs. unfold event_stream at 1. cbn [flat_map].
  rewrite (event_step_text_delta _ _ Hct). reflexivity.
Qed.

(** C1: a response whose data lines are text increments t1..tn followed by
    [MessageStop] makes the spawned task push the running concatenations
    t1, t1+t2, ..., t1+...+tn (incomplete), then t1+...+tn with
    [is_complete = true]; other (non-[data:]) lines may come in between. *)
Theorem C1_stream_running_prefixes (status : Z) (reason : string) (body : result string string)
  (chunks : list (list string * string)) (texts : list string)
  (stop_pre : list string) (stop : string) (rest : list (result string string)) :
  is_success status = true ->
  Forall (fun c => Forall non_data_line (fst c)) chunks ->
  Forall2 (fun c t => text_delta_payload (snd c) t) chunks texts ->
  Forall non_data_line stop_pre ->
  from_str stop = Some MessageStop ->
  stream_task (Responded status reason body
                 (flat_map (fun c => map Ok (fst c) ++ [data_line (snd c)]) chunks
                  ++ map Ok stop_pre ++ data_line stop :: rest)) =
  map (fun k => mkAppDelta (join (firstn k texts)) false None) (seq 1 (List.length texts))
  ++ [mkAppDelta (join texts) true None].
Proof.
  intros Hst Hpre Htexts Hstop_pre Hstop.
  unfold stream_task, send_message_streaming. rewrite Hst. cbn [negb].
  rewrite !event_stream_app, (event_stream_text_chunks _ _ Hpre Htexts).
  rewrite event_stream_non_data by exact Hstop_pre.
  change (data_line stop :: rest) with ([data_line stop] ++ rest).
  rewrite event_stream_app. unfold event_stream at 1. cbn [flat_map].
  rewrite (event_step_stop _ Hstop). cbn [app].
  exact (drain_text_then_stop texts (event_stream rest) default_delta).
Qed.

Open Scope string_scope.

(** Payloads of the wire format used by the examples below, written with
    ['] where the wire has a double quote. *)
Fixpoint dq (s : string) : string :=
  match s with
  | EmptyString => EmptyString
  | String c r => String (if Ascii.eqb c "'"%char then ascii_of_nat 34 else c) (dq r)
  end.

Definition payload_text (t : string) : string :=
  dq "{'type':'content_block_delta','index':0,'delta':{'type':'text_delta','text':'" ++ t ++ dq "'}}".

Definition payload_stop : string := dq "{'type':'message_stop'}".

Definition payload_missing_delta : string := dq "{'type':'content_block_delta','index':0}".

Lemma C1_witness :
  is_success 200 = true /\
  Forall (fun c => Forall non_data_line (fst c))
    [(["event: content_block_delta"], payload_text "Hel");
     (["event: content_block_delta"], payload_text "lo");
     ([""; "event: content_block_delta"], payload_text " world")] /\
  Forall2 (fun c t => text_delta_payload (snd c) t)
    [(["event: content_block_delta"], payload_text "Hel");
     (["event: content_block_delta"], payload_text "lo");
     ([""; "event: content_block_delta"], payload_text " world")]
    ["Hel"; "lo"; " world"] /\
  Forall non_data_line ["event: message_stop"] /\
  from_str payload_stop = Some MessageStop /\
  stream_task (Responded 200 "OK" (Ok "")
    (flat_map (fun c => map Ok (fst c) ++ [data_line (snd c)])
       [(["event: content_block_delta"], payload_text "Hel");
        (["event: content_block_delta"], payload_text "lo");
        ([""; "event: content_block_delta"], payload_text " world")]
     ++ map Ok ["event: message_stop"] ++ data_line payload_stop :: [])%list) =
  [mkAppDelta "Hel" false None; mkAppDelta "Hello" false None;
   mkAppDelta "Hello world" false None; mkAppDelta "Hello world" true None].
Proof.
  assert (Hs : is_success 200 = true) by reflexivity.
  assert (Hp : Forall (fun c => Forall non_data_line (fst c))
    [(["event: content_block_delta"], payload_text "Hel");
     (["event: content_block_delta"], payload_text "lo");
     ([""; "event: content_block_delta"], payload_text " world")])
    by (repeat constructor).
  assert (Ht : Forall2 (fun c t => text_delta_payload (snd c) t)
    [(["event: content_block_delta"], payload_text "Hel");
     (["event: content_block_delta"], payload_text "lo");
     ([""; "event: content_block_delta"], payload_text " world")]
    ["Hel"; "lo"; " world"])
    by (repeat constructor; exists 0%Z; vm_compute; reflexivity).
  assert (Hq : Forall non_data_line ["event: message_stop"]) by (repeat constructor).
  assert (Hstop : from_str payload_stop = Some MessageStop) by (vm_compute; reflexivity).
  refine (conj Hs (conj Hp (conj Ht (conj Hq (conj Hstop _))))).
  exact (C1_stream_running_prefixes 200 "OK" (Ok "") _ _ _ _ [] Hs Hp Ht Hq Hstop).
Defined.

Open Scope list_scope.

(** ** The terminal delta of a send *)

Lemma drain_shape (s : list (result StreamingBuffer string)) (cd : AppMessageDelta) :
  exists pre, Forall (fun d => d_is_complete d = false) pre /\
    ((drain s cd = pre /\ existsb terminal_item s = false) \/
     (exists d, drain s cd = pre ++ [d] /\ d_is_complete d = true /\ existsb terminal_item s = true)).
Proof.
  revert cd. induction s as [|[b|e] s IH]; intros cd.
  - exists []. split; [constructor | left; split; reflexivity].
  - cbn [drain d_is_complete existsb terminal_item].
    destruct (sb_is_complete b) eqn:Hb.
    + exists []. split; [constructor|]. right.
      eexists. split; [reflexivity|]. split; reflexivity.
    + destruct (IH (mkAppDelta (d_content cd ++ sb_content b) false (buffer_usage b)))
        as [pre [Hpre [[Hd He] | [d [Hd [Hc He]]]]]].
      * exists (mkAppDelta (d_content cd ++ sb_content b) false (buffer_usage b) :: pre).
        split; [constructor; [reflexivity | exact Hpre]|].
        left. cbn [d_is_complete]. rewrite Hd, He. split; reflexivity.
      * exists (mkAppDelta (d_content cd ++ sb_content b) false (buffer_usage b) :: pre).
        split; [constructor; [reflexivity | exact Hpre]|].
        right. exists d. cbn [d_is_complete]. rewrite Hd, He.
        split; [reflexivity | split; [exact Hc | reflexivity]].
  - exists []. split; [constructor|]. right.
    eexists. split; [reflexivity | split; reflexivity].
Qed.

Lemma stream_task_shape (r : HttpOutcome) :
  exists pre, Forall (fun d => d_is_complete d = false) pre /\
    ((stream_task r = pre /\
      match send_message_streaming r with
      | Ok s => existsb terminal_item s = false
      | Err _ => False
      end) \/
     (exists d, stream_task r = pre ++ [d] /\ d_is_complete d = true /\
      match send_message_streaming r with
      | Ok s => existsb terminal_item s = true
      | Err _ => True
      end)).
Proof.
  unfold stream_task. destruct (send_message_streaming r) as [s|e].
  - apply drain_shape.
  - exists []. split; [constructor|]. right. eexists. split; [reflexivity | split; reflexivity].
Qed.

Lemma count_complete_app (l1 l2 : list AppMessageDelta) :
  count_complete (l1 ++ l2) = (count_complete l1 + count_complete l2)%nat.
Proof. unfold count_complete. now rewrite filter_app, length_app. Qed.

Lemma count_complete_none (l : list AppMessageDelta) :
  Forall (fun d => d_is_complete d = false) l -> count_complete l = 0%nat.
Proof.
  induction 1 as [|d l Hd _ IH]; [reflexivity|].
  unfold count_complete in *. cbn [filter]. now rewrite Hd.
Qed.

(** C2 (as amended): the spawned task pushes at most one delta with
    [is_complete = true], and only as its last push; it pushes exactly one
    when the request fails, when reading a line fails, or when a
    [MessageStop] event arrives. A data line whose payload does not parse
    is skipped and does not end the stream. *)
Theorem C2_at_most_one_terminal_delta (r : HttpOutcome) :
  (count_complete (stream_task r) <= 1)%nat /\
  (forall d, In d (stream_task r) -> d_is_complete d = true ->
             last (stream_task r) default_delta = d) /\
  (match send_message_streaming r with
   | Ok s => existsb terminal_item s = true
   | Err _ => True
   end -> count_complete (stream_task r) = 1%nat) /\
  (forall p, from_str p = None -> event_step (data_line p) = None).
Proof.
  destruct (stream_task_shape r) as [pre [Hpre [[Hd Hs] | [d [Hd [Hc Hs]]]]]].
  - rewrite Hd, (count_complete_none _ Hpre). split; [lia|]. split; [|split].
    + intros d Hin Hc. rewrite Forall_forall in Hpre. rewrite (Hpre d Hin) in Hc. discriminate.
    + destruct (send_message_streaming r); [rewrite Hs; discriminate | contradiction].
    + intros p Hp. rewrite event_step_data, Hp. reflexivity.
  - assert (H1 : count_complete (stream_task r) = 1%nat).
    { rewrite Hd, count_complete_app, (count_complete_none _ Hpre).
      unfold count_complete. cbn [filter]. now rewrite Hc. }
    split; [lia|]. split; [|split].
    + intros d' Hin Hc'. rewrite Hd in *. rewrite last_last.
      apply in_app_or in Hin as [Hin|[Hin|[]]]; [|exact Hin].
      rewrite Forall_forall in Hpre. rewrite (Hpre d' Hin) in Hc'. discriminate.
    + intros _. exact H1.
    + intros p Hp. rewrite event_step_data, Hp. reflexivity.
Qed.

(** C2 fails as first stated: a data line whose payload misses a required
    field ends the body, and the task pushes no terminal delta. *)
Lemma C2_counterexample :
  from_str payload_missing_delta = None /\
  count_complete (stream_task (Responded 200 "OK" (Ok "") [data_line payload_missing_delta])) = 0%nat.
Proof. split; vm_compute; reflexivity. Qed.

(** ** Line-read and parse failures in the event stream *)

Lemma event_step_ok_not_err (l x : string) : event_step (Ok l) <> Some (Err x).
Proof.
  unfold event_step.
  destruct (String.eqb l ""); [discriminate|].
  destruct (starts_with "event: " l); [discriminate|].
  destruct (starts_with "data: " l); [|discriminate].
  destruct (from_str _) as [[]|]; try discriminate.
  destruct (String.eqb _ "text_delta"); discriminate.
Qed.

(** C3 (as amended): the error items of the event stream are exactly the
    line-read failures, each as ["Error reading stream line " ++ e]; a
    [data:] line whose payload does not parse into a [StreamEvent] yields
    no item. *)
Theorem C3_line_read_errors_surface (lines : list (result string string)) :
  (forall x, In (Err x) (event_stream lines) <->
             exists e, In (Err e) lines /\ x = ("Error reading stream line " ++ e)%string) /\
  (forall p, from_str p = None -> event_step (data_line p) = None).
Proof.
  split; [|intros p Hp; rewrite event_step_data, Hp; reflexivity].
  induction lines as [|l ls IH]; intros x.
  - simpl. split; [intros []|intros [e [[] _]]].
  - change (event_stream (l :: ls))
      with ((match event_step l with Some y => [y] | None => [] end) ++ event_stream ls).
    rewrite in_app_iff, IH. destruct l as [line|e0].
    + pose proof (event_step_ok_not_err line x) as Hne.
      split.
      * intros [Hin|[e [He Hx]]].
        -- destruct (event_step (Ok line)) as [y|] eqn:Hy; [|destruct Hin].
           destruct Hin as [->|[]]. contradiction.
        -- exists e. split; [right; exact He | exact Hx].
      * intros [e [[Heq|He] Hx]]; [discriminate|]. right. exists e. split; assumption.
    + cbn [event_step]. split.
      * intros [[Hin|[]]|[e [He Hx]]].
        -- injection Hin as <-. exists e0. split; [left; reflexivity | reflexivity].
        -- exists e. split; [right; exact He | exact Hx].
      * intros [e [[Heq|He] Hx]].
        -- injection Heq as <-. left. left. now rewrite Hx.
        -- right. exists e. split; assumption.
Qed.

(** C3 fails as first stated: a [data:] line whose payload misses the
    required [delta] field yields no error item. *)
Lemma C3_counterexample :
  from_str payload_missing_delta = None /\
  event_stream [data_line payload_missing_delta] = [].
Proof. split; vm_compute; reflexivity. Qed.

(** ** The send gate *)

(** C4: while [is_sending] is set, [send_message] changes nothing and
    spawns nothing, whatever the key check would answer. *)
Theorem C4_send_rejected_while_sending (a : ClauChatApp) (key_check : result bool string) :
  is_sending a = true -> send_message a key_check = (a, None).
Proof. intros H. unfold send_message. rewrite H, orb_true_r. reflexivity. Qed.

Definition sending_app : ClauChatApp :=
  mkApp "next question" [mkMessage Assistant "How can I help you?"; mkMessage User "hi";
                         mkMessage Assistant "Hel"]
        true "sk-key" (Some (mkClient "sk-key" MODEL)) (Some []) None MODEL None F64.zero.

Lemma C4_witness :
  is_sending sending_app = true /\ send_message sending_app (Ok true) = (sending_app, None).
Proof.
  assert (H : is_sending sending_app = true) by reflexivity.
  exact (conj H (C4_send_rejected_while_sending sending_app (Ok true) H)).
Defined.

(** ** Failures inside the task *)

Lemma drain_error (s1 s2 : list (result StreamingBuffer string)) (e : string) (cd : AppMessageDelta) :
  d_usage cd = None ->
  forallb (fun x => negb (terminal_item x)) s1 = true ->
  exists pre, drain (s1 ++ Err e :: s2) cd = pre ++ [mkAppDelta (error_content e) true None] /\
              Forall (fun d => d_is_complete d = false) pre.
Proof.
  revert cd. induction s1 as [|[b|x] s1 IH]; intros cd Hu Hs.
  - exists []. cbn. rewrite Hu. split; [reflexivity | constructor].
  - cbn [forallb terminal_item] in Hs. apply andb_prop in Hs as [Hb Hs].
    apply negb_true_iff in Hb.
    destruct (IH (mkAppDelta (d_content cd ++ sb_content b) false (buffer_usage b)) eq_refl Hs)
      as [pre [Hpre Hall]].
    exists (mkAppDelta (d_content cd ++ sb_content b) false (buffer_usage b) :: pre).
    cbn [app drain d_is_complete]. rewrite Hb, Hpre. split; [reflexivity|].
    constructor; [reflexivity | exact Hall].
  - discriminate.
Qed.

(** C5: when the request fails, or when an item of the stream is an error
    before any terminal item, the task's pushes end with exactly one delta
    whose content is [STREAM_ERROR_TOKEN], a space and the error text,
    with [is_complete = true]; every earlier push is incomplete and nothing
    follows. The task returns its pushes: no error leaves it. *)
Theorem C5_error_becomes_terminal_delta (r : HttpOutcome) (e : string) :
  (send_message_streaming r = Err e \/
   exists s1 s2, send_message_streaming r = Ok (s1 ++ Err e :: s2) /\
                 forallb (fun x => negb (terminal_item x)) s1 = true) ->
  exists pre, stream_task r = pre ++ [mkAppDelta (error_content e) true None] /\
              Forall (fun d => d_is_complete d = false) pre.
Proof.
  unfold stream_task. intros [H | [s1 [s2 [H Hs]]]]; rewrite H.
  - exists []. split; [reflexivity | constructor].
  - exact (drain_error s1 s2 e default_delta eq_refl Hs).
Qed.

Lemma C5_witness :
  (send_message_streaming
     (Responded 200 "OK" (Ok "") [data_line (payload_text "Hi"); Err "connection reset"])
   = Err ("Error reading stream line connection reset")%string \/
   exists s1 s2, send_message_streaming
     (Responded 200 "OK" (Ok "") [data_line (payload_text "Hi"); Err "connection reset"])
     = Ok (s1 ++ Err ("Error reading stream line connection reset")%string :: s2) /\
     forallb (fun x => negb (terminal_item x)) s1 = true) /\
  exists pre, stream_task
     (Responded 200 "OK" (Ok "") [data_line (payload_text "Hi"); Err "connection reset"])
   = pre ++ [mkAppDelta (error_content "Error reading stream line connection reset") true None] /\
   Forall (fun d => d_is_complete d = false) pre.
Proof.
  assert (H : send_message_streaming
     (Responded 200 "OK" (Ok "") [data_line (payload_text "Hi"); Err "connection reset"])
   = Err ("Error reading stream line connection reset")%string \/
   exists s1 s2, send_message_streaming
     (Responded 200 "OK" (Ok "") [data_line (payload_text "Hi"); Err "connection reset"])
     = Ok (s1 ++ Err ("Error reading stream line connection reset")%string :: s2) /\
     forallb (fun x => negb (terminal_item x)) s1 = true).
  { right. exists [Ok (mkBuffer "Hi" false)], []. split; vm_compute; reflexivity. }
  exact (conj H (C5_error_becomes_terminal_delta _ _ H)).
Defined.

(** ** Handling one delta in the render loop *)

Lemma charge_usage_some (a a' : ClauChatApp) (u : option ResponseUsage) :
  charge_usage a u = Some a' ->
  messages a' = messages a /\ is_sending a' = is_sending a /\ error a' = error a.
Proof.
  unfold charge_usage. destruct u as [usage|].
  - destruct (usage_as_cost a usage); [|discriminate].
    intros H. injection H as <-. repeat split.
  - intros H. injection H as <-. repeat split.
Qed.

Lemma charge_usage_none (a : ClauChatApp) (u : option ResponseUsage) :
  charge_usage a u = None -> exists usage, u = Some usage /\ usage_as_cost a usage = None.
Proof.
  unfold charge_usage. destruct u as [usage|]; [|discriminate].
  destruct (usage_as_cost a usage) eqn:Hc; [discriminate|].
  intros _. exists usage. split; [reflexivity | exact Hc].
Qed.

Lemma usage_as_cost_set_error (a : ClauChatApp) (e : option string) (u : ResponseUsage) :
  usage_as_cost (set_error a e) u = usage_as_cost a u.
Proof. reflexivity. Qed.

Lemma usage_as_cost_set_messages (a : ClauChatApp) (m : list Message) (u : ResponseUsage) :
  usage_as_cost (set_messages a m) u = usage_as_cost a u.
Proof. reflexivity. Qed.

Lemma last_map_some_snoc (pre : list Message) (m : Message) :
  last (map Some (pre ++ [m])) None = Some m.
Proof. rewrite map_app. apply last_last. Qed.

Lemma set_last_content_snoc (pre : list Message) (m : Message) (c : string) :
  set_last_content (pre ++ [m]) c = pre ++ [mkMessage (role m) c].
Proof.
  induction pre as [|x pre IH]; [reflexivity|].
  cbn [app]. rewrite <- IH. destruct pre; reflexivity.
Qed.

(** C6 (as amended): handling a delta either panics, which happens only
    when the delta carries a usage that cannot be priced, or gives a new
    state where: a delta whose content starts with [STREAM_ERROR_TOKEN]
    leaves the messages alone and becomes the error; any other delta
    replaces the content of the last message when it is an assistant
    message; and [is_sending] is cleared when the delta is complete and
    kept otherwise. *)
Theorem C6_handle_stream_response_effect (a : ClauChatApp) (d : AppMessageDelta) :
  match handle_stream_response a d with
  | Some a' =>
      (if starts_with STREAM_ERROR_TOKEN (d_content d)
       then messages a' = messages a /\ error a' = Some (d_content d)
       else forall pre c, messages a = pre ++ [mkMessage Assistant c] ->
                          messages a' = pre ++ [mkMessage Assistant (d_content d)]) /\
      is_sending a' = (if d_is_complete d then false else is_sending a)
  | None => exists u, d_usage d = Some u /\ usage_as_cost a u = None
  end.
Proof.
  unfold handle_stream_response.
  destruct (starts_with STREAM_ERROR_TOKEN (d_content d)) eqn:Hs.
  - destruct (charge_usage (set_error a (Some (d_content d))) (d_usage d)) as [a'|] eqn:Hc.
    + apply charge_usage_some in Hc as [Hm [Hi He]].
      destruct (d_is_complete d); cbn; rewrite ?Hm, ?Hi, ?He; repeat split.
    + apply charge_usage_none in Hc as [u [Hu Hc]].
      exists u. rewrite usage_as_cost_set_error in Hc. split; assumption.
  - destruct (last (map Some (messages a)) None) as [lm|] eqn:Hl.
    + destruct (role_eqb (role lm) Assistant) eqn:Hr.
      * destruct (charge_usage (set_messages a (set_last_content (messages a) (d_content d)))
                               (d_usage d)) as [a'|] eqn:Hc.
        -- apply charge_usage_some in Hc as [Hm [Hi _]].
           split.
           ++ intros pre c Hma. destruct (d_is_complete d); cbn; rewrite Hm; cbn;
              rewrite Hma, set_last_content_snoc; reflexivity.
           ++ destruct (d_is_complete d); cbn; rewrite ?Hi; reflexivity.
        -- apply charge_usage_none in Hc as [u [Hu Hc]].
           exists u. rewrite usage_as_cost_set_messages in Hc. split; assumption.
      * split.
        -- intros pre c Hma. rewrite Hma, last_map_some_snoc in Hl.
           injection Hl as <-. discriminate.
        -- destruct (d_is_complete d); reflexivity.
    + split.
      * intros pre c Hma. rewrite Hma, last_map_some_snoc in Hl. discriminate.
      * destruct (d_is_complete d); reflexivity.
Qed.

Definition open_turn_app : ClauChatApp :=
  mkApp EmptyString [mkMessage Assistant "How can I help you?"; mkMessage User "hi";
                     mkMessage Assistant EmptyString]
        true "sk-key" (Some (mkClient "sk-key" MODEL)) (Some []) None MODEL None F64.zero.

(** C6 fails as first stated: the error delta of a failed request does
    not replace the open assistant message, which stays empty. *)
Lemma C6_counterexample :
  exists a', handle_stream_response open_turn_app
               (mkAppDelta (error_content "API error (401 Unauthorized): invalid x-api-key")
                           true None) = Some a' /\
             messages a' = messages open_turn_app /\
             last (messages a') (mkMessage User EmptyString) = mkMessage Assistant EmptyString /\
             error a' = Some (error_content "API error (401 Unauthorized): invalid x-api-key") /\
             is_sending a' = false.
Proof. eexists. split; [vm_compute; reflexivity|]. vm_compute. repeat split. Qed.

(** ** Usage metadata *)

Lemma drain_usage_none (s : list (result StreamingBuffer string)) (cd d : AppMessageDelta) :
  d_usage cd = None -> In d (drain s cd) -> d_usage d = None.
Proof.
  revert cd. induction s as [|[b|e] s IH]; intros cd Hu Hin.
  - destruct Hin.
  - cbn [drain] in Hin. destruct Hin as [<-|Hin]; [reflexivity|].
    destruct (d_is_complete _); [destruct Hin|].
    exact (IH _ (eq_refl : d_usage (mkAppDelta _ _ (buffer_usage b)) = None) Hin).
  - cbn [drain] in Hin. destruct Hin as [<-|[]]. exact Hu.
Qed.

Lemma stream_task_usage_none (r : HttpOutcome) (d : AppMessageDelta) :
  In d (stream_task r) -> d_usage d = None.
Proof.
  unfold stream_task. destruct (send_message_streaming r) as [s|e].
  - exact (drain_usage_none s default_delta d eq_refl).
  - intros [<-|[]]. reflexivity.
Qed.

Lemma handle_stream_response_cost (a a' : ClauChatApp) (d : AppMessageDelta) :
  d_usage d = None -> handle_stream_response a d = Some a' -> total_cost a' = total_cost a.
Proof.
  intros Hu. unfold handle_stream_response. rewrite Hu. cbn [charge_usage].
  destruct (starts_with _ _).
  - intros H. injection H as <-. destruct (d_is_complete d); reflexivity.
  - destruct (last _ _) as [lm|].
    + destruct (role_eqb _ _); intros H; injection H as <-;
        destruct (d_is_complete d); reflexivity.
    + intros H. injection H as <-. destruct (d_is_complete d); reflexivity.
Qed.

Definition payload_usage : string :=
  dq "{'type':'message_delta','delta':{'stop_reason':'end_turn','stop_sequence':null},'usage':{'input_tokens':5,'output_tokens':15}}".

(** C7 (code bug): the usage of a send never reaches the UI. A
    [message_delta] event carrying a well-formed usage parses, but the
    event stream drops it ([StreamingBuffer] has no usage field), so every
    delta the task pushes, the final one included, has no usage, and
    handling such a delta never changes the running total cost. *)
Theorem C7_usage_never_delivered :
  from_str payload_usage =
    Some (MessageDeltaEv (mkMessageDelta (Some "end_turn") None) (Some (mkUsage 5 15))) /\
  stream_task (Responded 200 "OK" (Ok "")
                 [data_line (payload_text "Hi"); data_line payload_usage; data_line payload_stop]) =
    [mkAppDelta "Hi" false None; mkAppDelta "Hi" true None] /\
  (forall r d, In d (stream_task r) -> d_usage d = None) /\
  (forall r d a a', In d (stream_task r) -> handle_stream_response a d = Some a' ->
                    total_cost a' = total_cost a).
Proof.
  split; [vm_compute; reflexivity|].
  split; [vm_compute; reflexivity|].
  split; [exact stream_task_usage_none|].
  intros r d a a' Hin. apply handle_stream_response_cost.
  exact (stream_task_usage_none r d Hin).
Qed.

(** ** Pricing fetch failures at startup *)

Definition without_pricing (a : ClauChatApp) : ClauChatApp :=
  mkApp (input a) (messages a) (is_sending a) (config_api_key a) (client a)
        (stream_receiver a) (error a) (model a) None (total_cost a).

Lemma send_message_ignores_pricing (a : ClauChatApp) (k : result bool string) :
  snd (send_message a k) = snd (send_message (without_pricing a) k) /\
  messages (fst (send_message a k)) = messages (fst (send_message (without_pricing a) k)) /\
  is_sending (fst (send_message a k)) = is_sending (fst (send_message (without_pricing a) k)) /\
  error (fst (send_message a k)) = error (fst (send_message (without_pricing a) k)).
Proof.
  unfold send_message, without_pricing. cbn [input is_sending client messages].
  destruct (String.eqb (trim (input a)) "" || is_sending a); [repeat split|].
  destruct (client a); [|repeat split].
  destruct (negb _); repeat split.
Qed.

(** C8 (code bug): a failing [GET] of the pricing page degrades to no
    pricing data, and sending does not depend on the pricing data; but when
    the [GET] succeeds and reading the body then fails on the network,
    [fetch_model_pricing] returns the error and [ClauChatApp::new] unwraps
    it: startup aborts. *)
Theorem C8_pricing_fetch_failure :
  (forall config_key e, exists a, app_new config_key (GetFailed e) = Some a /\
                                  pricing_data a = None) /\
  (forall a k, snd (send_message a k) = snd (send_message (without_pricing a) k) /\
               is_sending (fst (send_message a k)) =
               is_sending (fst (send_message (without_pricing a) k))) /\
  fetch_model_pricing (Some MODEL) (GotResponse (Err "error decoding response body"%string)) =
    Some (Err "Failed to extract text from response"%string) /\
  app_new "sk-key" (GotResponse (Err "error decoding response body"%string)) = None.
Proof.
  split.
  - intros k e. eexists. split; [reflexivity | reflexivity].
  - split.
    + intros a k. destruct (send_message_ignores_pricing a k) as [H1 [_ [H3 _]]].
      split; assumption.
    + split; reflexivity.
Qed.

(** ** Token limits *)

(** C9: ["200k"] parses to 200000, ["1M"] to 1000000 and ["unlimited"]
    to the sentinel [usize::MAX]. *)
Theorem C9_parse_token_limit_examples :
  parse_token_limit "200k" = Ok 200000%Z /\
  parse_token_limit "1M" = Ok 1000000%Z /\
  parse_token_limit "unlimited" = Ok usize_MAX.
Proof. split; [|split]; vm_compute; reflexivity. Qed.

(** ** The heuristic cost estimate *)

Definition sonnet_pricing : ModelPricing :=
  mkModelPricing MODEL (F64.of_Z 3) (F64.of_Z 15) 200000 8192.

Definition unpriced_model : ModelPricing :=
  mkModelPricing MODEL F64.neg_one F64.neg_one usize_MAX usize_MAX.

(** C10 fails as first stated, in two ways. The token count is not a
    function of the length: with any tokenizer that cuts ["a b c"] into
    three tokens and ["hello"] into one, as cl100k_base does, the shorter
    or equal text costs more. And the sentinel cost [-1.0] that
    [parse_cost] gives to an ["n/a"] cell makes the estimate decrease:
    the empty text costs [-0.0], the one-token text ["a"] costs less. *)
Lemma C10_counterexample :
  (exists s t, String.length s <= String.length t /\
     forall bpe, List.length (bpe s) = 3 -> List.length (bpe t) = 1 ->
       match get_tokens_heur_price (Ok bpe) s InputToken sonnet_pricing,
             get_tokens_heur_price (Ok bpe) t InputToken sonnet_pricing with
       | Ok cs, Ok ct => F64.leb cs ct = false
       | _, _ => False
       end) /\
  parse_cost "n/a" = Ok (input_cost_per_million unpriced_model) /\
  (exists s t, String.length s <= String.length t /\
     forall bpe, bpe s = [] -> List.length (bpe t) = 1 ->
       match get_tokens_heur_price (Ok bpe) s InputToken unpriced_model,
             get_tokens_heur_price (Ok bpe) t InputToken unpriced_model with
       | Ok cs, Ok ct => F64.leb cs ct = false
       | _, _ => False
       end).
Proof.
  split; [|split].
  - exists "a b c", "hello". split; [cbn; lia|].
    intros bpe Hs Ht. unfold get_tokens_heur_price, token_count_heuristic.
    rewrite Hs, Ht. vm_compute. reflexivity.
  - vm_compute. reflexivity.
  - exists "", "a". split; [cbn; lia|].
    intros bpe Hs Ht. unfold get_tokens_heur_price, token_count_heuristic.
    rewrite Hs, Ht. vm_compute. reflexivity.
Qed.

(** A tokenizer that cuts a text into one token per byte. *)
Definition bytes_bpe (s : string) : list Z :=
  map (fun a => Z.of_nat (nat_of_ascii a)) (list_ascii_of_string s).

(** C10 (amended). For a pricing whose [input_cost_per_million] is a
    finite, non-negative binary64 value, the estimated input cost is
    non-decreasing in the heuristic token count: when the tokenizer cuts
    [s] into no more tokens than [t], and the token count of [t] fits a
    [usize], the estimate for [s] is at most the estimate for [t]. The
    products and quotients are rounded, and the proof goes through the
    monotonicity of binary64 rounding. *)
Theorem C10_estimate_monotone_in_token_count (bpe : string -> list Z)
  (mp : ModelPricing) (s t : string) :
  F64.leb F64.zero (input_cost_per_million mp) = true ->
  F64.is_finite (input_cost_per_million mp) = true ->
  valid_binary 53 1024 (input_cost_per_million mp) = true ->
  (List.length (bpe s) <= List.length (bpe t))%nat ->
  (Z.of_nat (List.length (bpe t)) <= usize_MAX)%Z ->
  match get_tokens_heur_price (Ok bpe) s InputToken mp,
        get_tokens_heur_price (Ok bpe) t InputToken mp with
  | Ok cs, Ok ct => F64.leb cs ct = true
  | _, _ => False
  end.
Proof.
  intros Hz Hf Hv Hst Ht. unfold get_tokens_heur_price, token_count_heuristic.
  apply (Binary64Rounding.est_mono _ _ _ Hz Hf Hv).
  - split; [lia|]. apply Nat2Z.inj_le. exact Hst.
  - unfold usize_MAX in Ht. lia.
Qed.

Lemma C10_witness :
  F64.leb F64.zero (input_cost_per_million sonnet_pricing) = true /\
  match get_tokens_heur_price (Ok bytes_bpe) "ab" InputToken sonnet_pricing,
        get_tokens_heur_price (Ok bytes_bpe) "abc" InputToken sonnet_pricing with
  | Ok cs, Ok ct => F64.leb cs ct = true
  | _, _ => False
  end.
Proof.
  split; [vm_compute; reflexivity|].
  apply (C10_estimate_monotone_in_token_count bytes_bpe sonnet_pricing "ab" "abc").
  - vm_compute. reflexivity.
  - vm_compute. reflexivity.
  - vm_compute. reflexivity.
  - cbn. lia.
  - cbn. unfold usize_MAX. lia.
Defined.

(** ** Strings: slices, prefixes and substrings *)




Lemma substring_0_full (s : string) : substring 0 (String.length s) s = s.
Proof. induction s as [|c s IH]; cbn; [reflexivity|now rewrite IH]. Qed.

Lemma substring_0_zero (s : string) : substring 0 0 s = EmptyString.
Proof. destruct s; reflexivity. Qed.

Lemma substring_S (c : ascii) (s : string) (i n : nat) :
  substring (S i) n (String c s) = substring i n s.
Proof. reflexivity. Qed.

Lemma substring_app_split (s : string) (i n k : nat) :
  i + n + k <= String.length s ->
  (substring i n s ++ substring (i + n) k s)%string = substring i (n + k) s.
Proof.
  revert i n. induction s as [|c s IH]; intros i n H.
  - cbn in H. assert (i = 0 /\ n = 0 /\ k = 0) as [-> [-> ->]] by lia. reflexivity.
  - destruct i as [|i].
    + destruct n as [|n].
      * cbn [Nat.add]. rewrite substring_0_zero. reflexivity.
      * cbn [substring Nat.add String.append]. f_equal.
        apply (IH 0 n). cbn in H. lia.
    + cbn [Nat.add]. rewrite !substring_S. apply IH. cbn in H. lia.
Qed.

Lemma length_substring (s : string) (i n : nat) :
  i + n <= String.length s -> String.length (substring i n s) = n.
Proof.
  revert i n. induction s as [|c s IH]; intros i n H.
  - cbn in H. assert (i = 0 /\ n = 0) as [-> ->] by lia. reflexivity.
  - destruct i as [|i]; [destruct n as [|n]|].
    + reflexivity.
    + cbn. f_equal. apply IH. cbn in H. lia.
    + rewrite substring_S. apply IH. cbn in H. lia.
Qed.

Lemma substring_around (s : string) (i n : nat) :
  i + n <= String.length s ->
  s = (substring 0 i s ++ substring i n s ++ substring (i + n) (String.length s - (i + n)) s)%string.
Proof.
  intros H. rewrite substring_app_split by lia.
  pose proof (substring_app_split s 0 i (n + (String.length s - (i + n)))) as E.
  cbn [Nat.add] in E. rewrite E by lia.
  replace (i + (n + (String.length s - (i + n)))) with (String.length s) by lia.
  symmetry. apply substring_0_full.
Qed.





Lemma starts_with_app (p s t : string) : starts_with p s = true -> starts_with p (s ++ t) = true.
Proof.
  revert s. induction p as [|c p IH]; intros s H; [reflexivity|].
  destruct s as [|d s]; [discriminate|]. cbn in *.
  apply andb_prop in H as [H1 H2]. rewrite H1. apply IH, H2.
Qed.

Lemma contains_app_l (p x z : string) : contains p z = true -> contains p (x ++ z) = true.
Proof.
  induction x as [|c x IH]; intros H; [exact H|].
  cbn [String.append]. unfold contains; fold contains. rewrite (IH H). apply orb_true_r.
Qed.

Lemma contains_starts (p s : string) : starts_with p s = true -> contains p s = true.
Proof. intros H. destruct s; unfold contains; rewrite H; reflexivity. Qed.

Lemma contains_middle (p x s y : string) :
  starts_with p s = true -> contains p (x ++ s ++ y) = true.
Proof. intros H. apply contains_app_l, contains_starts, starts_with_app, H. Qed.

(** [trim] returns a piece of its argument. *)
Lemma trim_start_split (s : string) : exists x, s = (x ++ trim_start s)%string.
Proof.
  induction s as [|c s [x IH]]; [exists EmptyString; reflexivity|].
  cbn. destruct (is_whitespace c).
  - exists (String c x). cbn. now rewrite <- IH.
  - exists EmptyString. reflexivity.
Qed.

Lemma list_ascii_app (a b : string) :
  list_ascii_of_string (a ++ b) = list_ascii_of_string a ++ list_ascii_of_string b.
Proof. induction a as [|c a IH]; cbn; [reflexivity|now rewrite IH]. Qed.

Lemma string_of_list_app (a b : list ascii) :
  string_of_list_ascii (a ++ b) = (string_of_list_ascii a ++ string_of_list_ascii b)%string.
Proof. induction a as [|c a IH]; cbn; [reflexivity|now rewrite IH]. Qed.

Lemma rev_string_app (a b : string) :
  rev_string (a ++ b) = (rev_string b ++ rev_string a)%string.
Proof. unfold rev_string. rewrite list_ascii_app, rev_app_distr, string_of_list_app. reflexivity. Qed.

Lemma rev_string_involutive (s : string) : rev_string (rev_string s) = s.
Proof.
  unfold rev_string. rewrite list_ascii_of_string_of_list_ascii, rev_involutive.
  apply string_of_list_ascii_of_string.
Qed.

Lemma trim_split (s : string) : exists x y, s = (x ++ trim s ++ y)%string.
Proof.
  destruct (trim_start_split s) as [x Hx].
  destruct (trim_start_split (rev_string (trim_start s))) as [x' Hx'].
  exists x, (rev_string x'). rewrite Hx at 1. f_equal.
  rewrite <- (rev_string_involutive (trim_start s)) at 1. rewrite Hx', rev_string_app.
  reflexivity.
Qed.

Lemma contains_of_trim_slice (p c : string) (a b : nat) :
  b <= String.length c -> starts_with p (trim (slice c a b)) = true -> contains p c = true.
Proof.
  intros Hb H. destruct (trim_split (slice c a b)) as [x [y Hxy]].
  unfold slice in *.
  destruct (Nat.le_gt_cases a b) as [Hab|Hab].
  - rewrite (substring_around c a (b - a)) by lia. rewrite Hxy.
    rewrite !str_app_assoc. apply contains_app_l, contains_app_l, contains_starts, starts_with_app, H.
  - replace (b - a) with 0 in * by lia.
    destruct (Nat.le_gt_cases a (String.length c)) as [Ha|Ha].
    + rewrite (substring_around c a 0) by lia. rewrite Hxy.
      rewrite !str_app_assoc. apply contains_app_l, contains_app_l, contains_starts, starts_with_app, H.
    + assert (E : substring a 0 c = EmptyString).
      { clear. revert a. induction c as [|d c IH]; intros a; destruct a; try reflexivity.
        apply IH. }
      rewrite E in H. destruct p as [|ch p]; [apply contains_starts; reflexivity|discriminate H].
Qed.

(** ** [find_code_blocks]: the lines and the blocks *)

(** [L] is a list of lines, each starting at or after [P] (the end of
    the previous non-empty line), with every end at most [len]. *)
Fixpoint lines_ok (len P : nat) (L : list (nat * nat)) : Prop :=
  match L with
  | [] => P <= len
  | (a, b) :: r => P <= a /\ (if (a <? b)%nat then lines_ok len b r else lines_ok len P r)
  end.

(** Offsets strictly increasing from [P], all at most [hi]. *)
Fixpoint chain_lt (P : nat) (ps : list nat) (hi : nat) : Prop :=
  match ps with
  | [] => P <= hi
  | p :: r => P < p /\ chain_lt p r hi
  end.

Fixpoint pair_up (P : nat) (ps : list nat) : list (nat * nat) :=
  match ps with
  | [] => []
  | p :: r => (P, p) :: pair_up p r
  end.

(** Blocks in order: each starts at or after the end of the previous one
    (or at or after [lo] for the first), ends after it starts, and the
    last one ends at or before [hi]. *)
Fixpoint ordered (lo : nat) (bs : list (nat * nat * option string)) (hi : nat) : Prop :=
  match bs with
  | [] => lo <= hi
  | (s, e, _) :: r => lo <= s /\ s < e /\ ordered e r hi
  end.

Lemma chain_lt_weak (P P' : nat) (ps : list nat) (hi : nat) :
  P' <= P -> chain_lt P ps hi -> chain_lt P' ps hi.
Proof. destruct ps; cbn; [lia|]. intros H [H1 H2]. split; [lia|exact H2]. Qed.

Lemma newline_ends_chain (s : string) (idx : nat) :
  chain_lt idx (newline_ends s idx) (idx + String.length s).
Proof.
  revert idx. induction s as [|c s IH]; intros idx; cbn [newline_ends String.length].
  - cbn. lia.
  - destruct (ascii_eqb c (ascii_of_nat 10)).
    + cbn [chain_lt]. split; [lia|]. replace (idx + S (String.length s)) with (S idx + String.length s) by lia.
      apply IH.
    + apply (chain_lt_weak (S idx)); [lia|].
      replace (idx + S (String.length s)) with (S idx + String.length s) by lia. apply IH.
Qed.

Lemma prev_end_snoc (acc : list (nat * nat)) (x p : nat) : prev_end (acc ++ [(x, p)]) = p.
Proof. unfold prev_end. rewrite rev_app_distr. reflexivity. Qed.

Lemma fold_pairs (ps : list nat) (acc : list (nat * nat)) :
  fold_left (fun acc pos => acc ++ [(prev_end acc, pos)]) ps acc = acc ++ pair_up (prev_end acc) ps.
Proof.
  revert acc. induction ps as [|p ps IH]; intros acc; cbn [fold_left pair_up].
  - now rewrite app_nil_r.
  - rewrite IH, prev_end_snoc, <- app_assoc. reflexivity.
Qed.

Lemma last_cons_default (q : nat) (ps : list nat) (d d' : nat) :
  last (q :: ps) d = last (q :: ps) d'.
Proof. revert q. induction ps as [|r ps IH]; intros q; [reflexivity|]. exact (IH r). Qed.

Lemma last_cons_cons (p : nat) (ps : list nat) (d : nat) :
  last (p :: ps) d = last ps p.
Proof.
  destruct ps as [|q ps]; [reflexivity|].
  change (last (p :: q :: ps) d) with (last (q :: ps) d). apply last_cons_default.
Qed.

Lemma prev_end_cons (y : nat * nat) (X : list (nat * nat)) :
  X <> [] -> prev_end (y :: X) = prev_end X.
Proof.
  intros H. unfold prev_end. cbn [rev].
  destruct (rev X) as [|z t] eqn:R.
  - exfalso. apply H. rewrite <- (rev_involutive X), R. reflexivity.
  - reflexivity.
Qed.

Lemma prev_end_pair_up (ps : list nat) : prev_end (pair_up 0 ps) = last ps 0.
Proof.
  assert (G : forall P, ps <> [] -> prev_end (pair_up P ps) = last ps P).
  { induction ps as [|p ps IH]; intros P H; [congruence|].
    destruct ps as [|q ps]; [reflexivity|].
    change (pair_up P (p :: q :: ps)) with ((P, p) :: pair_up p (q :: ps)).
    rewrite prev_end_cons by discriminate. rewrite (IH p) by discriminate.
    change (last (p :: q :: ps) P) with (last (q :: ps) P). apply last_cons_default. }
  destruct ps as [|p ps]; [reflexivity|]. apply G. discriminate.
Qed.

Lemma chain_lt_last (P : nat) (ps : list nat) (hi : nat) : chain_lt P ps hi -> last ps P <= hi.
Proof.
  revert P. induction ps as [|p ps IH]; intros P H; [exact H|].
  destruct H as [_ H]. specialize (IH p H). rewrite last_cons_cons. exact IH.
Qed.

Lemma lines_ok_pair_up (len P : nat) (ps : list nat) (T : list (nat * nat)) :
  chain_lt P ps len -> lines_ok len (last ps P) T -> lines_ok len P (pair_up P ps ++ T).
Proof.
  revert P. induction ps as [|p ps IH]; intros P Hc HT; [exact HT|].
  destruct Hc as [Hp Hc]. cbn [pair_up app lines_ok].
  split; [lia|]. rewrite (proj2 (Nat.ltb_lt P p) Hp).
  apply IH; [exact Hc|]. rewrite last_cons_cons in HT. exact HT.
Qed.

Lemma line_positions_ok (content : string) :
  lines_ok (String.length content) 0 (line_positions content).
Proof.
  unfold line_positions. rewrite fold_pairs. cbn [app].
  change (prev_end []) with 0.
  pose proof (newline_ends_chain content 0) as Hc. cbn [Nat.add] in Hc.
  set (ps := newline_ends content 0) in *.
  rewrite prev_end_pair_up. pose proof (chain_lt_last 0 ps _ Hc) as Hl.
  destruct (match pair_up 0 ps with [] => true | _ => false end || (last ps 0 <? String.length content)%nat).
  - apply lines_ok_pair_up; [exact Hc|]. cbn [lines_ok]. split; [lia|].
    destruct (last ps 0 <? String.length content)%nat; cbn; lia.
  - rewrite <- (app_nil_r (pair_up 0 ps)). apply lines_ok_pair_up; [exact Hc|]. exact Hl.
Qed.

Lemma lines_ok_le (len P : nat) (L : list (nat * nat)) : lines_ok len P L -> P <= len.
Proof.
  revert P. induction L as [|[a b] L IH]; intros P H; [exact H|].
  destruct H as [H1 H2]. destruct (Nat.ltb_spec a b).
  - specialize (IH b H2). lia.
  - exact (IH P H2).
Qed.

Lemma ordered_weak (lo m m' : nat) (bs : list (nat * nat * option string)) :
  ordered lo bs m -> m <= m' -> ordered lo bs m'.
Proof.
  revert lo. induction bs as [|[[s e] l] bs IH]; intros lo H Hm; cbn in *; [lia|].
  destruct H as [H1 [H2 H3]]. split; [exact H1|]. split; [exact H2|]. exact (IH e H3 Hm).
Qed.

Lemma ordered_snoc (lo m s e : nat) (l : option string) (bs : list (nat * nat * option string)) :
  ordered lo bs m -> m <= s -> s < e -> ordered lo (bs ++ [(s, e, l)]) e.
Proof.
  revert lo. induction bs as [|[[s' e'] l'] bs IH]; intros lo H Hm Hs; cbn in *.
  - repeat split; lia.
  - destruct H as [H1 [H2 H3]]. split; [exact H1|]. split; [exact H2|]. exact (IH e' H3 Hm Hs).
Qed.

(** The invariant of the scan, with [P] the end of the last line seen. *)
Definition scan_inv (st : ScanState) (P : nat) : Prop :=
  if in_code_block st
  then exists m, ordered 0 (blocks st) m /\ m <= start_idx st /\ start_idx st < P
  else ordered 0 (blocks st) P.

Lemma scan_line_inv (content : string) (st : ScanState) (P a b : nat) :
  scan_inv st P -> P <= a ->
  scan_inv (scan_line content st (a, b)) (if (a <? b)%nat then b else P).
Proof.
  intros HI Ha. unfold scan_line. destruct (Nat.ltb_spec a b) as [Hab|Hab]; cbn [negb]; [|exact HI].
  destruct (starts_with "```" (trim (slice content a b))).
  - destruct st as [bs inb si lang]; unfold scan_inv in *; cbn [in_code_block blocks start_idx language negb] in *.
    destruct inb; cbn [negb].
    + destruct HI as [m [H1 [H2 H3]]].
      rewrite (proj2 (Nat.ltb_lt si b)) by lia. cbn.
      apply (ordered_snoc 0 m); [exact H1|lia|lia].
    + cbn. exists P. split; [exact HI|]. split; lia.
  - destruct st as [bs inb si lang]; unfold scan_inv in *; cbn in *.
    destruct inb.
    + destruct HI as [m [H1 [H2 H3]]]. exists m. repeat split; try assumption. lia.
    + apply (ordered_weak 0 P); [exact HI|lia].
Qed.

Lemma scan_fold_inv (content : string) (len : nat) (L : list (nat * nat)) :
  forall st P, lines_ok len P L -> scan_inv st P ->
  exists P', P' <= len /\ scan_inv (fold_left (scan_line content) L st) P'.
Proof.
  induction L as [|[a b] L IH]; intros st P HL HI.
  - exists P. split; [exact HL|exact HI].
  - destruct HL as [Ha HL]. cbn [fold_left].
    apply (IH _ (if (a <? b)%nat then b else P)).
    + destruct (a <? b)%nat; exact HL.
    + apply scan_line_inv; assumption.
Qed.

Lemma ordered_le (lo hi : nat) (bs : list (nat * nat * option string)) :
  ordered lo bs hi -> lo <= hi.
Proof.
  revert lo. induction bs as [|[[s e] l] bs IH]; intros lo H; [exact H|].
  destruct H as [H1 [H2 H3]]. specialize (IH e H3). lia.
Qed.

Lemma find_code_blocks_ordered_aux (content : string) :
  ordered 0 (find_code_blocks content) (String.length content).
Proof.
  unfold find_code_blocks.
  destruct (scan_fold_inv content (String.length content) (line_positions content)
              (mkScan [] false 0 None) 0 (line_positions_ok content) (le_n 0)) as [P [HP HI]].
  destruct (fold_left (scan_line content) (line_positions content) (mkScan [] false 0 None))
    as [bs inb si lang].
  unfold scan_inv in HI. cbn [in_code_block blocks start_idx language] in *.
  destruct inb.
  - destruct HI as [m [H1 [H2 H3]]]. apply (ordered_snoc 0 m); [exact H1|lia|lia].
  - apply (ordered_weak 0 P); [exact HI|exact HP].
Qed.

(** ** [render_message_content]: what each widget shows *)

(** A widget shows a piece of the content: a label shows it verbatim, a
    code block shows the code [extract_code] takes out of it. *)
Definition shows (w : Widget) (src : string) : Prop :=
  match w with
  | Label t => t = src
  | Code code lang => code = extract_code src lang
  end.

Lemma join_app (a b : list string) : join (a ++ b) = (join a ++ join b)%string.
Proof.
  induction a as [|x a IH]; [reflexivity|]. cbn [app]. unfold join in *. cbn [fold_right].
  rewrite IH. symmetry. apply str_app_assoc.
Qed.

Lemma slice_app (c : string) (i j k : nat) :
  i <= j <= k -> k <= String.length c -> (slice c i j ++ slice c j k)%string = slice c i k.
Proof.
  intros H1 H2. unfold slice.
  replace j with (i + (j - i)) at 2 by lia.
  rewrite substring_app_split by lia. f_equal. lia.
Qed.

Lemma slice_nonempty (c : string) (i j : nat) :
  i < j -> j <= String.length c -> slice c i j <> EmptyString.
Proof.
  intros H1 H2 E. pose proof (length_substring c i (j - i) ltac:(lia)) as L.
  unfold slice in E. rewrite E in L. cbn in L. lia.
Qed.

Lemma slice_empty (c : string) (i : nat) : slice c i i = EmptyString.
Proof.
  unfold slice. rewrite Nat.sub_diag. revert i.
  induction c as [|d c IH]; intros i; destruct i; try reflexivity. apply IH.
Qed.

Lemma render_fold (c : string) (bs : list (nat * nat * option string)) :
  forall lo hi ws, ordered lo bs hi -> hi <= String.length c ->
  exists ws' lo' srcs,
    fold_left (render_block c) bs (ws, lo) = (ws ++ ws', lo') /\
    Forall2 shows ws' srcs /\ Forall (fun s => s <> EmptyString) srcs /\
    (join srcs ++ slice c lo' hi)%string = slice c lo hi /\ lo' <= hi.
Proof.
  induction bs as [|[[s e] l] bs IH]; intros lo hi ws Ho Hhi.
  - exists [], lo, []. split; [now rewrite app_nil_r|]. split; [constructor|].
    split; [constructor|]. split; [reflexivity|exact Ho].
  - destruct Ho as [H1 [H2 H3]]. pose proof (ordered_le e hi bs H3) as Heh.
    cbn [fold_left render_block].
    rewrite (proj2 (Nat.leb_nle e s)) by lia.
    set (pre := if (lo <? s)%nat then [Label (slice c lo s)] else []).
    set (pres := if (lo <? s)%nat then [slice c lo s] else []).
    assert (Ep : (if (lo <? s)%nat then ws ++ [Label (slice c lo s)] else ws) = ws ++ pre)
      by (unfold pre; destruct (lo <? s)%nat; [reflexivity|now rewrite app_nil_r]).
    rewrite Ep.
    destruct (IH e hi ((ws ++ pre) ++ [Code (extract_code (slice c s e) l) l]) H3 Hhi)
      as [ws' [lo' [srcs [F [S1 [S2 [S3 S4]]]]]]].
    exists (pre ++ [Code (extract_code (slice c s e) l) l] ++ ws'), lo',
           (pres ++ [slice c s e] ++ srcs).
    split; [rewrite F, <- !app_assoc; reflexivity|].
    split.
    { apply Forall2_app; [unfold pre, pres; destruct (lo <? s)%nat; repeat constructor|].
      constructor; [reflexivity|exact S1]. }
    split.
    { apply Forall_app. split.
      - unfold pres. destruct (Nat.ltb_spec lo s); constructor; [|constructor].
        apply slice_nonempty; lia.
      - constructor; [apply slice_nonempty; lia|exact S2]. }
    split; [|exact S4].
    rewrite !join_app. cbn [join fold_right] in *. unfold join in *.
    rewrite str_app_nil_r, !str_app_assoc, S3.
    rewrite (slice_app c s e hi) by lia.
    assert (Hp : (fold_right String.append EmptyString pres ++ slice c s hi)%string = slice c lo hi).
    { unfold pres. destruct (Nat.ltb_spec lo s).
      - cbn [fold_right]. rewrite str_app_nil_r. apply slice_app; lia.
      - replace s with lo by lia. reflexivity. }
    exact Hp.
Qed.

Lemma render_tiles_aux (content : string) :
  exists srcs, join srcs = content /\
    Forall2 shows (render_message_content content) srcs /\
    Forall (fun s => s <> EmptyString) srcs.
Proof.
  unfold render_message_content.
  destruct (render_fold content (find_code_blocks content) 0 (String.length content) []
              (find_code_blocks_ordered_aux content) (le_n _))
    as [ws [lo [srcs [F [S1 [S2 [S3 S4]]]]]]].
  rewrite F. cbn [app].
  assert (Hc : slice content 0 (String.length content) = content)
    by (unfold slice; rewrite Nat.sub_0_r; apply substring_0_full).
  destruct (Nat.ltb_spec lo (String.length content)) as [Hlt|Hge].
  - exists (srcs ++ [slice content lo (String.length content)]).
    split; [rewrite join_app; cbn [join fold_right]; unfold join in *; rewrite str_app_nil_r, S3; exact Hc|].
    split; [apply Forall2_app; [exact S1|constructor; [reflexivity|constructor]]|].
    apply Forall_app. split; [exact S2|]. constructor; [apply slice_nonempty; lia|constructor].
  - exists srcs. replace lo with (String.length content) in S3 by lia.
    rewrite slice_empty, str_app_nil_r, Hc in S3.
    split; [exact S3|]. split; [exact S1|exact S2].
Qed.

Lemma scan_plain (c : string) (L : list (nat * nat)) :
  forall st P, lines_ok (String.length c) P L -> contains "```" c = false ->
  fold_left (scan_line c) L st = st.
Proof.
  induction L as [|[a b] L IH]; intros st P HL Hc; [reflexivity|].
  destruct HL as [Ha HL]. cbn [fold_left].
  assert (E : scan_line c st (a, b) = st).
  { unfold scan_line. destruct (Nat.ltb_spec a b) as [Hab|Hab]; [|reflexivity]. cbn [negb].
    pose proof (lines_ok_le _ _ _ HL) as Hb.
    destruct (starts_with "```" (trim (slice c a b))) eqn:Hs; [|reflexivity].
    rewrite (contains_of_trim_slice _ _ _ _ Hb Hs) in Hc. discriminate. }
  rewrite E. destruct (a <? b)%nat; eapply IH; eassumption.
Qed.

Lemma render_plain_aux (content : string) :
  contains "```" content = false ->
  find_code_blocks content = [] /\
  render_message_content content =
    match content with EmptyString => [] | String _ _ => [Label content] end.
Proof.
  intros Hc.
  assert (B : find_code_blocks content = []).
  { unfold find_code_blocks.
    rewrite (scan_plain content _ _ 0 (line_positions_ok content) Hc). reflexivity. }
  split; [exact B|]. unfold render_message_content. rewrite B. cbn [fold_left].
  destruct content as [|ch s]; [reflexivity|].
  cbn [Nat.ltb Nat.leb String.length]. unfold slice_from. rewrite Nat.sub_0_r, substring_0_full.
  reflexivity.
Qed.

(** ** [extract_code] *)




Open Scope string_scope.

(** ** Pricing: the numbers [parse_cost] and [parse_token_limit] return *)

Lemma shr_1_nonneg (r : shr_record) : (0 <= shr_m r)%Z -> (0 <= shr_m (shr_1 r))%Z.
Proof.
  destruct r as [m rr ss]; cbn. intros H.
  destruct m as [|[p|p|]|p]; cbn; lia.
Qed.

Lemma iter_shr_1_nonneg (p : positive) (r : shr_record) :
  (0 <= shr_m r)%Z -> (0 <= shr_m (SpecFloat.iter_pos shr_1 p r))%Z.
Proof.
  revert r. induction p as [p IH|p IH|]; intros r H; cbn.
  - apply IH, IH, shr_1_nonneg, H.
  - apply IH, IH, H.
  - apply shr_1_nonneg, H.
Qed.

Lemma shr_record_of_loc_m (m : Z) (l : location) : shr_m (shr_record_of_loc m l) = m.
Proof. destruct l as [|[]]; reflexivity. Qed.

Lemma shr_fexp_nonneg (prec emax : Z) (m e : Z) (l : location) :
  (0 <= m)%Z -> (0 <= shr_m (fst (shr_fexp prec emax m e l)))%Z.
Proof.
  intros H. unfold shr_fexp, shr.
  destruct (fexp prec emax (Zdigits2 m + e) - e)%Z as [|p|p]; cbn;
    [rewrite shr_record_of_loc_m; exact H| |rewrite shr_record_of_loc_m; exact H].
  apply iter_shr_1_nonneg. rewrite shr_record_of_loc_m. exact H.
Qed.

Lemma round_nearest_even_nonneg (m : Z) (l : location) :
  (0 <= m)%Z -> (0 <= round_nearest_even m l)%Z.
Proof.
  intros H. destruct l as [|[]]; cbn; try lia; destruct (Z.even m); lia.
Qed.

Lemma round_aux_nonneg (m e : Z) (l : location) :
  (0 <= m)%Z -> F64.leb F64.zero (binary_round_aux 53 1024 false m e l) = true.
Proof.
  intros H. unfold binary_round_aux.
  pose proof (shr_fexp_nonneg 53 1024 m e l H) as H1.
  destruct (shr_fexp 53 1024 m e l) as [r1 e1]. cbn in H1.
  pose proof (shr_fexp_nonneg 53 1024 (round_nearest_even (shr_m r1) (loc_of_shr_record r1)) e1
                loc_Exact (round_nearest_even_nonneg _ _ H1)) as H2.
  destruct (shr_fexp 53 1024 (round_nearest_even (shr_m r1) (loc_of_shr_record r1)) e1 loc_Exact)
    as [r2 e2]. cbn in H2.
  destruct (shr_m r2) as [|p|p]; [reflexivity| |lia].
  destruct (e2 <=? 1024 - 53)%Z; reflexivity.
Qed.

Lemma SFdiv_core_binary_nonneg (m1 e1 m2 e2 : Z) :
  (0 <= m1)%Z -> (0 < m2)%Z ->
  (0 <= fst (fst (SFdiv_core_binary 53 1024 m1 e1 m2 e2)))%Z.
Proof.
  intros H1 H2. unfold SFdiv_core_binary.
  set (d1 := Zdigits2 m1). set (d2 := Zdigits2 m2).
  set (e' := Z.min (fexp 53 1024 (d1 + e1 - (d2 + e2))) (e1 - e2)).
  set (s := (e1 - e2 - e')%Z).
  assert (Hm : (0 <= match s with Zpos _ => Z.shiftl m1 s | Z0 => m1 | Zneg _ => Z0 end)%Z).
  { destruct s; [exact H1| apply Z.shiftl_nonneg; exact H1 | lia]. }
  revert Hm.
  generalize (match s with Zpos _ => Z.shiftl m1 s | Z0 => m1 | Zneg _ => Z0 end). intros m' Hm.
  destruct (Z.div_eucl m' m2) as [q r] eqn:E. cbn.
  assert (q = m' / m2)%Z by (unfold Z.div; rewrite E; reflexivity). subst q.
  apply Z.div_pos; lia.
Qed.

Lemma decimal_value_nonneg (m p : Z) :
  (0 <= m)%Z -> F64.leb F64.zero (decimal_value false m p) = true.
Proof.
  intros H. unfold decimal_value.
  destruct (m =? 0)%Z; [reflexivity|].
  destruct (310 <? p)%Z; [reflexivity|].
  destruct (p + _ <? -330)%Z; [reflexivity|].
  destruct (0 <=? p)%Z eqn:Hp.
  - apply Z.leb_le in Hp.
    assert (Hmp : (0 <= m * 10 ^ p)%Z) by (apply Z.mul_nonneg_nonneg; [lia|apply Z.pow_nonneg; lia]).
    destruct (m * 10 ^ p)%Z as [|q|q]; [reflexivity| |lia].
    cbn [binary_normalize]. unfold binary_round.
    destruct (shl_align q 0 _) as [mz ez].
    apply round_aux_nonneg. lia.
  - assert (Hd : (0 < 10 ^ (- p))%Z) by (apply Z.pow_pos_nonneg; lia).
    pose proof (SFdiv_core_binary_nonneg m 0 (10 ^ (- p)) 0 H Hd) as Hq.
    destruct (SFdiv_core_binary 53 1024 m 0 (10 ^ (- p)) 0) as [[q e] loc]. cbn in Hq.
    apply round_aux_nonneg, Hq.
Qed.


Definition cost_char (c : ascii) : bool := is_digit c || ascii_eqb c "."%char.

Lemma cost_char_facts (c : ascii) :
  cost_char c = true ->
  (nat_of_ascii c =? 45)%nat = false /\ (nat_of_ascii c =? 43)%nat = false /\ to_lower c = c.
Proof.
  destruct c as [[] [] [] [] [] [] [] []]; vm_compute; intros H;
    first [discriminate H | repeat split].
Qed.

Lemma lower_list_cost (l : list ascii) : forallb cost_char l = true -> lower_list l = l.
Proof.
  unfold lower_list. induction l as [|c l IH]; cbn; [reflexivity|].
  intros H. apply andb_true_iff in H as [H1 H2].
  destruct (cost_char_facts c H1) as [_ [_ E]]. rewrite E, (IH H2). reflexivity.
Qed.

Lemma eqb_cost_word (l : list ascii) (w : string) :
  forallb cost_char l = true -> forallb cost_char (list_ascii_of_string w) = false ->
  String.eqb (string_of_list_ascii l) w = false.
Proof.
  intros H1 H2. destruct (String.eqb_spec (string_of_list_ascii l) w) as [E|]; [|reflexivity].
  subst w. rewrite list_ascii_of_string_of_list_ascii in H2. congruence.
Qed.

Lemma digits_value_nonneg_acc (d : list ascii) (acc : Z) :
  (0 <= acc)%Z -> (0 <= fold_left (fun acc c => acc * 10 + digit_val c)%Z d acc)%Z.
Proof.
  revert acc. induction d as [|c d IH]; intros acc H; cbn; [exact H|].
  apply IH. unfold digit_val. lia.
Qed.

Lemma digits_value_nonneg (d : list ascii) : (0 <= Json.digits_value d)%Z.
Proof. apply digits_value_nonneg_acc. lia. Qed.

Lemma parse_f64_cost_nonneg (l : list ascii) (v : F64.f64) :
  forallb cost_char l = true -> parse_f64 (string_of_list_ascii l) = Some v ->
  F64.leb F64.zero v = true.
Proof.
  intros Hl. unfold parse_f64. rewrite list_ascii_of_string_of_list_ascii.
  assert (Hb : (match l with
                | c :: r => if (nat_of_ascii c =? 45)%nat then (true, r)
                            else if (nat_of_ascii c =? 43)%nat then (false, r)
                            else (false, l)
                | [] => (false, l)
                end) = (false, l)).
  { destruct l as [|c r]; [reflexivity|].
    cbn in Hl. apply andb_true_iff in Hl as [Hc _].
    destruct (cost_char_facts c Hc) as [E1 [E2 _]]. rewrite E1, E2. reflexivity. }
  rewrite Hb. cbv beta iota zeta. rewrite (lower_list_cost l Hl).
  rewrite (eqb_cost_word l "inf" Hl eq_refl), (eqb_cost_word l "infinity" Hl eq_refl),
    (eqb_cost_word l "nan" Hl eq_refl). cbn [orb].
  destruct (split_digits l) as [ip r1].
  destruct (match r1 with
            | c :: r => if (nat_of_ascii c =? 46)%nat then split_digits r else ([], r1)
            | [] => ([], r1)
            end) as [fp r2].
  destruct (List.length ip + List.length fp =? 0)%nat; [discriminate|].
  match goal with |- match ?x with Some _ => _ | None => _ end = _ -> _ => destruct x end;
    [|discriminate].
  intros H. injection H as <-. apply decimal_value_nonneg, digits_value_nonneg.
Qed.

Lemma filter_forallb {A} (f : A -> bool) (l : list A) : forallb f (filter f l) = true.
Proof.
  induction l as [|x l IH]; cbn; [reflexivity|].
  destruct (f x) eqn:E; cbn; [rewrite E|]; exact IH.
Qed.

Lemma parse_cost_range_aux (s : string) (v : F64.f64) :
  parse_cost s = Ok v -> v = F64.neg_one \/ F64.leb F64.zero v = true.
Proof.
  unfold parse_cost. destruct (is_unknown_marker s).
  - intros H. injection H as <-. left. reflexivity.
  - destruct (parse_f64 _) as [w|] eqn:E; [|discriminate].
    intros H. injection H as <-. right.
    eapply parse_f64_cost_nonneg; [|exact E]. apply filter_forallb.
Qed.

Lemma f64_to_usize_range (x : F64.f64) : (0 <= f64_to_usize x <= usize_MAX)%Z.
Proof.
  assert (HM : (0 <= usize_MAX)%Z) by (unfold usize_MAX; lia).
  destruct x as [s|[]| |[] m e]; unfold f64_to_usize; cbv zeta; try lia.
  destruct (0 <=? e)%Z eqn:He.
  - apply Z.leb_le in He.
    assert (Hv : (0 <= Z.pos m * 2 ^ e)%Z)
      by (apply Z.mul_nonneg_nonneg; [lia|apply Z.pow_nonneg; lia]).
    split; [apply Z.min_glb; lia|apply Z.le_min_r].
  - apply Z.leb_gt in He.
    assert (Hv : (0 <= Z.pos m / 2 ^ (- e))%Z)
      by (apply Z.div_pos; [lia|apply Z.pow_pos_nonneg; lia]).
    split; [apply Z.min_glb; lia|apply Z.le_min_r].
Qed.

Lemma parse_usize_range (s : string) (v : Z) :
  parse_usize s = Some v -> (0 <= v <= usize_MAX)%Z.
Proof.
  unfold parse_usize.
  destruct (split_digits _) as [[|c d] [|x r]]; try discriminate.
  destruct (Z.leb_spec (Json.digits_value (c :: d)) usize_MAX); [|discriminate].
  intros E. injection E as <-. split; [apply digits_value_nonneg|assumption].
Qed.

Lemma parse_token_limit_range_aux (s : string) (v : Z) :
  parse_token_limit s = Ok v -> (0 <= v <= usize_MAX)%Z.
Proof.
  unfold parse_token_limit.
  destruct (is_unknown_marker _).
  { intros H. injection H as <-. unfold usize_MAX. lia. }
  destruct (ends_with_char "k"%char _).
  { destruct (parse_f64 _); [|discriminate].
    intros H. injection H as <-. apply f64_to_usize_range. }
  destruct (ends_with_char "m"%char _).
  { destruct (parse_f64 _); [|discriminate].
    intros H. injection H as <-. apply f64_to_usize_range. }
  destruct (parse_usize _) eqn:E; [|discriminate].
  intros H. injection H as <-. eapply parse_usize_range, E.
Qed.


Lemma parse_rows_filter_aux (n : string) (rows : list string) (m : PricingTable) :
  parse_rows (Some n) rows m = parse_rows None (filter (contains n) rows) m.
Proof.
  revert m. induction rows as [|line rest IH]; intros m; [reflexivity|].
  cbn [parse_rows filter]. destruct (contains n line); cbn [negb]; [|apply IH].
  cbn [parse_rows]. destruct (starts_with "|" line); cbn [negb]; [|reflexivity].
  destruct (row_columns line) as [|c0 [|c1 [|c2 [|c3 [|c4 cs]]]]]; try apply IH.
  destruct (parse_cost c1); [|reflexivity].
  destruct (parse_cost c2); [|reflexivity].
  destruct (parse_token_limit c3); [|reflexivity].
  destruct (parse_token_limit c4); [|reflexivity].
  apply IH.
Qed.

Definition entry_ok (e : string * ModelPricing) : Prop :=
  model_name (snd e) = fst e /\
  (input_cost_per_million (snd e) = F64.neg_one \/
   F64.leb F64.zero (input_cost_per_million (snd e)) = true) /\
  (output_cost_per_million (snd e) = F64.neg_one \/
   F64.leb F64.zero (output_cost_per_million (snd e)) = true) /\
  (0 <= max_prompt_tokens (snd e) <= usize_MAX)%Z /\
  (0 <= max_output_tokens (snd e) <= usize_MAX)%Z.

Lemma table_insert_keys (m : PricingTable) (k j : string) (v : ModelPricing) :
  In j (map fst (table_insert m k v)) -> j = k \/ In j (map fst m).
Proof.
  unfold table_insert. rewrite map_app, in_app_iff. cbn.
  intros [H|[H|[]]]; [|left; congruence].
  right. rewrite in_map_iff in H |- *. destruct H as [x [Ex Hx]].
  apply filter_In in Hx. exists x. split; [exact Ex|apply Hx].
Qed.

Lemma table_insert_nodup (m : PricingTable) (k : string) (v : ModelPricing) :
  NoDup (map fst m) -> NoDup (map fst (table_insert m k v)).
Proof.
  induction m as [|x m IH]; intros H.
  - constructor; [intros []|constructor].
  - inversion H as [|? ? Hx Hm]; subst.
    unfold table_insert in *. cbn [filter].
    destruct (String.eqb (fst x) k) eqn:E; cbn [negb]; [apply IH, Hm|].
    cbn [map app]. constructor; [|apply IH, Hm].
    intros Hin. apply (table_insert_keys m k (fst x) v) in Hin as [Hin|Hin].
    + subst. rewrite String.eqb_refl in E. discriminate.
    + exact (Hx Hin).
Qed.

Lemma table_insert_forall (P : string * ModelPricing -> Prop) (m : PricingTable) k v :
  Forall P m -> P (k, v) -> Forall P (table_insert m k v).
Proof.
  intros Hm Hkv. unfold table_insert. apply Forall_app. split.
  - apply Forall_forall. intros x Hx. apply filter_In in Hx.
    rewrite Forall_forall in Hm. apply Hm, Hx.
  - constructor; [exact Hkv|constructor].
Qed.

Lemma parse_rows_ok (name : option string) (rows : list string) (m t : PricingTable) :
  Forall entry_ok m -> NoDup (map fst m) ->
  parse_rows name rows m = Ok t -> Forall entry_ok t /\ NoDup (map fst t).
Proof.
  revert m. induction rows as [|line rest IH]; intros m Hm Hd; cbn [parse_rows].
  { intros H. injection H as <-. split; assumption. }
  destruct (match name with Some n => negb (contains n line) | None => false end);
    [apply IH; assumption|].
  destruct (negb (starts_with "|" line)).
  { intros H. injection H as <-. split; assumption. }
  destruct (row_columns line) as [|c0 [|c1 [|c2 [|c3 [|c4 cs]]]]]; try (apply IH; assumption).
  destruct (parse_cost c1) as [ic|] eqn:E1; [|discriminate].
  destruct (parse_cost c2) as [oc|] eqn:E2; [|discriminate].
  destruct (parse_token_limit c3) as [mp|] eqn:E3; [|discriminate].
  destruct (parse_token_limit c4) as [mo|] eqn:E4; [|discriminate].
  apply IH.
  - apply table_insert_forall; [exact Hm|].
    unfold entry_ok; cbn [fst snd model_name input_cost_per_million output_cost_per_million
                          max_prompt_tokens max_output_tokens].
    split; [reflexivity|].
    split; [eapply parse_cost_range_aux, E1|].
    split; [eapply parse_cost_range_aux, E2|].
    split; eapply parse_token_limit_range_aux; eassumption.
  - apply table_insert_nodup, Hd.
Qed.

Lemma parse_pricing_table_ok_aux (markdown : string) (name : option string) (t : PricingTable) :
  parse_pricing_table markdown name = Ok t ->
  t <> [] /\ NoDup (map fst t) /\ Forall entry_ok t.
Proof.
  unfold parse_pricing_table.
  destruct (after_header (lines markdown)) as [rows|]; [|discriminate].
  destruct (parse_rows name rows []) as [[|e m]|] eqn:E; try discriminate.
  intros H. injection H as <-.
  destruct (parse_rows_ok name rows [] (e :: m) (Forall_nil _) (NoDup_nil _) E) as [H1 H2].
  split; [discriminate|split; assumption].
Qed.

Open Scope list_scope.

(** ** The conversation state across a schedule of sends and frames *)

(** Handling the received items one after the other. *)
Fixpoint handle_all (a : ClauChatApp) (ds : list AppMessageDelta) : option ClauChatApp :=
  match ds with
  | [] => Some a
  | d :: r =>
      match handle_stream_response a d with
      | Some a' => handle_all a' r
      | None => None
      end
  end.

Definition pending (a : ClauChatApp) : list AppMessageDelta :=
  match stream_receiver a with Some q => q | None => [] end.

Lemma handle_all_snoc (a : ClauChatApp) (c : list AppMessageDelta) (d : AppMessageDelta) :
  handle_all a (c ++ [d]) =
  match handle_all a c with Some b => handle_stream_response b d | None => None end.
Proof.
  revert a. induction c as [|x c IH]; intros a; cbn [app handle_all].
  - destruct (handle_stream_response a d); reflexivity.
  - destruct (handle_stream_response a x); [apply IH|reflexivity].
Qed.

Ltac split_matches :=
  repeat (match goal with
          | |- context [match ?x with _ => _ end] =>
              lazymatch x with
              | context [match _ with _ => _ end] => fail
              | _ => destruct x
              end
          end; cbn).

Lemma handle_set_receiver (a : ClauChatApp) (r : option (list AppMessageDelta)) (d : AppMessageDelta) :
  handle_stream_response (set_receiver a r) d =
  option_map (fun x => set_receiver x r) (handle_stream_response a d).
Proof.
  destruct a. unfold handle_stream_response, charge_usage, usage_as_cost,
    set_receiver, set_error, set_messages, set_total_cost, set_is_sending; cbn.
  split_matches; reflexivity.
Qed.

Lemma handle_receiver (a a' : ClauChatApp) (d : AppMessageDelta) :
  handle_stream_response a d = Some a' -> stream_receiver a' = stream_receiver a.
Proof.
  destruct a. unfold handle_stream_response, charge_usage, usage_as_cost,
    set_error, set_messages, set_total_cost, set_is_sending; cbn.
  split_matches; intros H; try discriminate; injection H as <-; reflexivity.
Qed.

Lemma set_receiver_twice (a : ClauChatApp) (r r' : option (list AppMessageDelta)) :
  set_receiver (set_receiver a r) r' = set_receiver a r'.
Proof. reflexivity. Qed.

Lemma set_receiver_same (a : ClauChatApp) (r : option (list AppMessageDelta)) :
  stream_receiver a = r -> set_receiver a r = a.
Proof. destruct a. cbn. intros <-. reflexivity. Qed.

Lemma handle_no_usage (a : ClauChatApp) (d : AppMessageDelta) :
  d_usage d = None -> exists a', handle_stream_response a d = Some a'.
Proof.
  intros Hu. unfold handle_stream_response, charge_usage. rewrite Hu.
  split_matches; eexists; reflexivity.
Qed.

(** What a schedule does, read from the task's side: the items handled so
    far, from the state [a0] the channel was opened in, are a prefix of
    everything sent, and the rest waits in the queue. *)
Lemma run_consumed (evs : list Event) (a0 a a' : ClauChatApp)
  (consumed rest : list AppMessageDelta) :
  stream_receiver a = Some rest ->
  handle_all a0 consumed = Some (set_receiver a None) ->
  run a evs = Some a' ->
  exists consumed' rest',
    consumed ++ rest ++ sent evs = consumed' ++ rest' /\
    stream_receiver a' = Some rest' /\
    handle_all a0 consumed' = Some (set_receiver a' None).
Proof.
  revert a consumed rest. induction evs as [|ev evs IH]; intros a consumed rest Hr Hc Hrun.
  - cbn in Hrun. injection Hrun as <-. exists consumed, rest.
    split; [cbn; rewrite app_nil_r; reflexivity|split; assumption].
  - destruct ev as [d|]; cbn [run] in Hrun.
    + unfold deliver in Hrun. rewrite Hr in Hrun.
      destruct (IH (set_receiver a (Some (rest ++ [d]))) consumed (rest ++ [d]) eq_refl Hc Hrun) as [c' [r' [E [R H]]]].
      exists c', r'. split; [|split; assumption].
      rewrite <- E. cbn [sent flat_map]. rewrite <- !app_assoc. reflexivity.
    + unfold poll_stream in Hrun. rewrite Hr in Hrun.
      destruct rest as [|d rest].
      * destruct (IH a consumed [] Hr Hc Hrun) as [c' [r' [E [R H]]]].
        exists c', r'. split; [|split; assumption].
        rewrite <- E. reflexivity.
      * destruct (handle_stream_response (set_receiver a (Some rest)) d) as [b|] eqn:Hb;
          [|discriminate].
        assert (Hr' : stream_receiver b = Some rest)
          by (rewrite (handle_receiver _ _ _ Hb); reflexivity).
        assert (Hc' : handle_all a0 (consumed ++ [d]) = Some (set_receiver b None)).
        { rewrite handle_all_snoc, Hc.
          rewrite <- (set_receiver_twice a None (Some rest)), handle_set_receiver in Hb.
          destruct (handle_stream_response (set_receiver a None) d) as [x|] eqn:Hx;
            [|discriminate].
          cbn in Hb. injection Hb as <-. rewrite set_receiver_twice.
          rewrite set_receiver_same; [reflexivity|].
          rewrite (handle_receiver _ _ _ Hx). reflexivity. }
        destruct (IH b (consumed ++ [d]) rest Hr' Hc' Hrun) as [c' [r' [E [R H]]]].
        exists c', r'. split; [|split; assumption].
        rewrite <- E. cbn [sent flat_map]. rewrite <- !app_assoc. reflexivity.
Qed.

Lemma run_total (evs : list Event) (a : ClauChatApp) :
  Forall (fun d => d_usage d = None) (pending a ++ sent evs) ->
  exists a', run a evs = Some a'.
Proof.
  revert a. induction evs as [|ev evs IH]; intros a H; [eexists; reflexivity|].
  destruct ev as [d|]; cbn [run].
  - unfold deliver. unfold pending in H. cbn [sent flat_map] in H.
    destruct (stream_receiver a) as [q|] eqn:Hr.
    + apply IH. unfold pending. cbn [stream_receiver set_receiver].
      rewrite <- app_assoc. exact H.
    + apply IH. unfold pending. rewrite Hr. inversion H; assumption.
  - unfold poll_stream. unfold pending in H.
    destruct (stream_receiver a) as [[|d q]|] eqn:Hr; try (apply IH; unfold pending; rewrite Hr; exact H).
    inversion H as [|? ? Hd Hrest]; subst.
    destruct (handle_no_usage (set_receiver a (Some q)) d Hd) as [b Hb]. rewrite Hb.
    apply IH. unfold pending. rewrite (handle_receiver _ _ _ Hb). exact Hrest.
Qed.

Lemma handle_keeps_sending (a a' : ClauChatApp) (d : AppMessageDelta) :
  handle_stream_response a d = Some a' -> d_is_complete d = false -> is_sending a' = is_sending a.
Proof.
  intros H Hc. unfold handle_stream_response in H. rewrite Hc in H.
  destruct (starts_with STREAM_ERROR_TOKEN (d_content d)).
  - destruct (charge_usage _ _) as [b|] eqn:E; [|discriminate].
    injection H as <-. apply charge_usage_some in E as [_ [E _]]. exact E.
  - destruct (last (map Some (messages a)) None) as [m|]; [|injection H as <-; reflexivity].
    destruct (role_eqb (role m) Assistant); [|injection H as <-; reflexivity].
    destruct (charge_usage _ _) as [b|] eqn:E; [|discriminate].
    injection H as <-. apply charge_usage_some in E as [_ [E _]]. exact E.
Qed.

Lemma run_keeps_sending (evs : list Event) (a a' : ClauChatApp) :
  Forall (fun d => d_is_complete d = false) (pending a ++ sent evs) ->
  run a evs = Some a' -> is_sending a' = is_sending a.
Proof.
  revert a. induction evs as [|ev evs IH]; intros a H Hrun.
  { cbn in Hrun. injection Hrun as <-. reflexivity. }
  destruct ev as [d|]; cbn [run] in Hrun.
  - unfold deliver in Hrun. unfold pending in H. cbn [sent flat_map] in H.
    destruct (stream_receiver a) as [q|] eqn:Hr.
    + rewrite (IH (set_receiver a (Some (q ++ [d]))) ltac:(unfold pending; cbn [stream_receiver set_receiver];
                          rewrite <- app_assoc; exact H) Hrun).
      reflexivity.
    + apply (IH a); [|exact Hrun]. unfold pending. rewrite Hr. inversion H; assumption.
  - unfold poll_stream in Hrun. unfold pending in H.
    destruct (stream_receiver a) as [[|d q]|] eqn:Hr;
      try (apply (IH a); [unfold pending; rewrite Hr; exact H|exact Hrun]).
    inversion H as [|? ? Hd Hrest]; subst.
    destruct (handle_stream_response (set_receiver a (Some q)) d) as [b|] eqn:Hb; [|discriminate].
    rewrite (IH b); [|unfold pending; rewrite (handle_receiver _ _ _ Hb); exact Hrest|exact Hrun].
    rewrite (handle_keeps_sending _ _ _ Hb Hd). reflexivity.
Qed.

(** Text deltas rewrite the trailing assistant message. *)
Lemma last_cons_irrel {A} (y : A) (l : list A) (d d' : A) : last (y :: l) d = last (y :: l) d'.
Proof. revert y. induction l as [|z l IH]; intros y; [reflexivity|]. apply IH. Qed.

Lemma handle_all_texts (b b' : ClauChatApp) (pre : list Message) (x : string)
  (ds : list AppMessageDelta) :
  messages b = pre ++ [mkMessage Assistant x] ->
  Forall (fun d => d_usage d = None /\ starts_with STREAM_ERROR_TOKEN (d_content d) = false) ds ->
  handle_all b ds = Some b' ->
  messages b' = pre ++ [mkMessage Assistant (last (map d_content ds) x)] /\
  error b' = error b /\
  is_sending b' = is_sending b && negb (existsb d_is_complete ds).
Proof.
  revert b x. induction ds as [|d ds IH]; intros b x Hm Hds H.
  { cbn in H. injection H as <-. rewrite andb_true_r. auto. }
  inversion Hds as [|? ? [Hu He] Hrest]; subst.
  cbn [handle_all] in H. unfold handle_stream_response in H.
  rewrite He, Hm, last_map_some_snoc in H. cbn [role role_eqb] in H.
  unfold charge_usage in H. rewrite Hu in H.
  set (b1 := set_messages b (set_last_content (pre ++ [mkMessage Assistant x]) (d_content d))) in H.
  set (b2 := if d_is_complete d then set_is_sending b1 false else b1) in H.
  assert (M2 : messages b2 = pre ++ [mkMessage Assistant (d_content d)]).
  { unfold b2, b1. destruct (d_is_complete d); cbn; apply set_last_content_snoc. }
  destruct (IH b2 (d_content d) M2 Hrest H) as [M [E S]].
  split; [|split].
  - rewrite M. cbn [map]. f_equal. f_equal. f_equal.
    destruct ds as [|y ds]; [reflexivity|]. cbn [map last]. apply last_cons_irrel.
  - rewrite E. unfold b2, b1. destruct (d_is_complete d); reflexivity.
  - rewrite S. unfold b2, b1. cbn [existsb].
    destruct (d_is_complete d); cbn; [rewrite andb_false_r; reflexivity|reflexivity].
Qed.

(** The deltas of a text reply ending in [message_stop]. *)
Definition reply_deltas (texts : list string) : list AppMessageDelta :=
  map (fun k => mkAppDelta (join (firstn k texts)) false None) (seq 1 (List.length texts))
  ++ [mkAppDelta (join texts) true None].

Lemma join_firstn_prefix (T : string) (texts : list string) (k : nat) :
  starts_with T (join (firstn k texts)) = true -> starts_with T (join texts) = true.
Proof.
  intros H. rewrite <- (firstn_skipn k texts), join_app. apply starts_with_app, H.
Qed.

Lemma reply_deltas_ok (texts : list string) :
  starts_with STREAM_ERROR_TOKEN (join texts) = false ->
  Forall (fun d => d_usage d = None /\ starts_with STREAM_ERROR_TOKEN (d_content d) = false)
    (reply_deltas texts).
Proof.
  intros H. unfold reply_deltas. apply Forall_app. split.
  - apply Forall_forall. intros d Hd. apply in_map_iff in Hd as [k [<- _]].
    cbn [d_usage d_content]. split; [reflexivity|].
    destruct (starts_with STREAM_ERROR_TOKEN (join (firstn k texts))) eqn:E; [|reflexivity].
    rewrite (join_firstn_prefix _ _ _ E) in H. discriminate.
  - constructor; [split; [reflexivity|exact H]|constructor].
Qed.

Lemma reply_deltas_last (texts : list string) (x : string) :
  last (map d_content (reply_deltas texts)) x = join texts.
Proof. unfold reply_deltas. rewrite map_app. apply last_last. Qed.

Lemma reply_deltas_complete (texts : list string) : existsb d_is_complete (reply_deltas texts) = true.
Proof. unfold reply_deltas. rewrite existsb_app. cbn. apply orb_true_r. Qed.

Lemma Forall_conj_l {A} (P Q : A -> Prop) (l : list A) :
  Forall (fun x => P x /\ Q x) l -> Forall P l.
Proof. intros H. eapply Forall_impl; [|exact H]. intros x [Hx _]. exact Hx. Qed.

Lemma send_message_go (a : ClauChatApp) :
  String.eqb (trim (input a)) "" = false -> is_sending a = false -> client a <> None ->
  send_message a (Ok true) =
  (mkApp EmptyString ((messages a ++ [mkMessage User (input a)]) ++ [mkMessage Assistant EmptyString])
         true (config_api_key a) (client a) (Some []) None (model a) (pricing_data a) (total_cost a),
   Some (messages a ++ [mkMessage User (input a)])).
Proof.
  intros Ht Hs Hc. unfold send_message. rewrite Ht, Hs. cbn [orb negb].
  destruct (client a); [reflexivity|congruence].
Qed.

Lemma exchange_aux (a : ClauChatApp) (texts : list string) (evs : list Event) :
  String.eqb (trim (input a)) "" = false -> is_sending a = false -> client a <> None ->
  starts_with STREAM_ERROR_TOKEN (join texts) = false ->
  sent evs = reply_deltas texts ->
  exists a', run (fst (send_message a (Ok true))) evs = Some a' /\
    (stream_receiver a' = Some [] ->
     messages a' = messages a ++ [mkMessage User (input a); mkMessage Assistant (join texts)] /\
     is_sending a' = false /\ error a' = None).
Proof.
  intros Ht Hs Hc Hjoin Hsent. rewrite (send_message_go a Ht Hs Hc). cbn [fst].
  set (a1 := mkApp EmptyString _ true _ _ (Some []) None _ _ _).
  pose proof (reply_deltas_ok texts Hjoin) as Hok.
  destruct (run_total evs a1) as [a' Hrun].
  { unfold pending. cbn. rewrite Hsent. apply (Forall_conj_l _ _ _ Hok). }
  exists a'. split; [exact Hrun|]. intros Hr.
  destruct (run_consumed evs (set_receiver a1 None) a1 a' [] [] eq_refl eq_refl Hrun)
    as [c' [r' [E [R H]]]].
  rewrite Hr in R. injection R as <-. rewrite app_nil_r, Hsent in E. cbn in E. subst c'.
  destruct (handle_all_texts (set_receiver a1 None) (set_receiver a' None) (messages a ++ [mkMessage User (input a)]) EmptyString _
              eq_refl Hok H) as [M [Er S]].
  rewrite reply_deltas_last, reply_deltas_complete in *. cbn in M, Er, S.
  split; [|split; assumption].
  rewrite M, <- app_assoc. reflexivity.
Qed.

(** The task never sends a usage. *)
Lemma drain_no_usage (s : list (result StreamingBuffer string)) (cd : AppMessageDelta) :
  d_usage cd = None -> Forall (fun d => d_usage d = None) (drain s cd).
Proof.
  revert cd. induction s as [|[b|e] s IH]; intros cd H; cbn [drain].
  - constructor.
  - constructor; [reflexivity|]. destruct (sb_is_complete b); [constructor|apply IH; reflexivity].
  - constructor; [exact H|constructor].
Qed.

Lemma stream_task_no_usage (r : HttpOutcome) : Forall (fun d => d_usage d = None) (stream_task r).
Proof.
  unfold stream_task. destruct (send_message_streaming r).
  - apply drain_no_usage. reflexivity.
  - constructor; [reflexivity|constructor].
Qed.

Lemma drain_incomplete (s : list (result StreamingBuffer string)) (cd : AppMessageDelta) :
  Forall (fun x => match x with Ok b => sb_is_complete b = false | Err _ => False end) s ->
  Forall (fun d => d_is_complete d = false) (drain s cd).
Proof.
  revert cd. induction s as [|[b|e] s IH]; intros cd H; cbn [drain]; [constructor| |].
  - inversion H as [|? ? Hb Hs]; subst. rewrite Hb.
    constructor; [reflexivity|apply IH, Hs].
  - inversion H as [|? ? Hx _]. exact (False_ind _ Hx).
Qed.

Lemma strip_prefix_starts (p s : string) :
  starts_with p s = true -> exists d, strip_prefix p s = Some d.
Proof.
  revert s. induction p as [|c p IH]; intros s H; [eexists; reflexivity|].
  destruct s as [|d s]; [discriminate|]. cbn in H |- *.
  apply andb_true_iff in H as [H1 H2]. rewrite H1. apply IH, H2.
Qed.

Definition no_stop_line (l : string) : Prop :=
  forall p, strip_prefix "data: " l = Some p -> from_str p <> Some MessageStop.

Lemma event_stream_no_stop (ls : list string) :
  Forall no_stop_line ls ->
  Forall (fun x => match x with Ok b => sb_is_complete b = false | Err _ => False end)
    (event_stream (map Ok ls)).
Proof.
  induction 1 as [|l ls Hl _ IH]; [constructor|].
  unfold event_stream in *. cbn [map flat_map]. apply Forall_app. split; [|exact IH].
  unfold event_step.
  destruct (String.eqb l ""); [constructor|].
  destruct (starts_with "event: " l); [constructor|].
  destruct (starts_with "data: " l) eqn:Hd; [|constructor].
  destruct (strip_prefix_starts _ _ Hd) as [p Hp]. rewrite Hp.
  specialize (Hl p Hp).
  destruct (from_str p) as [[]|]; try constructor; try reflexivity; try constructor.
  - destruct (String.eqb (delta_type delta) "text_delta"); repeat constructor.
  - congruence.
Qed.

Lemma no_stop_aux (a : ClauChatApp) (status : Z) (reason : string) (body : result string string)
  (ls : list string) (evs : list Event) :
  String.eqb (trim (input a)) "" = false -> is_sending a = false -> client a <> None ->
  is_success status = true -> Forall no_stop_line ls ->
  sent evs = stream_task (Responded status reason body (map Ok ls)) ->
  exists a', run (fst (send_message a (Ok true))) evs = Some a' /\
    is_sending a' = true /\ forall kc, send_message a' kc = (a', None).
Proof.
  intros Ht Hs Hc Hst Hls Hsent. rewrite (send_message_go a Ht Hs Hc). cbn [fst].
  set (a1 := mkApp EmptyString _ true _ _ (Some []) None _ _ _).
  destruct (run_total evs a1) as [a' Hrun].
  { unfold pending. cbn. rewrite Hsent. apply stream_task_no_usage. }
  exists a'. split; [exact Hrun|].
  assert (Hsend : is_sending a' = true).
  { rewrite (run_keeps_sending evs a1 a'); [reflexivity| |exact Hrun].
    unfold pending. cbn. rewrite Hsent.
    unfold stream_task, send_message_streaming. rewrite Hst. cbn [negb].
    apply drain_incomplete, event_stream_no_stop, Hls. }
  split; [exact Hsend|]. intros kc. unfold send_message. rewrite Hsend, orb_true_r. reflexivity.
Qed.


(** The task's deltas for a text reply, as in the claim on running
    prefixes. *)
Lemma stream_task_reply (status : Z) (reason : string) (body : result string string)
  (chunks : list (list string * string)) (texts : list string)
  (stop_pre : list string) (stop : string) (rest : list (result string string)) :
  is_success status = true ->
  Forall (fun c => Forall non_data_line (fst c)) chunks ->
  Forall2 (fun c t => text_delta_payload (snd c) t) chunks texts ->
  Forall non_data_line stop_pre ->
  from_str stop = Some MessageStop ->
  stream_task (Responded status reason body
                 (flat_map (fun c => map Ok (fst c) ++ [data_line (snd c)]) chunks
                  ++ map Ok stop_pre ++ data_line stop :: rest)) = reply_deltas texts.
Proof.
  intros Hst Hpre Htexts Hstop_pre Hstop.
  unfold stream_task, send_message_streaming. rewrite Hst. cbn [negb].
  rewrite !event_stream_app, (event_stream_text_chunks _ _ Hpre Htexts).
  rewrite event_stream_non_data by exact Hstop_pre.
  change (data_line stop :: rest) with ([data_line stop] ++ rest).
  rewrite event_stream_app. unfold event_stream at 1. cbn [flat_map].
  rewrite (event_step_stop _ Hstop). cbn [app].
  exact (drain_text_then_stop texts (event_stream rest) default_delta).
Qed.

Definition NOT_CONFIGURED : string := "API key not configured. Please add it in settings.".

Lemma bad_key_aux (a : ClauChatApp) (kc kc' : result bool string) :
  String.eqb (trim (input a)) "" = false -> is_sending a = false -> client a <> None ->
  match kc with Ok b => b | Err _ => false end = false ->
  snd (send_message a kc) = None /\
  input (fst (send_message a kc)) = input a /\
  messages (fst (send_message a kc)) = messages a /\
  send_message (fst (send_message a kc)) kc' =
    (set_error (fst (send_message a kc)) (Some NOT_CONFIGURED), None).
Proof.
  intros Ht Hs Hc Hk.
  assert (E : send_message a kc =
              (set_error (set_client a None) (Some "Bad API key, request process canceled"), None)).
  { unfold send_message. rewrite Ht, Hs. cbn [orb].
    destruct (client a); [|congruence]. rewrite Hk. reflexivity. }
  rewrite E. cbn [fst snd].
  split; [reflexivity|split; [reflexivity|split; [reflexivity|]]].
  unfold send_message. cbn [input is_sending client set_error set_client]. rewrite Ht, Hs.
  reflexivity.
Qed.

Lemma update_api_key_aux (a : ClauChatApp) (k : string) (kc : result bool string) :
  String.eqb (trim (input a)) "" = false -> is_sending a = false ->
  (k = EmptyString ->
   send_message (update_api_key a k) kc =
     (set_error (update_api_key a k) (Some NOT_CONFIGURED), None)) /\
  (k <> EmptyString ->
   snd (send_message (update_api_key a k) (Ok true)) = Some (messages a ++ [mkMessage User (input a)]) /\
   client (fst (send_message (update_api_key a k) (Ok true))) = Some (mkClient k (model a))).
Proof.
  intros Ht Hs. split.
  - intros ->. unfold update_api_key, send_message. cbn -[trim]. rewrite Ht, Hs. reflexivity.
  - intros Hk. unfold update_api_key. cbn [config_api_key].
    destruct (String.eqb_spec k EmptyString) as [E|_]; [congruence|]. cbn [negb].
    unfold send_message. cbn -[trim]. rewrite Ht, Hs. split; reflexivity.
Qed.




(** ** Properties of the code beyond the claims *)


Definition demo_app : ClauChatApp :=
  mkApp "hello" [] false "sk-test" (Some (mkClient "sk-test" MODEL)) None None MODEL None F64.zero.

(** X1: the code blocks [find_code_blocks] returns lie inside the content,
    in order and without overlap: each starts at or after the end of the
    previous one, and each ends strictly after it starts. *)
Theorem X1_code_blocks_ordered (content : string) :
  ordered 0 (find_code_blocks content) (String.length content).
Proof. exact (find_code_blocks_ordered_aux content). Qed.

(** X2: [render_message_content] loses and repeats nothing: the content is
    cut into non-empty consecutive pieces, one per widget, in order; a
    label shows its piece verbatim and a code widget shows what
    [extract_code] takes out of its piece. *)
Theorem X2_render_tiles_content (content : string) :
  exists srcs, join srcs = content /\
    Forall2 shows (render_message_content content) srcs /\
    Forall (fun s => s <> EmptyString) srcs.
Proof. exact (render_tiles_aux content). Qed.

(** X3: a message without a triple backtick has no code block and renders
    as one label holding the whole text (nothing for an empty message). *)
Theorem X3_plain_text_single_label (content : string) :
  contains "```" content = false ->
  find_code_blocks content = [] /\
  render_message_content content =
    match content with EmptyString => [] | String _ _ => [Label content] end.
Proof. exact (render_plain_aux content). Qed.

Lemma X3_witness :
  find_code_blocks "Hello there" = [] /\
  render_message_content "Hello there" = [Label "Hello there"].
Proof. exact (X3_plain_text_single_label "Hello there" eq_refl). Defined.



(** X5: a cost [parse_cost] accepts is the sentinel [-1.0] or a
    non-negative number: the digits-and-dots string it parses has no sign. *)
Theorem X5_parse_cost_sign (s : string) :
  match parse_cost s with
  | Ok v => v = F64.neg_one \/ F64.leb F64.zero v = true
  | Err _ => True
  end.
Proof.
  destruct (parse_cost s) as [v|] eqn:E; [|exact I].
  exact (parse_cost_range_aux s v E).
Qed.


(** X7: filtering by a model name in the row loop is the same as running
    the unfiltered loop on the rows that contain the name: rows without
    it are skipped before the end-of-table test. *)
Theorem X7_parse_rows_filter (n : string) (rows : list string) (m : PricingTable) :
  parse_rows (Some n) rows m = parse_rows None (filter (contains n) rows) m.
Proof. exact (parse_rows_filter_aux n rows m). Qed.

(** X8: a table [parse_pricing_table] returns is non-empty, has distinct
    keys, and every entry is keyed by its own model name, with costs that
    are [-1.0] or non-negative and token limits in [0, usize::MAX]. *)
Theorem X8_pricing_table_entries (markdown : string) (name : option string) :
  match parse_pricing_table markdown name with
  | Ok t => t <> [] /\ NoDup (map fst t) /\ Forall entry_ok t
  | Err _ => True
  end.
Proof.
  destruct (parse_pricing_table markdown name) as [t|] eqn:E; [|exact I].
  exact (parse_pricing_table_ok_aux markdown name t E).
Qed.

(** X9: a successful exchange. After a send with a valid key, when the
    response streams text increments t1..tn and then [message_stop], and
    the reply does not begin with STREAM_ERROR_TOKEN, any interleaving of
    the task's sends with frames runs without a panic; once the frames
    have received everything, the conversation is the old one plus the
    user's message and the assistant's reply t1+...+tn, nothing is being
    sent any more and no error is shown. *)
Theorem X9_exchange_completes (a : ClauChatApp) (status : Z) (reason : string)
  (body : result string string) (chunks : list (list string * string)) (texts : list string)
  (stop_pre : list string) (stop : string) (rest : list (result string string)) (evs : list Event) :
  String.eqb (trim (input a)) "" = false -> is_sending a = false -> client a <> None ->
  is_success status = true ->
  Forall (fun c => Forall non_data_line (fst c)) chunks ->
  Forall2 (fun c t => text_delta_payload (snd c) t) chunks texts ->
  Forall non_data_line stop_pre ->
  from_str stop = Some MessageStop ->
  starts_with STREAM_ERROR_TOKEN (join texts) = false ->
  sent evs = stream_task (Responded status reason body
                 (flat_map (fun c => map Ok (fst c) ++ [data_line (snd c)]) chunks
                  ++ map Ok stop_pre ++ data_line stop :: rest)) ->
  exists a', run (fst (send_message a (Ok true))) evs = Some a' /\
    (stream_receiver a' = Some [] ->
     messages a' = messages a ++ [mkMessage User (input a); mkMessage Assistant (join texts)] /\
     is_sending a' = false /\ error a' = None).
Proof.
  intros Ht Hs Hc Hst Hpre Htexts Hsp Hstop Hj Hsent.
  rewrite (stream_task_reply status reason body chunks texts stop_pre stop rest
             Hst Hpre Htexts Hsp Hstop) in Hsent.
  exact (exchange_aux a texts evs Ht Hs Hc Hj Hsent).
Qed.

Lemma X9_witness :
  exists a', run (fst (send_message demo_app (Ok true)))
               [TaskSend (mkAppDelta "Hi" false None); Frame;
                TaskSend (mkAppDelta "Hi" true None); Frame] = Some a' /\
    (stream_receiver a' = Some [] ->
     messages a' = [mkMessage User "hello"; mkMessage Assistant (join ["Hi"])] /\
     is_sending a' = false /\ error a' = None).
Proof.
  apply (X9_exchange_completes demo_app 200 "OK" (Ok EmptyString) [([], payload_text "Hi")] ["Hi"]
           [] payload_stop []).
  - reflexivity.
  - reflexivity.
  - discriminate.
  - reflexivity.
  - repeat constructor.
  - repeat constructor. exists 0%Z. vm_compute. reflexivity.
  - constructor.
  - vm_compute. reflexivity.
  - vm_compute. reflexivity.
  - vm_compute. reflexivity.
Defined.

(** X10: a successful response without [message_stop] (the stream ends or
    breaks off without it, and no line fails to read) never clears
    [is_sending]: whatever the frames receive, the app stays sending and
    every later send is refused without a change. *)
Theorem X10_no_stop_stays_sending (a : ClauChatApp) (status : Z) (reason : string)
  (body : result string string) (ls : list string) (evs : list Event) :
  String.eqb (trim (input a)) "" = false -> is_sending a = false -> client a <> None ->
  is_success status = true -> Forall no_stop_line ls ->
  sent evs = stream_task (Responded status reason body (map Ok ls)) ->
  exists a', run (fst (send_message a (Ok true))) evs = Some a' /\
    is_sending a' = true /\ forall kc, send_message a' kc = (a', None).
Proof. exact (no_stop_aux a status reason body ls evs). Qed.

Lemma X10_witness :
  exists a', run (fst (send_message demo_app (Ok true)))
               [TaskSend (mkAppDelta "Hi" false None); Frame] = Some a' /\
    is_sending a' = true /\ forall kc, send_message a' kc = (a', None).
Proof.
  apply (X10_no_stop_stays_sending demo_app 200 "OK" (Ok EmptyString)
           ["event: content_block_delta"; ("data: " ++ payload_text "Hi")%string]).
  - reflexivity.
  - reflexivity.
  - discriminate.
  - reflexivity.
  - repeat constructor; intros p H; vm_compute in H; try discriminate;
      injection H as <-; vm_compute; discriminate.
  - vm_compute. reflexivity.
Defined.

(** X11: after a failed key check the client is dropped: the send is
    refused with the input and the conversation kept, and the next send
    reports that no API key is configured, whatever the key check would
    now say. *)
Theorem X11_bad_key_then_not_configured (a : ClauChatApp) (kc kc' : result bool string) :
  String.eqb (trim (input a)) "" = false -> is_sending a = false -> client a <> None ->
  match kc with Ok b => b | Err _ => false end = false ->
  snd (send_message a kc) = None /\
  input (fst (send_message a kc)) = input a /\
  messages (fst (send_message a kc)) = messages a /\
  send_message (fst (send_message a kc)) kc' =
    (set_error (fst (send_message a kc)) (Some NOT_CONFIGURED), None).
Proof. exact (bad_key_aux a kc kc'). Qed.

Lemma X11_witness :
  snd (send_message demo_app (Ok false)) = None /\
  input (fst (send_message demo_app (Ok false))) = "hello" /\
  messages (fst (send_message demo_app (Ok false))) = [] /\
  send_message (fst (send_message demo_app (Ok false))) (Ok true) =
    (set_error (fst (send_message demo_app (Ok false))) (Some NOT_CONFIGURED), None).
Proof.
  exact (X11_bad_key_then_not_configured demo_app (Ok false) (Ok true)
           eq_refl eq_refl ltac:(discriminate) eq_refl).
Defined.

(** X12: [update_api_key] decides the next send: with an empty key the
    send reports that no API key is configured; with a non-empty key a
    send whose key check passes goes out, with a client for that key and
    the conversation plus the typed message as history. *)
Theorem X12_update_api_key_gates_send (a : ClauChatApp) (k : string) (kc : result bool string) :
  String.eqb (trim (input a)) "" = false -> is_sending a = false ->
  (k = EmptyString ->
   send_message (update_api_key a k) kc =
     (set_error (update_api_key a k) (Some NOT_CONFIGURED), None)) /\
  (k <> EmptyString ->
   snd (send_message (update_api_key a k) (Ok true)) = Some (messages a ++ [mkMessage User (input a)]) /\
   client (fst (send_message (update_api_key a k) (Ok true))) = Some (mkClient k (model a))).
Proof. exact (update_api_key_aux a k kc). Qed.

Lemma X12_witness :
  snd (send_message (update_api_key (set_client demo_app None) "sk-new") (Ok true)) =
    Some [mkMessage User "hello"] /\
  client (fst (send_message (update_api_key (set_client demo_app None) "sk-new") (Ok true))) =
    Some (mkClient "sk-new" MODEL).
Proof.
  exact (proj2 (X12_update_api_key_gates_send (set_client demo_app None) "sk-new" (Ok true)
                  eq_refl eq_refl) ltac:(discriminate)).
Defined.



(** X14: however the task's sends and the frames interleave, the frames
    have handled a prefix of what the task sent, in the order sent, and
    the rest waits in the channel: the state is that of handling the
    prefix one item after the other from the state after the send. *)
Theorem X14_frames_handle_prefix (a : ClauChatApp) (evs : list Event) :
  stream_receiver a = Some [] ->
  match run a evs with
  | Some a' =>
      exists consumed rest,
        sent evs = consumed ++ rest /\ stream_receiver a' = Some rest /\
        handle_all (set_receiver a None) consumed = Some (set_receiver a' None)
  | None => True
  end.
Proof.
  intros Hr. destruct (run a evs) as [a'|] eqn:E; [|exact I].
  destruct (run_consumed evs (set_receiver a None) a a' [] [] Hr eq_refl E)
    as [c [r [H1 H2]]].
  exists c, r. split; [exact H1|exact H2].
Qed.

Lemma X14_witness :
  match run (fst (send_message demo_app (Ok true)))
          [TaskSend (mkAppDelta "H" false None); TaskSend (mkAppDelta "Hi" false None); Frame] with
  | Some a' =>
      exists consumed rest,
        sent [TaskSend (mkAppDelta "H" false None); TaskSend (mkAppDelta "Hi" false None); Frame]
          = consumed ++ rest /\ stream_receiver a' = Some rest /\
        handle_all (set_receiver (fst (send_message demo_app (Ok true))) None) consumed
          = Some (set_receiver a' None)
  | None => True
  end.
Proof.
  exact (X14_frames_handle_prefix (fst (send_message demo_app (Ok true)))
           [TaskSend (mkAppDelta "H" false None); TaskSend (mkAppDelta "Hi" false None); Frame]
           eq_refl).
Defined.
